(** * Kids Video Player ("walled garden"): a shallow embedding of its
      control-flow-bearing code, and the properties of it that were checked.

    The development follows the source files:
    - [JsString]       the host language's strings (UTF-16 code units), [trim],
                       [parseInt] and the regular expressions the code uses;
    - [SettingsPanel]  [extractVideoId] and the add form's [handleAddVideo];
    - [Double]         the host's numbers, as far as [Math.random() * n]
                       needs them: rounding to the nearest double;
    - [ParentalGate]   [mathProblem], [handleInputChange], [handleSubmit] and
                       the [HoldButton] timers;
    - [VideoPlayer]    the remote/local fallback handlers;
    - [Json]           [JSON.stringify] and [JSON.parse], as far as the
                       persisted library needs them;
    - [App]            the library handlers, persistence and the gate wiring. *)

From Stdlib Require Import List NArith ZArith QArith Qround Qpower Bool Lia Lqa
  String Ascii.
Import ListNotations.

Set Implicit Arguments.
Close Scope Q_scope.

(* ------------------------------------------------------------------------ *)
(** * Strings of the host language *)

Module JsString.

Local Open Scope N_scope.

(** A string is a sequence of UTF-16 code units. *)
Definition code_unit := N.
Definition jsstring := list code_unit.

(** String literals of the source, written with Rocq's own (ASCII) strings. *)
Definition js (s : string) : jsstring :=
  List.map N_of_ascii (list_ascii_of_string s).

Definition unit_eqb (a b : code_unit) : bool := N.eqb a b.

Fixpoint jseqb (s t : jsstring) : bool :=
  match s, t with
  | [], [] => true
  | a :: s', b :: t' => unit_eqb a b && jseqb s' t'
  | _, _ => false
  end.

Definition in_range (lo hi c : code_unit) : bool :=
  (N.leb lo c && N.leb c hi)%bool.

(** [0-9] *)
Definition isDigit (c : code_unit) : bool := in_range 48 57 c.

(** [a-zA-Z0-9_-], the class of every pattern of [extractVideoId]. *)
Definition isIdChar (c : code_unit) : bool :=
  in_range 97 122 c || in_range 65 90 c || in_range 48 57 c
  || unit_eqb c 95 || unit_eqb c 45.

(** WhiteSpace and LineTerminator of ECMAScript: what [trim] and [parseInt]
    strip. TAB, LF, VT, FF, CR, SP, NBSP, OGHAM SPACE, EN QUAD .. HAIR SPACE,
    LS, PS, NARROW NBSP, MEDIUM MATHEMATICAL SPACE, IDEOGRAPHIC SPACE, BOM. *)
Definition isWhiteSpace (c : code_unit) : bool :=
  in_range 9 13 c || unit_eqb c 32 || unit_eqb c 160 || unit_eqb c 5760
  || in_range 8192 8202 c || unit_eqb c 8232 || unit_eqb c 8233
  || unit_eqb c 8239 || unit_eqb c 8287 || unit_eqb c 12288
  || unit_eqb c 65279.

Fixpoint dropWhile (p : code_unit -> bool) (s : jsstring) : jsstring :=
  match s with
  | [] => []
  | c :: s' => if p c then dropWhile p s' else s
  end.

Definition trimStart (s : jsstring) : jsstring := dropWhile isWhiteSpace s.
Definition trimEnd (s : jsstring) : jsstring :=
  rev (dropWhile isWhiteSpace (rev s)).

(** [String.prototype.trim] *)
Definition trim (s : jsstring) : jsstring := trimEnd (trimStart s).

(** [s.replace(/[^...]/g, '')] for a negated class: keep the class. *)
Definition keepOnly (p : code_unit -> bool) (s : jsstring) : jsstring :=
  filter p s.

(** ** The patterns of [extractVideoId] *)

(** [lit] matches at the start of [s]; the rest of [s] after it. *)
Fixpoint stripPrefix (lit s : jsstring) : option jsstring :=
  match lit with
  | [] => Some s
  | a :: lit' =>
      match s with
      | [] => None
      | b :: s' => if unit_eqb a b then stripPrefix lit' s' else None
      end
  end.

(** [[a-zA-Z0-9_-]{n}] at the start of [s]: the [n] units it consumes. *)
Fixpoint takeIdChars (n : nat) (s : jsstring) : option jsstring :=
  match n with
  | O => Some []
  | S n' =>
      match s with
      | [] => None
      | c :: s' =>
          if isIdChar c then
            match takeIdChars n' s' with
            | Some r => Some (c :: r)
            | None => None
            end
          else None
      end
  end.

(** [/^[a-zA-Z0-9_-]{11}$/.test(s)]: without the m flag, [$] is the end of the
    input and nothing else. *)
Definition isBareId (s : jsstring) : bool :=
  match takeIdChars 11 s with
  | Some r => Nat.eqb (List.length s) 11
  | None => false
  end.

(** The pattern [/(?:lit)([a-zA-Z0-9_-]{11})/] tried at the start of [s]:
    capture group 1. *)
Definition matchHere (lit s : jsstring) : option jsstring :=
  match stripPrefix lit s with
  | Some rest => takeIdChars 11 rest
  | None => None
  end.

(** [s.match(/(?:lit)([a-zA-Z0-9_-]{11})/)]: the leftmost position where the
    pattern matches; the result is [match[1]], or [None] for a null match. *)
Fixpoint matchGroup1 (lit s : jsstring) : option jsstring :=
  match matchHere lit s with
  | Some g => Some g
  | None =>
      match s with
      | [] => None
      | _ :: s' => matchGroup1 lit s'
      end
  end.

(** ** [parseInt(s, 10)] *)

Definition digitValue (c : code_unit) : Z := Z.of_N c - 48.

(** The longest prefix of decimal digits, most significant first. *)
Fixpoint takeDigits (s : jsstring) : jsstring :=
  match s with
  | [] => []
  | c :: s' => if isDigit c then c :: takeDigits s' else []
  end.

Definition digitsValue (ds : jsstring) : Z :=
  fold_left (fun acc c => 10 * acc + digitValue c)%Z ds 0%Z.

(** [parseInt(s, 10)]: leading white space is skipped, one sign is read, then
    the longest run of digits; no digit at all gives NaN, here [None]. The
    result is the mathematical integer: the host rounds it to a double, which
    changes nothing below 2^53 and keeps a larger value larger than any answer
    of the gate, and [-0 === 0] holds in the host as [0 = 0] does here. *)
Definition parseInt (s : jsstring) : option Z :=
  let s1 := trimStart s in
  let '(sign, s2) :=
    match s1 with
    | c :: r =>
        if unit_eqb c 45 then ((-1)%Z, r)
        else if unit_eqb c 43 then (1%Z, r)
        else (1%Z, s1)
    | [] => (1%Z, s1)
    end in
  match takeDigits s2 with
  | [] => None
  | ds => Some (sign * digitsValue ds)%Z
  end.

(** [String(n)] for an integer: its decimal digits, with a minus sign for a
    negative one. *)
Fixpoint digitsOfPos_fuel (fuel : nat) (n : Z) (acc : jsstring) : jsstring :=
  match fuel with
  | O => acc
  | S fuel' =>
      let acc' := Z.to_N (48 + n mod 10) :: acc in
      if (n <? 10)%Z then acc' else digitsOfPos_fuel fuel' (n / 10)%Z acc'
  end.

Definition toString (n : Z) : jsstring :=
  if (n <? 0)%Z
  then 45%N :: digitsOfPos_fuel (S (Z.to_nat (Z.log2 (- n)))) (- n)%Z []
  else digitsOfPos_fuel (S (Z.to_nat (Z.log2 n))) n [].

End JsString.

Import JsString.

(* ------------------------------------------------------------------------ *)
(** * The data model *)

(** A video entry: [{id, title, emoji, color}], four strings. *)
Record VideoEntry := mkVideo {
  id : jsstring;
  title : jsstring;
  emoji : jsstring;
  color : jsstring
}.

Definition Library := list VideoEntry.

(* ------------------------------------------------------------------------ *)
(** * SettingsPanel.jsx *)

Module SettingsPanel.

(** The four URL shapes of [patterns], in the order the loop tries them. *)
Definition patterns : list jsstring :=
  [ js "youtube.com/watch?v=";
    js "youtu.be/";
    js "youtube.com/embed/";
    js "youtube.com/v/" ].

(** [for (const pattern of patterns) { const match = input.match(pattern);
    if (match) return match[1]; } return null;] *)
Fixpoint firstMatch (ps : list jsstring) (input : jsstring) : option jsstring :=
  match ps with
  | [] => None
  | p :: ps' =>
      match matchGroup1 p input with
      | Some g => Some g
      | None => firstMatch ps' input
      end
  end.

(** [extractVideoId]: [None] is [null]. *)
Definition extractVideoId (input : jsstring) : option jsstring :=
  if isBareId input then Some input else firstMatch patterns input.

(** The form's state: the [useState] cells of the component. *)
Record FormState := mkForm {
  showAddForm : bool;
  newVideoId : jsstring;
  newVideoTitle : jsstring;
  newVideoEmoji : jsstring;
  selectedColor : jsstring;
  error : jsstring
}.

Definition setError (e : jsstring) (st : FormState) : FormState :=
  mkForm (showAddForm st) (newVideoId st) (newVideoTitle st)
         (newVideoEmoji st) (selectedColor st) e.

Definition errInvalid : jsstring := js "Invalid YouTube video ID or URL".
Definition errNoTitle : jsstring := js "Please enter a title".
Definition errDuplicate : jsstring := js "This video is already in the library".

(** [videos.some((v) => v.id === videoId)] *)
Definition hasId (videos : Library) (videoId : jsstring) : bool :=
  existsb (fun v => jseqb (id v) videoId) videos.

(** [handleAddVideo]: the new form state, and the entry handed to
    [onAddVideo] when the form is accepted. An [id] that is [null] or the
    empty string is falsy; [extractVideoId] never returns the latter. *)
Definition handleAddVideo (videos : Library) (st : FormState)
  : FormState * option VideoEntry :=
  let st := setError [] st in
  match extractVideoId (trim (newVideoId st)) with
  | None => (setError errInvalid st, None)
  | Some [] => (setError errInvalid st, None)
  | Some videoId =>
      match trim (newVideoTitle st) with
      | [] => (setError errNoTitle st, None)
      | newTitle =>
          if hasId videos videoId
          then (setError errDuplicate st, None)
          else
            (mkForm false [] [] (newVideoEmoji st) (selectedColor st) (error st),
             Some (mkVideo videoId newTitle (newVideoEmoji st) (selectedColor st)))
      end
  end.

End SettingsPanel.

(* ------------------------------------------------------------------------ *)
(** * Numbers of the host language *)

(** The host's numbers are IEEE 754 doubles, and [a * b] is the exact
    product rounded to the nearest double, ties to the even significand. A
    number is given here by its exact value, a rational. The doubles of
    magnitude below 2^1024 are the multiples of 2^e with a significand below
    2^53, for e from -1074 on; the overflow to Infinity lies far above the
    products this program forms, which stay below 30. *)
Module Double.

Local Open Scope Q_scope.

Definition pow2 (e : Z) : Q := 2 ^ e.

(** The exponent of the power of two at or just below a positive [x]. *)
Definition ilog2 (x : Q) : Z :=
  let d := (Z.log2 (Qnum x) - Z.log2 (Zpos (Qden x)))%Z in
  if Qle_bool (pow2 d) x then d else (d - 1)%Z.

(** The integer nearest to [y]; of two equally near, the even one. *)
Definition roundHalfEven (y : Q) : Z :=
  let q := Qfloor y in
  match Qcompare (y - inject_Z q) (1 # 2) with
  | Lt => q
  | Eq => if Z.even q then q else (q + 1)%Z
  | Gt => (q + 1)%Z
  end.

(** The exponent of the last place of the doubles around [x]: 53
    significant bits, and no place below 2^-1074. *)
Definition ulpExponent (x : Q) : Z := Z.max (ilog2 x - 52) (-1074).

Definition roundPositive (x : Q) : Q :=
  let e := ulpExponent x in
  inject_Z (roundHalfEven (x / pow2 e)) * pow2 e.

(** The double nearest to [x]. *)
Definition round (x : Q) : Q :=
  match Qcompare x 0 with
  | Eq => 0
  | Gt => roundPositive x
  | Lt => - roundPositive (- x)
  end.

(** [a * b] *)
Definition mul (a b : Q) : Q := round (a * b).

End Double.

(* ------------------------------------------------------------------------ *)
(** * ParentalGate.jsx *)

Module ParentalGate.

(** [operations = ['+', '-', '×']] *)
Inductive Operation := Plus | Minus | Times.

Definition operations : list Operation := [Plus; Minus; Times].

(** [{ num1, num2, operation, answer }]; [operation] is [undefined] in the
    [default:] branch of the switch. *)
Record MathProblem := mkProblem {
  num1 : Z;
  num2 : Z;
  operation : option Operation;
  answer : Z
}.

(** [Math.floor(Math.random() * n)], for a draw [r] of [Math.random()]: the
    product is the host's, rounded to the nearest double, and the floor is
    taken of the rounded product. *)
Definition randomBelow (r : Q) (n : Z) : Z :=
  Qfloor (Double.mul r (inject_Z n)).

(** [operations[i]]: [undefined] outside the array. *)
Definition pick (i : Z) : option Operation :=
  if (i <? 0)%Z then None else nth_error operations (Z.to_nat i).

(** The body of the [useMemo] that builds [mathProblem], for the three draws
    it makes, in the order it makes them. *)
Definition mathProblem (r0 r1 r2 : Q) : MathProblem :=
  let operation := pick (randomBelow r0 (Z.of_nat (List.length operations))) in
  match operation with
  | Some Plus =>
      let num1 := (randomBelow r1 20 + 10)%Z in
      let num2 := (randomBelow r2 20 + 10)%Z in
      mkProblem num1 num2 operation (num1 + num2)
  | Some Minus =>
      let num1 := (randomBelow r1 30 + 20)%Z in
      let num2 := (randomBelow r2 15 + 5)%Z in
      mkProblem num1 num2 operation (num1 - num2)
  | Some Times =>
      let num1 := (randomBelow r1 8 + 3)%Z in
      let num2 := (randomBelow r2 8 + 3)%Z in
      mkProblem num1 num2 operation (num1 * num2)
  | None => mkProblem 10 5 operation 15
  end.

(** The state of one mounted gate: the memoised problem and the three
    [useState] cells. *)
Record State := mkState {
  problem : MathProblem;
  userAnswer : jsstring;
  attempts : nat;
  showError : bool
}.

Definition init (p : MathProblem) : State := mkState p [] 0 false.

(** What a handler asks of the outside: a call of the [onSuccess] prop, or
    [setTimeout(onCancel, delay)]. *)
Inductive Effect :=
| CallOnSuccess
| SetTimeoutOnCancel (delay : Z).

(** The class kept by [/[^0-9-]/g]: digits and the hyphen. *)
Definition isAnswerChar (c : code_unit) : bool := isDigit c || unit_eqb c 45%N.

(** [handleInputChange]: [e.target.value.replace(/[^0-9-]/g, '')] is stored,
    and the error flag is cleared. *)
Definition handleInputChange (value : jsstring) (st : State) : State :=
  mkState (problem st) (keepOnly isAnswerChar value) (attempts st) false.

(** [parsed === mathProblem.answer]; NaN equals nothing. *)
Definition strictEq (parsed : option Z) (n : Z) : bool :=
  match parsed with
  | Some m => Z.eqb m n
  | None => false
  end.

(** [handleSubmit] *)
Definition handleSubmit (st : State) : State * list Effect :=
  let parsed := parseInt (userAnswer st) in
  if strictEq parsed (answer (problem st)) then (st, [CallOnSuccess])
  else
    (mkState (problem st) [] (S (attempts st)) true,
     if Nat.leb 2 (attempts st) then [SetTimeoutOnCancel 1500] else []).

(** The message under the field: ['Too many attempts!'] from the third
    failure on. *)
Definition errorMessage (st : State) : option jsstring :=
  if showError st
  then Some (if Nat.leb 3 (attempts st)
             then js "Too many attempts!" else js "Incorrect, try again")
  else None.

End ParentalGate.

(* ------------------------------------------------------------------------ *)
(** * HoldButton (ParentalGate.jsx) *)

Module HoldButton.

Definition HOLD_DURATION : Z := 3000.
Definition UPDATE_INTERVAL : Z := 50.

(** The component's cells: [progress], [isHolding], and [intervalRef.current]
    (the id of the last interval it created, [None] for [null]). *)
Record State := mkState {
  progress : Q;
  isHolding : bool;
  intervalRef : option nat
}.

Definition init : State := mkState 0 false None.

(** [(elapsed / HOLD_DURATION) * 100] *)
Definition progressOf (elapsed : Z) : Q :=
  (inject_Z elapsed / inject_Z HOLD_DURATION * 100)%Q.

(** One run of the interval's callback on its closure variable [elapsed]: the
    new [elapsed], the progress it sets, and whether it completes
    ([clearInterval(intervalRef.current); onComplete()]). *)
Definition tick (elapsed : Z) : Z * Q * bool :=
  let elapsed' := (elapsed + UPDATE_INTERVAL)%Z in
  (elapsed', progressOf elapsed', (HOLD_DURATION <=? elapsed')%Z).

(** [startHold], given the id [setInterval] returns: the closure starts at
    [elapsed = 0]; the id replaces whatever [intervalRef.current] held. *)
Definition startHold (newId : nat) (st : State) : State :=
  mkState 0 true (Some newId).

(** [stopHold]: the state, and the id handed to [clearInterval]. *)
Definition stopHold (st : State) : State * option nat :=
  (mkState 0 false (intervalRef st), intervalRef st).

(** The unmount cleanup: the id handed to [clearInterval]. *)
Definition cleanup (st : State) : option nat := intervalRef st.

End HoldButton.

(* ------------------------------------------------------------------------ *)
(** * VideoPlayer.jsx *)

Module VideoPlayer.

(** The playback session: the three [useState] cells, and whether
    [playerRef.current] has been set by [handleReady]. *)
Record State := mkState {
  isLoading : bool;
  hasError : bool;
  useLocalVideo : bool;
  playerRef : bool
}.

Definition init : State := mkState true false false false.

Inductive SourceMode := Remote | Local.

Definition sourceMode (st : State) : SourceMode :=
  if useLocalVideo st then Local else Remote.

(** Calls made on the two players. *)
Inductive Command :=
| PlayVideo          (* event.target.playVideo() / playerRef.current.playVideo() *)
| SeekTo0            (* playerRef.current.seekTo(0) *)
| LocalPlay          (* videoRef.current.play() *)
| LocalRewind.       (* videoRef.current.currentTime = 0 *)

Definition handleReady (st : State) : State * list Command :=
  (mkState false (hasError st) (useLocalVideo st) true, [PlayVideo]).

(** [handleError]: the remote player failed; switch to the local file. *)
Definition handleError (st : State) : State * list Command :=
  (mkState true false true (playerRef st), []).

Definition handleEnd (st : State) : State * list Command :=
  (st, if playerRef st then [SeekTo0; PlayVideo] else []).

(** [handleLocalVideoReady]: the handler runs while the video element is
    mounted, so [videoRef.current] is set; [playRejected] says whether the
    promise of [play()] is rejected, which sets [hasError]. *)
Definition handleLocalVideoReady (playRejected : bool) (st : State)
  : State * list Command :=
  (mkState false (if playRejected then true else hasError st)
           (useLocalVideo st) (playerRef st),
   [LocalPlay]).

Definition handleLocalVideoError (st : State) : State * list Command :=
  (mkState false true (useLocalVideo st) (playerRef st), []).

Definition handleLocalVideoEnd (st : State) : State * list Command :=
  (st, [LocalRewind; LocalPlay]).

(** The signals of the two collaborators. *)
Inductive Signal :=
| RemoteReady
| RemoteError (data : Z)
| RemoteEnd
| LocalLoadedData (playRejected : bool)
| LocalError
| LocalEnded.

(** The render wires the remote handlers to the YouTube element, mounted
    while [!useLocalVideo], and the local ones to the video element, mounted
    otherwise: a signal of the element that is not mounted reaches nothing. *)
Definition dispatch (st : State) (sig : Signal) : State * list Command :=
  match sig, useLocalVideo st with
  | RemoteReady, false => handleReady st
  | RemoteError _, false => handleError st
  | RemoteEnd, false => handleEnd st
  | LocalLoadedData rejected, true => handleLocalVideoReady rejected st
  | LocalError, true => handleLocalVideoError st
  | LocalEnded, true => handleLocalVideoEnd st
  | _, _ => (st, [])
  end.

Definition step (st : State) (sig : Signal) : State := fst (dispatch st sig).

Definition run (st : State) (sigs : list Signal) : State :=
  fold_left step sigs st.

(** A step that moves the session from the remote to the local source. *)
Definition switchesToLocal (st : State) (sig : Signal) : bool :=
  negb (useLocalVideo st) && useLocalVideo (step st sig).

(** A step that moves it back. *)
Definition switchesToRemote (st : State) (sig : Signal) : bool :=
  useLocalVideo st && negb (useLocalVideo (step st sig)).

(** How many steps of a run satisfy [p]. *)
Fixpoint countSteps (p : State -> Signal -> bool) (st : State)
                    (sigs : list Signal) : nat :=
  match sigs with
  | [] => 0
  | sig :: rest =>
      (if p st sig then 1 else 0) + countSteps p (step st sig) rest
  end.

End VideoPlayer.

(* ------------------------------------------------------------------------ *)
(** * JSON.stringify and JSON.parse *)

Module Json.

Local Open Scope N_scope.

(** The values [JSON.parse] builds. A number keeps the text it was read from:
    its numeric value is not interpreted (the library holds no number).
    An object is its own properties in enumeration order. *)
Unset Elimination Schemes.
Inductive value :=
| JNull
| JBool (b : bool)
| JNumber (lexeme : jsstring)
| JString (s : jsstring)
| JArray (items : list value)
| JObject (props : list (jsstring * value)).
Set Elimination Schemes.

(** ** Property order of an object *)

(** A key that is an array index: a canonical decimal below 2^32 - 1. Such
    keys are enumerated first, in ascending order; the others follow in the
    order they were created. *)
Definition arrayIndex (k : jsstring) : option N :=
  match k with
  | [] => None
  | c :: r =>
      if (unit_eqb c 48 && Nat.eqb (List.length r) 0)
         || (in_range 49 57 c && forallb isDigit r)
      then
        let v := Z.to_N (digitsValue k) in
        if v <=? 4294967294 then Some v else None
      else None
  end.

Fixpoint hasProp (k : jsstring) (props : list (jsstring * value)) : bool :=
  match props with
  | [] => false
  | (k', _) :: ps => jseqb k' k || hasProp k ps
  end.

Fixpoint replaceProp (k : jsstring) (v : value)
                     (props : list (jsstring * value)) :=
  match props with
  | [] => []
  | (k', v') :: ps =>
      if jseqb k' k then (k', v) :: ps else (k', v') :: replaceProp k v ps
  end.

Fixpoint insertIndex (i : N) (k : jsstring) (v : value)
                     (props : list (jsstring * value)) :=
  match props with
  | [] => [(k, v)]
  | (k', v') :: ps =>
      match arrayIndex k' with
      | Some j =>
          if i <? j then (k, v) :: props else (k', v') :: insertIndex i k v ps
      | None => (k, v) :: props
      end
  end.

(** [CreateDataProperty(obj, k, v)]: a key already there keeps its place and
    takes the new value. *)
Definition defineProp (props : list (jsstring * value))
                      (kv : jsstring * value) :=
  let '(k, v) := kv in
  if hasProp k props then replaceProp k v props
  else
    match arrayIndex k with
    | Some i => insertIndex i k v props
    | None => props ++ [(k, v)]
    end.

Definition mkObject (members : list (jsstring * value)) : value :=
  JObject (fold_left defineProp members []).

(** ** JSON.stringify *)

Definition isHighSurrogate (c : code_unit) : bool := in_range 55296 56319 c.
Definition isLowSurrogate (c : code_unit) : bool := in_range 56320 57343 c.

Definition hexDigit (d : N) : code_unit := if d <? 10 then 48 + d else 87 + d.

(** [\uXXXX], lower case. *)
Definition hex4 (c : code_unit) : jsstring :=
  [92; 117; hexDigit (c / 4096); hexDigit ((c / 256) mod 16);
   hexDigit ((c / 16) mod 16); hexDigit (c mod 16)].

(** One code unit that is no surrogate, as QuoteJSONString writes it. *)
Definition escapeUnit (c : code_unit) : jsstring :=
  if unit_eqb c 8 then [92; 98]
  else if unit_eqb c 9 then [92; 116]
  else if unit_eqb c 10 then [92; 110]
  else if unit_eqb c 12 then [92; 102]
  else if unit_eqb c 13 then [92; 114]
  else if unit_eqb c 34 then [92; 34]
  else if unit_eqb c 92 then [92; 92]
  else if c <? 32 then hex4 c
  else [c].

(** The string's code points in order: a surrogate pair is copied, a lone
    surrogate is written as an escape. *)
Fixpoint quoteBody (s : jsstring) : jsstring :=
  match s with
  | [] => []
  | c :: s' =>
      if isHighSurrogate c then
        match s' with
        | d :: s'' =>
            if isLowSurrogate d then c :: d :: quoteBody s''
            else hex4 c ++ quoteBody s'
        | [] => hex4 c ++ quoteBody s'
        end
      else if isLowSurrogate c then hex4 c ++ quoteBody s'
      else escapeUnit c ++ quoteBody s'
  end.

Definition quote (s : jsstring) : jsstring := 34 :: quoteBody s ++ [34].

Fixpoint joinComma (parts : list jsstring) : jsstring :=
  match parts with
  | [] => []
  | [p] => p
  | p :: rest => p ++ 44 :: joinComma rest
  end.

(** [JSON.stringify(v)] with no indentation. *)
Fixpoint stringify (v : value) : jsstring :=
  match v with
  | JNull => js "null"
  | JBool true => js "true"
  | JBool false => js "false"
  | JNumber lexeme => lexeme
  | JString s => quote s
  | JArray items => 91 :: joinComma (List.map stringify items) ++ [93]
  | JObject props =>
      123 :: joinComma
               (List.map (fun kv => match kv with
                                    | (k, x) => quote k ++ 58 :: stringify x
                                    end) props)
          ++ [125]
  end.

(** ** JSON.parse *)

(** JSON white space: TAB, LF, CR, SP. *)
Definition isJsonWs (c : code_unit) : bool :=
  unit_eqb c 9 || unit_eqb c 10 || unit_eqb c 13 || unit_eqb c 32.

Definition skipWs (s : jsstring) : jsstring := dropWhile isJsonWs s.

Definition hexValue (c : code_unit) : option N :=
  if in_range 48 57 c then Some (c - 48)
  else if in_range 97 102 c then Some (c - 87)
  else if in_range 65 70 c then Some (c - 55)
  else None.

(** The character a one-letter escape stands for. *)
Definition unescape (e : code_unit) : option code_unit :=
  if unit_eqb e 34 then Some 34
  else if unit_eqb e 92 then Some 92
  else if unit_eqb e 47 then Some 47
  else if unit_eqb e 98 then Some 8
  else if unit_eqb e 102 then Some 12
  else if unit_eqb e 110 then Some 10
  else if unit_eqb e 114 then Some 13
  else if unit_eqb e 116 then Some 9
  else None.

Definition consFst (c : code_unit) (r : option (jsstring * jsstring)) :=
  match r with
  | Some (s, rest) => Some (c :: s, rest)
  | None => None
  end.

(** The characters of a string after its opening quote, up to the closing
    one: the string, and the input after the closing quote. *)
Fixpoint parseChars (s : jsstring) : option (jsstring * jsstring) :=
  match s with
  | [] => None
  | c :: r =>
      if unit_eqb c 34 then Some ([], r)
      else if unit_eqb c 92 then
        match r with
        | [] => None
        | e :: r1 =>
            if unit_eqb e 117 then
              match r1 with
              | h1 :: h2 :: h3 :: h4 :: r2 =>
                  match hexValue h1, hexValue h2, hexValue h3, hexValue h4 with
                  | Some a, Some b, Some c', Some d =>
                      consFst (4096 * a + 256 * b + 16 * c' + d) (parseChars r2)
                  | _, _, _, _ => None
                  end
              | _ => None
              end
            else
              match unescape e with
              | Some u => consFst u (parseChars r1)
              | None => None
              end
        end
      else if c <? 32 then None
      else consFst c (parseChars r)
  end.

(** The digits at the start of [s], and the rest. *)
Fixpoint spanDigits (s : jsstring) : jsstring * jsstring :=
  match s with
  | [] => ([], [])
  | c :: r =>
      if isDigit c then let '(ds, rest) := spanDigits r in (c :: ds, rest)
      else ([], s)
  end.

(** The parts of a number, each with the input left after it: an optional
    minus sign; then 0, or a digit from 1 to 9 and any digits; then
    optionally a point and at least one digit; then optionally e or E, an
    optional sign and at least one digit. *)
Definition lexSign (s : jsstring) : jsstring * jsstring :=
  match s with
  | c :: r => if unit_eqb c 45 then ([c], r) else ([], s)
  | [] => ([], s)
  end.

Definition lexInt (s : jsstring) : option (jsstring * jsstring) :=
  match s with
  | c :: r =>
      if unit_eqb c 48 then Some ([c], r)
      else if in_range 49 57 c
      then let '(ds, rest) := spanDigits r in Some (c :: ds, rest)
      else None
  | [] => None
  end.

Definition lexFrac (s : jsstring) : option (jsstring * jsstring) :=
  match s with
  | c :: r =>
      if unit_eqb c 46 then
        match spanDigits r with
        | ([], _) => None
        | (ds, rest) => Some (c :: ds, rest)
        end
      else Some ([], s)
  | [] => Some ([], s)
  end.

Definition lexExp (s : jsstring) : option (jsstring * jsstring) :=
  match s with
  | c :: r =>
      if unit_eqb c 101 || unit_eqb c 69 then
        let '(esign, r') :=
          match r with
          | d :: r0 =>
              if unit_eqb d 43 || unit_eqb d 45 then ([d], r0) else ([], r)
          | [] => ([], r)
          end in
        match spanDigits r' with
        | ([], _) => None
        | (ds, rest) => Some (c :: esign ++ ds, rest)
        end
      else Some ([], s)
  | [] => Some ([], s)
  end.

(** A number: its text, and the rest of the input. *)
Definition lexNumber (s : jsstring) : option (jsstring * jsstring) :=
  let '(sign, s1) := lexSign s in
  match lexInt s1 with
  | None => None
  | Some (ipart, s2) =>
      match lexFrac s2 with
      | None => None
      | Some (fpart, s3) =>
          match lexExp s3 with
          | None => None
          | Some (epart, s4) => Some (sign ++ ipart ++ fpart ++ epart, s4)
          end
      end
  end.

(** A literal name ([null], [true], [false]) at the start of the input. *)
Definition literal (name : jsstring) (v : value) (s : jsstring)
  : option (value * jsstring) :=
  match stripPrefix name s with
  | Some rest => Some (v, rest)
  | None => None
  end.

(** The recursive descent, on a budget of nested calls. Every call consumes
    input before it recurses, so a budget of twice the length of the input
    and two more never runs out (shown below); [None] is a SyntaxError.
    [parseElements] reads the values of an array, separated by
    commas, up to its closing bracket; [parseMembers] reads the members of an
    object (a string, a colon, a value), separated by commas, up to its
    closing brace. *)
Fixpoint parseValue (fuel : nat) (s : jsstring)
  : option (value * jsstring) :=
  match fuel with
  | O => None
  | S fuel' =>
      match skipWs s with
      | [] => None
      | c :: r =>
          if unit_eqb c 34 then
            match parseChars r with
            | Some (str, rest) => Some (JString str, rest)
            | None => None
            end
          else if unit_eqb c 91 then
            match skipWs r with
            | d :: r' =>
                if unit_eqb d 93 then Some (JArray [], r')
                else
                  match parseElements fuel' r with
                  | Some (items, rest) => Some (JArray items, rest)
                  | None => None
                  end
            | [] => None
            end
          else if unit_eqb c 123 then
            match skipWs r with
            | d :: r' =>
                if unit_eqb d 125 then Some (JObject [], r')
                else
                  match parseMembers fuel' r with
                  | Some (members, rest) => Some (mkObject members, rest)
                  | None => None
                  end
            | [] => None
            end
          else if unit_eqb c 110 then literal (js "null") JNull (c :: r)
          else if unit_eqb c 116 then literal (js "true") (JBool true) (c :: r)
          else if unit_eqb c 102 then literal (js "false") (JBool false) (c :: r)
          else
            match lexNumber (c :: r) with
            | Some (lexeme, rest) => Some (JNumber lexeme, rest)
            | None => None
            end
      end
  end
with parseElements (fuel : nat) (s : jsstring)
  : option (list value * jsstring) :=
  match fuel with
  | O => None
  | S fuel' =>
      match parseValue fuel' s with
      | None => None
      | Some (v, rest) =>
          match skipWs rest with
          | c :: r =>
              if unit_eqb c 93 then Some ([v], r)
              else if unit_eqb c 44 then
                match parseElements fuel' r with
                | Some (vs, rest') => Some (v :: vs, rest')
                | None => None
                end
              else None
          | [] => None
          end
      end
  end
with parseMembers (fuel : nat) (s : jsstring)
  : option (list (jsstring * value) * jsstring) :=
  match fuel with
  | O => None
  | S fuel' =>
      match skipWs s with
      | q :: r0 =>
          if unit_eqb q 34 then
            match parseChars r0 with
            | None => None
            | Some (k, r1) =>
                match skipWs r1 with
                | colon :: r2 =>
                    if unit_eqb colon 58 then
                      match parseValue fuel' r2 with
                      | None => None
                      | Some (v, rest) =>
                          match skipWs rest with
                          | c :: r =>
                              if unit_eqb c 125 then Some ([(k, v)], r)
                              else if unit_eqb c 44 then
                                match parseMembers fuel' r with
                                | Some (ms, rest') => Some ((k, v) :: ms, rest')
                                | None => None
                                end
                              else None
                          | [] => None
                          end
                      end
                    else None
                | [] => None
                end
            end
          else None
      | [] => None
      end
  end.

(** [JSON.parse(text)]: one value, white space around it, nothing else. *)
Definition parse (text : jsstring) : option value :=
  match parseValue (2 * List.length text + 2) text with
  | Some (v, rest) =>
      match skipWs rest with
      | [] => Some v
      | _ :: _ => None
      end
  | None => None
  end.

End Json.

(* ------------------------------------------------------------------------ *)
(** * App.jsx *)

Module App.

(** ** The library handlers *)

(** [setVideoLibrary((prev) => [...prev, newVideo])] *)
Definition handleAddVideo (prev : Library) (newVideo : VideoEntry) : Library :=
  prev ++ [newVideo].

(** [setVideoLibrary((prev) => prev.filter((v) => v.id !== videoId))] *)
Definition handleRemoveVideo (prev : Library) (videoId : jsstring) : Library :=
  filter (fun v => negb (jseqb (id v) videoId)) prev.

(** The settings panel is rendered with [videos={videoLibrary}] and
    [onAddVideo={handleAddVideo}]: submitting its add form runs the panel's
    handler against the current library and, when the panel accepts, the
    handler above. *)
Definition submitAddForm (lib : Library) (st : SettingsPanel.FormState)
  : SettingsPanel.FormState * Library :=
  match SettingsPanel.handleAddVideo lib st with
  | (st', Some newVideo) => (st', handleAddVideo lib newVideo)
  | (st', None) => (st', lib)
  end.

(** ** Persistence *)

(** A library as the value the host holds: an array of objects with the four
    keys in the order the code writes them. *)
Definition entryValue (v : VideoEntry) : Json.value :=
  Json.JObject
    [ (js "id", Json.JString (id v));
      (js "title", Json.JString (title v));
      (js "emoji", Json.JString (emoji v));
      (js "color", Json.JString (color v)) ].

Definition libraryValue (lib : Library) : Json.value :=
  Json.JArray (List.map entryValue lib).

(** The content of the storage key ['kidsVideoLibrary']: [None] is [null]. *)
Definition Storage := option jsstring.

(** The [useEffect] that saves the library:
    [localStorage.setItem('kidsVideoLibrary', JSON.stringify(videoLibrary))]. *)
Definition saveLibrary (videoLibrary : Json.value) : Storage :=
  Some (Json.stringify videoLibrary).

Section Startup.

(** [import videos from './data/videos.json']: the compiled-in default
    library, whatever entries that file holds. *)
Variable videos : Library.

(** The initializer of the [videoLibrary] state. [if (saved)] fails for
    [null] and for the empty string; a [JSON.parse] that throws is caught. *)
Definition initialVideoLibrary (saved : Storage) : Json.value :=
  match saved with
  | None => libraryValue videos
  | Some [] => libraryValue videos
  | Some text =>
      match Json.parse text with
      | Some v => v
      | None => libraryValue videos
      end
  end.

(** [handleResetVideos] *)
Definition handleResetVideos : Library := videos.

End Startup.

(** ** The gate, its timers and the views *)

Inductive View := Grid | Player | Settings.

(** The two callbacks the gate is given. *)
Inductive GateSignal := Success | Cancel.

(** A pending timer of the host: the one-shot [setTimeout(onCancel, 1500)] of
    [handleSubmit], or the [setInterval] of a [HoldButton] with the
    [elapsed] of its closure and the gate activation that created it. *)
Inductive TimerKind :=
| CancelTimeout
| HoldInterval (owner : nat) (elapsed : Z).

Record Timer := mkTimer {
  tid : nat;
  due : Z;
  kind : TimerKind
}.

(** The state of the page. [gate] is the mounted [ParentalGate] (there is one
    exactly while [showParentalGate] is set): the number of its activation
    and its form state. [holds] keeps the [HoldButton] cells of every
    activation so far, by number: a callback created by an activation that
    is gone still reads its [intervalRef]. [log] records every call of
    [handleParentalGateSuccess] and [handleParentalGateCancel] with its time. *)
Record World := mkWorld {
  now : Z;
  currentView : View;
  selectedVideo : option VideoEntry;
  gate : option (nat * ParentalGate.State);
  holds : list HoldButton.State;
  timers : list Timer;
  nextTimerId : nat;
  log : list (Z * GateSignal)
}.

(** Timer ids are positive, so [if (intervalRef.current)] tests for an id. *)
Definition initialWorld : World :=
  mkWorld 0 Grid None None [] [] 1 [].

Definition showParentalGate (w : World) : bool :=
  match gate w with Some _ => true | None => false end.

Definition setNow (t : Z) (w : World) : World :=
  mkWorld t (currentView w) (selectedVideo w) (gate w) (holds w) (timers w)
          (nextTimerId w) (log w).
Definition setView (v : View) (sel : option VideoEntry) (w : World) : World :=
  mkWorld (now w) v sel (gate w) (holds w) (timers w) (nextTimerId w) (log w).
Definition setGate (g : option (nat * ParentalGate.State)) (w : World) : World :=
  mkWorld (now w) (currentView w) (selectedVideo w) g (holds w) (timers w)
          (nextTimerId w) (log w).
Definition setHolds (hs : list HoldButton.State) (w : World) : World :=
  mkWorld (now w) (currentView w) (selectedVideo w) (gate w) hs (timers w)
          (nextTimerId w) (log w).
Definition setTimers (ts : list Timer) (w : World) : World :=
  mkWorld (now w) (currentView w) (selectedVideo w) (gate w) (holds w) ts
          (nextTimerId w) (log w).
Definition addLog (s : GateSignal) (w : World) : World :=
  mkWorld (now w) (currentView w) (selectedVideo w) (gate w) (holds w)
          (timers w) (nextTimerId w) (log w ++ [(now w, s)]).

(** [setTimeout] and [setInterval]: a new timer, due [delay] from now. *)
Definition addTimer (delay : Z) (k : TimerKind) (w : World) : World :=
  mkWorld (now w) (currentView w) (selectedVideo w) (gate w) (holds w)
          (timers w ++ [mkTimer (nextTimerId w) (now w + delay) k])
          (S (nextTimerId w)) (log w).

(** [clearTimeout] and [clearInterval]; [None] is a call that is skipped. *)
Definition clearTimer (i : option nat) (w : World) : World :=
  match i with
  | Some n => setTimers (filter (fun t => negb (Nat.eqb (tid t) n)) (timers w)) w
  | None => w
  end.

Definition holdOf (i : nat) (w : World) : HoldButton.State :=
  nth i (holds w) HoldButton.init.

Fixpoint replaceNth {A} (i : nat) (x : A) (l : list A) : list A :=
  match l, i with
  | [], _ => []
  | _ :: l', O => x :: l'
  | y :: l', S i' => y :: replaceNth i' x l'
  end.

Definition setHold (i : nat) (h : HoldButton.State) (w : World) : World :=
  setHolds (replaceNth i h (holds w)) w.

(** [setShowParentalGate(true)]: a gate that is not shown is mounted, with a
    problem built from three fresh draws and a new [HoldButton]. *)
Definition openGate (r0 r1 r2 : Q) (w : World) : World :=
  match gate w with
  | Some _ => w
  | None =>
      let n := List.length (holds w) in
      setGate (Some (n, ParentalGate.init (ParentalGate.mathProblem r0 r1 r2)))
              (setHolds (holds w ++ [HoldButton.init]) w)
  end.

(** [setShowParentalGate(false)]: the gate is unmounted, which runs the
    cleanup of its [HoldButton] and nothing else. *)
Definition closeGate (w : World) : World :=
  match gate w with
  | Some (n, _) => setGate None (clearTimer (HoldButton.cleanup (holdOf n w)) w)
  | None => w
  end.

Definition handleParentalGateSuccess (w : World) : World :=
  let w := closeGate (addLog Success w) in
  setView Settings (selectedVideo w) w.

Definition handleParentalGateCancel (w : World) : World :=
  closeGate (addLog Cancel w).

(** One effect of [handleSubmit], carried out by the page. *)
Definition perform (w : World) (e : ParentalGate.Effect) : World :=
  match e with
  | ParentalGate.CallOnSuccess => handleParentalGateSuccess w
  | ParentalGate.SetTimeoutOnCancel delay => addTimer delay CancelTimeout w
  end.

(** What the user does. *)
Inductive Event :=
| SettingsClick (r0 r1 r2 : Q)   (* the gear of the grid; the draws of the new gate *)
| VideoSelect (v : VideoEntry)
| Back
| SettingsClose
| InputChange (value : jsstring)
| Submit
| CancelClick
| HoldStart                      (* mousedown, touchstart on the hold button *)
| HoldStop                       (* mouseup, mouseleave, touchend, touchcancel *)
| Wait.                          (* nothing: time passes *)

(** An event reaches the handler of the element it belongs to when that
    element is rendered, and nothing otherwise. *)
Definition handle (w : World) (e : Event) : World :=
  match e with
  | SettingsClick r0 r1 r2 =>
      match currentView w with
      | Grid => openGate r0 r1 r2 w
      | _ => w
      end
  | VideoSelect v =>
      match currentView w with
      | Grid => setView Player (Some v) w
      | _ => w
      end
  | Back =>
      match currentView w, selectedVideo w with
      | Player, Some _ => setView Grid None w
      | _, _ => w
      end
  | SettingsClose =>
      match currentView w with
      | Settings => setView Grid (selectedVideo w) w
      | _ => w
      end
  | InputChange value =>
      match gate w with
      | Some (n, st) =>
          setGate (Some (n, ParentalGate.handleInputChange value st)) w
      | None => w
      end
  | Submit =>
      match gate w with
      | Some (n, st) =>
          let '(st', effects) := ParentalGate.handleSubmit st in
          fold_left perform effects (setGate (Some (n, st')) w)
      | None => w
      end
  | CancelClick =>
      match gate w with
      | Some _ => handleParentalGateCancel w
      | None => w
      end
  | HoldStart =>
      match gate w with
      | Some (n, _) =>
          let newId := nextTimerId w in
          setHold n (HoldButton.startHold newId (holdOf n w))
                  (addTimer HoldButton.UPDATE_INTERVAL (HoldInterval n 0) w)
      | None => w
      end
  | HoldStop =>
      match gate w with
      | Some (n, _) =>
          let '(h, cleared) := HoldButton.stopHold (holdOf n w) in
          clearTimer cleared (setHold n h w)
      | None => w
      end
  | Wait => w
  end.

Definition isMounted (owner : nat) (w : World) : bool :=
  match gate w with
  | Some (n, _) => Nat.eqb n owner
  | None => false
  end.

(** A timer fires. The timeout is spent and calls [onCancel]. The interval
    stays armed, 50 ms later, and runs its callback: [setProgress] reaches the
    button only while it is mounted; at completion the callback clears the
    interval its button's [intervalRef] names, then calls [onComplete]. *)
Definition fire (w : World) (t : Timer) : World :=
  match kind t with
  | CancelTimeout => handleParentalGateCancel (clearTimer (Some (tid t)) w)
  | HoldInterval owner elapsed =>
      let '(elapsed', p, completed) := HoldButton.tick elapsed in
      let rearmed :=
        mkTimer (tid t) (due t + HoldButton.UPDATE_INTERVAL)
                (HoldInterval owner elapsed') in
      let w1 :=
        setTimers (List.map (fun u => if Nat.eqb (tid u) (tid t) then rearmed else u)
                            (timers w)) w in
      let h := holdOf owner w1 in
      let w2 :=
        if isMounted owner w1
        then setHold owner (HoldButton.mkState p (HoldButton.isHolding h)
                                               (HoldButton.intervalRef h)) w1
        else w1 in
      if completed
      then handleParentalGateSuccess (clearTimer (HoldButton.intervalRef h) w2)
      else w2
  end.

(** The pending timer that fires next, if one is due by [t]: the earliest,
    and among equals the one created first. *)
Fixpoint earliest (ts : list Timer) : option Timer :=
  match ts with
  | [] => None
  | u :: rest =>
      match earliest rest with
      | Some v => if (due v <? due u)%Z then Some v else Some u
      | None => Some u
      end
  end.

Definition nextDue (w : World) (t : Z) : option Timer :=
  match earliest (timers w) with
  | Some u => if (due u <=? t)%Z then Some u else None
  | None => None
  end.

(** Timers fire on time, in order, until none is due by [t]. Each pending
    timer fires at most once per 50 ms, which bounds the number of rounds. *)
Fixpoint runTimers (rounds : nat) (w : World) (t : Z) : World :=
  match rounds with
  | O => w
  | S rounds' =>
      match nextDue w t with
      | Some u => runTimers rounds' (fire (setNow (Z.max (now w) (due u)) w) u) t
      | None => w
      end
  end.

Definition advanceTo (t : Z) (w : World) : World :=
  let rounds :=
    (List.length (timers w) * S (Z.to_nat ((t - now w) / 50)))%nat in
  setNow (Z.max t (now w)) (runTimers rounds w t).

(** An event at time [t]: the timers due by then have fired. *)
Definition deliver (w : World) (te : Z * Event) : World :=
  handle (advanceTo (fst te) w) (snd te).

Definition run (w : World) (trace : list (Z * Event)) : World :=
  fold_left deliver trace w.

End App.

(* ------------------------------------------------------------------------ *)
(** * File names of the local videos *)

(** The two [replace] calls that both the player and the download script
    apply to a title. *)
Module TitleText.

Local Open Scope N_scope.

(** [s.replace(/[...]/g, '')]: every unit of the class is dropped. *)
Definition removeAll (class : code_unit -> bool) (s : jsstring) : jsstring :=
  filter (fun c => negb (class c)) s.

(** [s.replace(/\s+/g, ' ')]: every maximal run of white space becomes one
    space. [inRun] says that the unit before was white space, already
    replaced. *)
Fixpoint collapseFrom (inRun : bool) (s : jsstring) : jsstring :=
  match s with
  | [] => []
  | c :: s' =>
      if isWhiteSpace c
      then if inRun then collapseFrom true s' else 32 :: collapseFrom true s'
      else c :: collapseFrom false s'
  end.

Definition collapseSpaces (s : jsstring) : jsstring := collapseFrom false s.

End TitleText.

(** [getLocalVideoPath] of VideoPlayer.jsx. *)
Module LocalVideo.

Local Open Scope N_scope.

(** The class of the first replace: < > : the double quote / \ | ? * *)
Definition isIllegal (c : code_unit) : bool :=
  unit_eqb c 60 || unit_eqb c 62 || unit_eqb c 58 || unit_eqb c 34
  || unit_eqb c 47 || unit_eqb c 92 || unit_eqb c 124 || unit_eqb c 63
  || unit_eqb c 42.

Definition safeTitle (title : jsstring) : jsstring :=
  trim (TitleText.collapseSpaces (TitleText.removeAll isIllegal title)).

Definition basePath : jsstring := js "/sandboxView/videos/".

Definition getLocalVideoPath (video : VideoEntry) : jsstring :=
  basePath ++ safeTitle (title video) ++ js ".mp4".

End LocalVideo.

(* ------------------------------------------------------------------------ *)
(** * download-videos.js *)

Module DownloadVideos.

Local Open Scope N_scope.

(** [allVideos.slice(0, 6)] *)
Definition videos (allVideos : Library) : Library := firstn 6 allVideos.

(** The class of the script's own first replace. *)
Definition isSpecial (c : code_unit) : bool :=
  unit_eqb c 60 || unit_eqb c 62 || unit_eqb c 58 || unit_eqb c 34
  || unit_eqb c 47 || unit_eqb c 92 || unit_eqb c 124 || unit_eqb c 63
  || unit_eqb c 42.

Definition safeTitle (title : jsstring) : jsstring :=
  trim (TitleText.collapseSpaces (TitleText.removeAll isSpecial title)).

Definition url (video : VideoEntry) : jsstring :=
  js "https://www.youtube.com/watch?v=" ++ id video.

(** The template given to [-o], under the output directory. *)
Definition outputName (video : VideoEntry) : jsstring :=
  safeTitle (title video) ++ js ".%(ext)s".

(** How the spawned process ends: its [close] event with the exit code
    ([None] for [null]), or its [error] event with a message. *)
Inductive ProcessEnd :=
| Close (code : option Z)
| Failed (message : jsstring).

(** What the promise of [downloadVideo] resolves to. *)
Record Result := mkResult {
  success : bool;
  video : VideoEntry;
  error : option jsstring
}.

Definition codeText (code : option Z) : jsstring :=
  match code with
  | Some n => toString n
  | None => js "null"
  end.

(** [code === 0] *)
Definition isZero (code : option Z) : bool :=
  match code with
  | Some n => Z.eqb n 0
  | None => false
  end.

Definition downloadVideo (ending : ProcessEnd) (v : VideoEntry) : Result :=
  match ending with
  | Close code =>
      if isZero code then mkResult true v None
      else mkResult false v (Some (js "Exit code: " ++ codeText code))
  | Failed message => mkResult false v (Some message)
  end.

(** The loop of [main]: the videos in order, each with the end of its own
    process. *)
Fixpoint downloadAll (endings : nat -> ProcessEnd) (i : nat) (vs : Library)
  : list Result :=
  match vs with
  | [] => []
  | v :: vs' => downloadVideo (endings i) v :: downloadAll endings (S i) vs'
  end.

(** The summary of [main]: [None] is [process.exit(1)] when the downloader
    is not installed; otherwise the results and the two lists it counts. *)
Record Summary := mkSummary {
  results : list Result;
  successful : list Result;
  failed : list Result
}.

Definition main (installed : bool) (allVideos : Library)
                (endings : nat -> ProcessEnd) : option Summary :=
  if installed then
    let results := downloadAll endings 0 (videos allVideos) in
    Some (mkSummary results
                    (filter success results)
                    (filter (fun r => negb (success r)) results))
  else None.

End DownloadVideos.

(* ------------------------------------------------------------------------ *)
(** * The settings panel on the page *)

Module Panel.

(** What a parent does in the settings panel: submit the add form as it is
    filled in, press the bin of an entry, or reset to the defaults. *)
Inductive Action :=
| SubmitForm (st : SettingsPanel.FormState)
| Remove (videoId : jsstring)
| Reset.

Section Defaults.

Variable videos : Library.

Definition apply (lib : Library) (a : Action) : Library :=
  match a with
  | SubmitForm st => snd (App.submitAddForm lib st)
  | Remove videoId => App.handleRemoveVideo lib videoId
  | Reset => App.handleResetVideos videos
  end.

Definition applyAll (lib : Library) (actions : list Action) : Library :=
  fold_left apply actions lib.

End Defaults.

End Panel.

(* ======================================================================== *)
(** * Properties *)

(** Replaces a literal of the source by its code units. *)
Ltac eval_js :=
  repeat match goal with
         | |- context [js ?lit] =>
             let l := eval vm_compute in (js lit) in
             change (js lit) with l
         end.

(* ------------------------------------------------------------------------ *)
(** ** Identifiers of videos *)

Section VideoIds.

(** An identifier as the spec wants it: exactly 11 units of [a-zA-Z0-9_-]. *)
Definition wellFormedId (v : jsstring) : Prop :=
  List.length v = 11%nat /\ forallb isIdChar v = true.

Lemma takeIdChars_some (n : nat) :
  forall s r, takeIdChars n s = Some r ->
    List.length r = n /\ forallb isIdChar r = true /\ r = firstn n s.
Proof.
  induction n as [|n IH]; intros s r H; simpl in H.
  - inversion H; subst. now repeat split.
  - destruct s as [|c s']; [discriminate|].
    destruct (isIdChar c) eqn:Hc; [|discriminate].
    destruct (takeIdChars n s') as [r'|] eqn:Hr; [|discriminate].
    inversion H; subst. destruct (IH _ _ Hr) as (Hl & Hall & Hfirst).
    simpl. rewrite Hc, Hl, Hall. repeat split. now rewrite <- Hfirst.
Qed.

Lemma takeIdChars_all (s : jsstring) :
  forallb isIdChar s = true ->
  forall rest, takeIdChars (List.length s) (s ++ rest) = Some s.
Proof.
  induction s as [|c s IH]; intros Hall rest; simpl in *.
  - reflexivity.
  - apply andb_true_iff in Hall as [Hc Hs]. now rewrite Hc, IH.
Qed.

Lemma isBareId_wellFormed (s : jsstring) :
  isBareId s = true <-> wellFormedId s.
Proof.
  unfold isBareId, wellFormedId. split.
  - destruct (takeIdChars 11 s) as [r|] eqn:Hr; [|discriminate].
    intros Hlen. apply Nat.eqb_eq in Hlen.
    destruct (takeIdChars_some _ _ Hr) as (_ & Hall & Hfirst).
    rewrite <- Hlen, firstn_all in Hfirst. subst r. now split.
  - intros [Hlen Hall].
    pose proof (takeIdChars_all s Hall []) as H.
    rewrite app_nil_r, Hlen in H. rewrite H. now apply Nat.eqb_eq.
Qed.

Lemma matchHere_wellFormed (lit s g : jsstring) :
  matchHere lit s = Some g -> wellFormedId g.
Proof.
  unfold matchHere. destruct (stripPrefix lit s) as [rest|]; [|discriminate].
  intros H. destruct (takeIdChars_some _ _ H) as (Hl & Hall & _). now split.
Qed.

Lemma matchGroup1_wellFormed (lit : jsstring) :
  forall s g, matchGroup1 lit s = Some g -> wellFormedId g.
Proof.
  induction s as [|c s IH]; intros g H; simpl in H.
  - destruct (matchHere lit []) eqn:Hm; [|discriminate].
    inversion H; subst. eapply matchHere_wellFormed; eauto.
  - destruct (matchHere lit (c :: s)) eqn:Hm.
    + inversion H; subst. eapply matchHere_wellFormed; eauto.
    + now apply IH.
Qed.

Lemma firstMatch_wellFormed (ps : list jsstring) :
  forall input g, SettingsPanel.firstMatch ps input = Some g -> wellFormedId g.
Proof.
  induction ps as [|p ps IH]; intros input g H; simpl in H; [discriminate|].
  destruct (matchGroup1 p input) eqn:Hm.
  - inversion H; subst. eapply matchGroup1_wellFormed; eauto.
  - eapply IH; eauto.
Qed.

Lemma extractVideoId_some (input g : jsstring) :
  SettingsPanel.extractVideoId input = Some g -> wellFormedId g.
Proof.
  unfold SettingsPanel.extractVideoId.
  destruct (isBareId input) eqn:Hb; intros H.
  - inversion H; subst. now apply isBareId_wellFormed.
  - eapply firstMatch_wellFormed; eauto.
Qed.

Lemma handleAddVideo_accepts (videos : Library) (st st' : SettingsPanel.FormState)
      (v : VideoEntry) :
  SettingsPanel.handleAddVideo videos st = (st', Some v) ->
  SettingsPanel.extractVideoId (trim (SettingsPanel.newVideoId st)) = Some (id v)
  /\ title v = trim (SettingsPanel.newVideoTitle st)
  /\ title v <> []
  /\ SettingsPanel.hasId videos (id v) = false.
Proof.
  unfold SettingsPanel.handleAddVideo. cbn [SettingsPanel.setError
    SettingsPanel.newVideoId SettingsPanel.newVideoTitle].
  destruct (SettingsPanel.extractVideoId (trim (SettingsPanel.newVideoId st)))
    as [[|c vid]|] eqn:He; try discriminate.
  destruct (trim (SettingsPanel.newVideoTitle st)) as [|t0 ts] eqn:Ht;
    [discriminate|].
  destruct (SettingsPanel.hasId videos (c :: vid)) eqn:Hh; [discriminate|].
  intros H. inversion H; subst; cbn. repeat split; auto. discriminate.
Qed.

(** C10. [extractVideoId] returns null or a string of exactly 11 characters,
    each a letter, a digit, an underscore or a hyphen; so every entry the add
    form hands to [onAddVideo] carries such an id. *)
Theorem extractVideoId_null_or_wellformed :
  (forall input,
     match SettingsPanel.extractVideoId input with
     | None => True
     | Some v => List.length v = 11%nat /\ forallb isIdChar v = true
     end)
  /\ (forall videos st st' v,
        SettingsPanel.handleAddVideo videos st = (st', Some v) ->
        List.length (id v) = 11%nat /\ forallb isIdChar (id v) = true).
Proof.
  split.
  - intros input.
    destruct (SettingsPanel.extractVideoId input) as [v|] eqn:He; [|exact I].
    exact (extractVideoId_some _ He).
  - intros videos st st' v H.
    destruct (handleAddVideo_accepts _ _ H) as (He & _).
    exact (extractVideoId_some _ He).
Qed.

End VideoIds.

(** A filled-in add form, and the entry it yields on an empty library. *)
Definition sampleForm : SettingsPanel.FormState :=
  SettingsPanel.mkForm true (js " https://youtu.be/dQw4w9WgXcQ ")
    (js "Fun Dance Song") (js "*") (js "#FF6B6B") [].

Definition sampleEntry : VideoEntry :=
  mkVideo (js "dQw4w9WgXcQ") (js "Fun Dance Song") (js "*") (js "#FF6B6B").

Lemma extractVideoId_null_or_wellformed_witness :
  SettingsPanel.handleAddVideo [] sampleForm
  = (SettingsPanel.mkForm false [] [] (js "*") (js "#FF6B6B") [],
     Some sampleEntry)
  /\ List.length (id sampleEntry) = 11%nat
  /\ forallb isIdChar (id sampleEntry) = true.
Proof.
  split.
  - vm_compute. reflexivity.
  - apply (proj2 extractVideoId_null_or_wellformed [] sampleForm
             (SettingsPanel.mkForm false [] [] (js "*") (js "#FF6B6B") [])
             sampleEntry).
    vm_compute. reflexivity.
Defined.

(* ------------------------------------------------------------------------ *)
(** ** Adding a video *)

Section AddVideo.

Lemma stripPrefix_length (lit : jsstring) :
  forall s rest, stripPrefix lit s = Some rest ->
    List.length s = (List.length lit + List.length rest)%nat.
Proof.
  induction lit as [|a lit IH]; intros s rest H; simpl in H.
  - now inversion H.
  - destruct s as [|b s]; [discriminate|].
    destruct (unit_eqb a b); [|discriminate].
    simpl. now rewrite (IH _ _ H).
Qed.

Lemma takeIdChars_length (n : nat) :
  forall s r, takeIdChars n s = Some r -> (n <= List.length s)%nat.
Proof.
  induction n as [|n IH]; intros s r H; simpl in *; [lia|].
  destruct s as [|c s]; [discriminate|].
  destruct (isIdChar c); [|discriminate].
  destruct (takeIdChars n s) eqn:Hr; [|discriminate].
  simpl. apply IH in Hr. lia.
Qed.

(** The pattern needs its literal and eleven more units. *)
Lemma matchHere_short (lit s : jsstring) :
  (List.length s < List.length lit + 11)%nat -> matchHere lit s = None.
Proof.
  intros Hlen. unfold matchHere.
  destruct (stripPrefix lit s) as [rest|] eqn:Hp; [|reflexivity].
  apply stripPrefix_length in Hp.
  destruct (takeIdChars 11 rest) eqn:Ht; [|reflexivity].
  apply takeIdChars_length in Ht. lia.
Qed.

Lemma matchGroup1_short (lit : jsstring) :
  forall s, (List.length s < List.length lit + 11)%nat ->
    matchGroup1 lit s = None.
Proof.
  induction s as [|c s IH]; intros Hlen; simpl matchGroup1;
    rewrite (matchHere_short _ _ Hlen); [reflexivity|].
  apply IH. simpl in Hlen. lia.
Qed.

Lemma matchGroup1_skip (lit : jsstring) (c : code_unit) (s : jsstring) :
  matchHere lit (c :: s) = None ->
  matchGroup1 lit (c :: s) = matchGroup1 lit s.
Proof. intros H. simpl. now rewrite H. Qed.

Lemma matchGroup1_here (lit s g : jsstring) :
  matchHere lit s = Some g -> matchGroup1 lit s = Some g.
Proof. intros H. destruct s; simpl; now rewrite H. Qed.

Lemma stripPrefix_app (lit rest : jsstring) :
  stripPrefix lit (lit ++ rest) = Some rest.
Proof.
  induction lit as [|a lit IH]; simpl; [reflexivity|].
  unfold unit_eqb. now rewrite N.eqb_refl.
Qed.

Lemma matchHere_app (lit i : jsstring) :
  wellFormedId i -> matchHere lit (lit ++ i) = Some i.
Proof.
  intros [Hlen Hall]. unfold matchHere. rewrite stripPrefix_app.
  pose proof (takeIdChars_all i Hall []) as H.
  now rewrite app_nil_r, Hlen in H.
Qed.

Lemma isBareId_long (s : jsstring) :
  List.length s <> 11%nat -> isBareId s = false.
Proof.
  intros H. unfold isBareId. destruct (takeIdChars 11 s); [|reflexivity].
  now apply Nat.eqb_neq.
Qed.

(** Skips the positions of a concrete prefix at which the pattern fails. *)
Ltac skip_prefix :=
  repeat (rewrite matchGroup1_skip by reflexivity).

Lemma extract_bare (i : jsstring) :
  wellFormedId i -> SettingsPanel.extractVideoId i = Some i.
Proof.
  intros H. unfold SettingsPanel.extractVideoId.
  now rewrite (proj2 (isBareId_wellFormed i) H).
Qed.

Lemma extract_watch (i : jsstring) :
  wellFormedId i ->
  SettingsPanel.extractVideoId (js "https://www.youtube.com/watch?v=" ++ i)
  = Some i.
Proof.
  intros H. unfold SettingsPanel.extractVideoId.
  rewrite isBareId_long
    by (rewrite length_app; destruct H as [-> _]; vm_compute; discriminate).
  unfold SettingsPanel.patterns, SettingsPanel.firstMatch.
  change (js "https://www.youtube.com/watch?v=")
    with (js "https://www." ++ js "youtube.com/watch?v=").
  rewrite <- app_assoc.
  assert (Hm : matchGroup1 (js "youtube.com/watch?v=")
                 (js "https://www." ++ js "youtube.com/watch?v=" ++ i) = Some i).
  { change (js "https://www.") with [104; 116; 116; 112; 115; 58; 47; 47; 119; 119; 119; 46]%N.
    cbn [app]. skip_prefix.
    apply matchGroup1_here, matchHere_app, H. }
  now rewrite Hm.
Qed.

Lemma extract_short (i : jsstring) :
  wellFormedId i ->
  SettingsPanel.extractVideoId (js "https://youtu.be/" ++ i) = Some i.
Proof.
  intros H. unfold SettingsPanel.extractVideoId.
  assert (Hlen : List.length (js "https://youtu.be/" ++ i) = 28%nat)
    by (rewrite length_app; destruct H as [-> _]; reflexivity).
  rewrite isBareId_long by (rewrite Hlen; discriminate).
  unfold SettingsPanel.patterns, SettingsPanel.firstMatch.
  rewrite (@matchGroup1_short (js "youtube.com/watch?v="))
    by (rewrite Hlen; vm_compute; lia).
  change (js "https://youtu.be/") with (js "https://" ++ js "youtu.be/").
  rewrite <- app_assoc.
  assert (Hm : matchGroup1 (js "youtu.be/")
                 (js "https://" ++ js "youtu.be/" ++ i) = Some i).
  { change (js "https://") with [104; 116; 116; 112; 115; 58; 47; 47]%N.
    cbn [app]. skip_prefix.
    apply matchGroup1_here, matchHere_app, H. }
  now rewrite Hm.
Qed.

Lemma extract_embed (i : jsstring) :
  wellFormedId i ->
  SettingsPanel.extractVideoId (js "https://www.youtube.com/embed/" ++ i)
  = Some i.
Proof.
  intros H. unfold SettingsPanel.extractVideoId.
  rewrite isBareId_long
    by (rewrite length_app; destruct H as [-> _]; vm_compute; discriminate).
  unfold SettingsPanel.patterns, SettingsPanel.firstMatch.
  change (js "https://www.youtube.com/embed/")
    with (js "https://www." ++ js "youtube.com/embed/").
  rewrite <- app_assoc.
  assert (Hi : List.length i = 11%nat) by apply H.
  assert (H1 : matchGroup1 (js "youtube.com/watch?v=")
                 (js "https://www." ++ js "youtube.com/embed/" ++ i) = None).
  { eval_js. cbn [app]. skip_prefix.
    apply matchGroup1_short. rewrite Hi. simpl. lia. }
  assert (H2 : matchGroup1 (js "youtu.be/")
                 (js "https://www." ++ js "youtube.com/embed/" ++ i) = None).
  { eval_js. cbn [app]. skip_prefix.
    apply matchGroup1_short. rewrite Hi. simpl. lia. }
  assert (H3 : matchGroup1 (js "youtube.com/embed/")
                 (js "https://www." ++ js "youtube.com/embed/" ++ i) = Some i).
  { change (js "https://www.") with [104; 116; 116; 112; 115; 58; 47; 47; 119; 119; 119; 46]%N.
    cbn [app]. skip_prefix.
    apply matchGroup1_here, matchHere_app, H. }
  now rewrite H1, H2, H3.
Qed.

Lemma jseqb_eq (s t : jsstring) : jseqb s t = true <-> s = t.
Proof.
  revert t. induction s as [|a s IH]; intros [|b t]; simpl; split;
    try discriminate; try reflexivity.
  - intros H. apply andb_true_iff in H as [Hab Hst].
    apply N.eqb_eq in Hab. apply IH in Hst. now subst.
  - intros H. inversion H; subst. apply andb_true_iff. split.
    + apply N.eqb_refl.
    + now apply IH.
Qed.

Lemma hasId_In (lib : Library) (vid : jsstring) :
  SettingsPanel.hasId lib vid = true <-> In vid (List.map id lib).
Proof.
  unfold SettingsPanel.hasId. rewrite existsb_exists, in_map_iff. split.
  - intros (v & Hin & Heq). apply jseqb_eq in Heq. now exists v.
  - intros (v & Heq & Hin). exists v. split; [assumption|]. now apply jseqb_eq.
Qed.

(** The panel's handler, when the identifier it extracts is in the library. *)
Lemma handleAddVideo_duplicate (lib : Library) (st : SettingsPanel.FormState)
      (vid : jsstring) :
  SettingsPanel.extractVideoId (trim (SettingsPanel.newVideoId st)) = Some vid ->
  SettingsPanel.hasId lib vid = true ->
  exists msg,
    SettingsPanel.handleAddVideo lib st
    = (SettingsPanel.setError msg (SettingsPanel.setError [] st), None)
    /\ (msg = SettingsPanel.errNoTitle \/ msg = SettingsPanel.errDuplicate)
    /\ (trim (SettingsPanel.newVideoTitle st) <> [] ->
        msg = SettingsPanel.errDuplicate).
Proof.
  intros He Hdup.
  pose proof (extractVideoId_some _ He) as [Hlen _].
  unfold SettingsPanel.handleAddVideo.
  cbn [SettingsPanel.setError SettingsPanel.newVideoId
       SettingsPanel.newVideoTitle].
  rewrite He. destruct vid as [|c vid]; [discriminate|].
  destruct (trim (SettingsPanel.newVideoTitle st)) as [|t0 ts].
  - exists SettingsPanel.errNoTitle. repeat split; auto. congruence.
  - rewrite Hdup. exists SettingsPanel.errDuplicate. repeat split; auto.
Qed.

Lemma submitAddForm_ids (lib : Library) (st : SettingsPanel.FormState) :
  NoDup (List.map id lib) ->
  NoDup (List.map id (snd (App.submitAddForm lib st))).
Proof.
  intros Hnd. unfold App.submitAddForm.
  destruct (SettingsPanel.handleAddVideo lib st) as [st' [v|]] eqn:Hh;
    [|assumption].
  destruct (handleAddVideo_accepts _ _ Hh) as (_ & _ & _ & Hfresh).
  cbn [snd]. unfold App.handleAddVideo. rewrite map_app. cbn [List.map].
  apply NoDup_app; [assumption| repeat constructor; intros [] | ].
  intros x Hin [Hx|[]]. subst x.
  apply hasId_In in Hin. congruence.
Qed.

Lemma isIdChar_not_ws (c : code_unit) :
  isIdChar c = true -> isWhiteSpace c = false.
Proof.
  intros H. apply not_true_iff_false. intros Hw.
  unfold isIdChar, isWhiteSpace, in_range, unit_eqb in *.
  repeat rewrite ?orb_true_iff, ?andb_true_iff, ?N.leb_le, ?N.eqb_eq in H.
  repeat rewrite ?orb_true_iff, ?andb_true_iff, ?N.leb_le, ?N.eqb_eq in Hw.
  lia.
Qed.

(** A text that neither starts nor ends with white space is its own trim. *)
Lemma trim_stable (s : jsstring) (c z : code_unit) :
  hd_error s = Some c -> isWhiteSpace c = false ->
  hd_error (rev s) = Some z -> isWhiteSpace z = false ->
  trim s = s.
Proof.
  intros Hc Hcw Hz Hzw. unfold trim, trimStart, trimEnd.
  destruct s as [|c' s]; [discriminate Hc|]. inversion Hc; subst c'.
  cbn [dropWhile]. rewrite Hcw.
  destruct (rev (c :: s)) as [|z' r] eqn:Hr; [discriminate Hz|].
  inversion Hz; subst z'. cbn [dropWhile]. rewrite Hzw.
  now rewrite <- Hr, rev_involutive.
Qed.

Lemma trim_before_id (pre i : jsstring) (c : code_unit) :
  hd_error (pre ++ i) = Some c -> isWhiteSpace c = false ->
  wellFormedId i -> trim (pre ++ i) = pre ++ i.
Proof.
  intros Hc Hcw [Hlen Hall].
  destruct (rev i) as [|z r] eqn:Hr.
  { apply (f_equal (@List.length _)) in Hr. rewrite length_rev, Hlen in Hr.
    discriminate Hr. }
  assert (Hz : isIdChar z = true).
  { rewrite forallb_forall in Hall. apply Hall, in_rev. rewrite Hr. now left. }
  apply (@trim_stable _ c z); auto.
  - now rewrite rev_app_distr, Hr.
  - now apply isIdChar_not_ws.
Qed.

(** The forms in which the add form is given an identifier. *)
Definition idForms (i : jsstring) : list jsstring :=
  [ i;
    js "https://www.youtube.com/watch?v=" ++ i;
    js "https://youtu.be/" ++ i;
    js "https://www.youtube.com/embed/" ++ i ].

Lemma extract_idForms (i text : jsstring) :
  wellFormedId i -> In text (idForms i) ->
  SettingsPanel.extractVideoId (trim text) = Some i.
Proof.
  intros Hi Hin.
  assert (Hhead : exists c, hd_error i = Some c /\ isIdChar c = true).
  { destruct Hi as [Hlen Hall]. destruct i as [|c i]; [discriminate Hlen|].
    exists c. split; [reflexivity|]. cbn [forallb] in Hall.
    now apply andb_true_iff in Hall. }
  destruct Hhead as (c & Hc & Hcid).
  destruct Hin as [<- | [<- | [<- | [<- | []]]]].
  - pose proof (@trim_before_id [] i c Hc (isIdChar_not_ws c Hcid) Hi) as Ht.
    cbn [app] in Ht. rewrite Ht. now apply extract_bare.
  - rewrite (@trim_before_id (js "https://www.youtube.com/watch?v=") i 104%N
               eq_refl eq_refl Hi).
    now apply extract_watch.
  - rewrite (@trim_before_id (js "https://youtu.be/") i 104%N
               eq_refl eq_refl Hi).
    now apply extract_short.
  - rewrite (@trim_before_id (js "https://www.youtube.com/embed/") i 104%N
               eq_refl eq_refl Hi).
    now apply extract_embed.
Qed.

(** C7, as the code has it. The add form rejects an identifier that is
    already in the library and leaves the library as it was, in whichever
    of the four forms it is typed: the bare 11-character form and the
    watch?v=, youtu.be/ and embed/ forms of one identifier all extract that
    identifier. A library with distinct ids keeps them distinct through the
    form. The handler of the App itself appends whatever entry it is given:
    the duplicate check is the form's alone. *)
Theorem addVideo_duplicates_rejected_by_the_form :
  (forall lib st vid,
      SettingsPanel.extractVideoId (trim (SettingsPanel.newVideoId st)) = Some vid ->
      SettingsPanel.hasId lib vid = true ->
      snd (SettingsPanel.handleAddVideo lib st) = None
      /\ snd (App.submitAddForm lib st) = lib
      /\ SettingsPanel.error (fst (App.submitAddForm lib st)) <> [])
  /\ (forall i,
        List.length i = 11%nat -> forallb isIdChar i = true ->
        SettingsPanel.extractVideoId i = Some i
        /\ SettingsPanel.extractVideoId
             (js "https://www.youtube.com/watch?v=" ++ i) = Some i
        /\ SettingsPanel.extractVideoId (js "https://youtu.be/" ++ i) = Some i
        /\ SettingsPanel.extractVideoId
             (js "https://www.youtube.com/embed/" ++ i) = Some i)
  /\ (forall lib st i,
        List.length i = 11%nat -> forallb isIdChar i = true ->
        SettingsPanel.hasId lib i = true ->
        In (SettingsPanel.newVideoId st) (idForms i) ->
        snd (App.submitAddForm lib st) = lib)
  /\ (forall lib st,
        NoDup (List.map id lib) ->
        NoDup (List.map id (snd (App.submitAddForm lib st))))
  /\ (forall lib newVideo, App.handleAddVideo lib newVideo = lib ++ [newVideo]).
Proof.
  assert (Hrej : forall lib st vid,
             SettingsPanel.extractVideoId (trim (SettingsPanel.newVideoId st)) = Some vid ->
             SettingsPanel.hasId lib vid = true ->
             snd (App.submitAddForm lib st) = lib).
  { intros lib st vid He Hdup. unfold App.submitAddForm.
    destruct (handleAddVideo_duplicate lib st He Hdup) as (msg & -> & _).
    reflexivity. }
  split; [|split; [|split; [|split]]].
  - intros lib st vid He Hdup. split; [|split].
    + destruct (handleAddVideo_duplicate lib st He Hdup) as (msg & -> & _).
      reflexivity.
    + now apply (Hrej lib st vid).
    + unfold App.submitAddForm.
      destruct (handleAddVideo_duplicate lib st He Hdup)
        as (msg & -> & [-> | ->] & _); cbn; discriminate.
  - intros i Hlen Hall. assert (Hi : wellFormedId i) by now split.
    repeat split.
    + now apply extract_bare.
    + now apply extract_watch.
    + now apply extract_short.
    + now apply extract_embed.
  - intros lib st i Hlen Hall Hdup Hin.
    apply (Hrej lib st i); [|assumption].
    apply extract_idForms; [now split | assumption].
  - intros lib st. apply submitAddForm_ids.
  - reflexivity.
Qed.

End AddVideo.

(** The add form of [sampleForm], filled in again once its entry is in the
    library. *)
Lemma addVideo_duplicates_rejected_by_the_form_witness :
  snd (App.submitAddForm [sampleEntry] sampleForm) = [sampleEntry]
  /\ SettingsPanel.extractVideoId (js "https://www.youtube.com/embed/dQw4w9WgXcQ")
     = Some (js "dQw4w9WgXcQ")
  /\ snd (App.submitAddForm [sampleEntry]
            (SettingsPanel.mkForm true
               (js "https://www.youtube.com/watch?v=dQw4w9WgXcQ")
               (js "Again") (js "*") (js "#4ECDC4") []))
     = [sampleEntry]
  /\ NoDup (List.map id (snd (App.submitAddForm [] sampleForm))).
Proof.
  split; [|split; [|split]].
  - apply (proj1 addVideo_duplicates_rejected_by_the_form [sampleEntry]
             sampleForm (js "dQw4w9WgXcQ")); vm_compute; reflexivity.
  - apply (proj1 (proj2 addVideo_duplicates_rejected_by_the_form)
             (js "dQw4w9WgXcQ")); vm_compute; reflexivity.
  - apply (proj1 (proj2 (proj2 addVideo_duplicates_rejected_by_the_form))
             [sampleEntry] _ (js "dQw4w9WgXcQ")); try (vm_compute; reflexivity).
    right. left. reflexivity.
  - apply (proj1 (proj2 (proj2 (proj2 addVideo_duplicates_rejected_by_the_form)))
             [] sampleForm). constructor.
Defined.

(** C7 as stated fails in its last part: the handler of the App accepts an
    entry whose identifier the library already holds, and the library then
    holds it twice. *)
Lemma app_handleAddVideo_accepts_a_duplicate :
  ~ (forall lib newVideo,
       SettingsPanel.hasId lib (id newVideo) = true ->
       App.handleAddVideo lib newVideo = lib).
Proof.
  intros H. specialize (H [sampleEntry] sampleEntry eq_refl).
  vm_compute in H. discriminate.
Qed.

(* ------------------------------------------------------------------------ *)
(** ** Rounding to the nearest double *)

Section DoubleFacts.

Import Double.

Local Open Scope Q_scope.

Lemma pow2_pos (e : Z) : 0 < pow2 e.
Proof. apply Qpower_0_lt. reflexivity. Qed.

Lemma pow2_succ (e : Z) : pow2 (e + 1) == 2 * pow2 e.
Proof.
  unfold pow2. rewrite Qpower_plus by discriminate. rewrite Qpower_1_r.
  apply Qmult_comm.
Qed.

Lemma pow2_add (a b : Z) : pow2 (a + b) == pow2 a * pow2 b.
Proof. unfold pow2. apply Qpower_plus. discriminate. Qed.

Lemma pow2_le (a b : Z) : (a <= b)%Z -> pow2 a <= pow2 b.
Proof. intros H. apply Qpower_le_compat_l; [assumption | discriminate]. Qed.

Lemma pow2_Z (n : Z) : (0 <= n)%Z -> pow2 n == inject_Z (2 ^ n).
Proof. intros H. unfold pow2. now rewrite Zpower_Qpower. Qed.

Lemma div_lt_cross (a b c d : Q) :
  0 < b -> 0 < d -> a * d < c * b -> a / b < c / d.
Proof.
  intros Hb Hd H. apply Qlt_shift_div_r; [assumption|].
  assert (E : c / d * b == c * b / d) by (field; lra).
  rewrite E. apply Qlt_shift_div_l; assumption.
Qed.

Lemma div_le_cross (a b c d : Q) :
  0 < b -> 0 < d -> a * d <= c * b -> a / b <= c / d.
Proof.
  intros Hb Hd H. apply Qle_shift_div_r; [assumption|].
  assert (E : c / d * b == c * b / d) by (field; lra).
  rewrite E. apply Qle_shift_div_l; assumption.
Qed.

(** [ilog2 x] is the exponent of the power of two at or just below [x]. *)
Lemma ilog2_spec (x : Q) :
  0 < x -> pow2 (ilog2 x) <= x /\ x < pow2 (ilog2 x + 1).
Proof.
  intros Hx. destruct x as [a b].
  assert (Ha : (0 < a)%Z).
  { unfold Qlt in Hx. cbn in Hx. lia. }
  unfold ilog2. cbn [Qnum Qden].
  set (la := Z.log2 a). set (lb := Z.log2 (Z.pos b)).
  assert (Hla : (0 <= la)%Z) by apply Z.log2_nonneg.
  assert (Hlb : (0 <= lb)%Z) by apply Z.log2_nonneg.
  destruct (Z.log2_spec a Ha) as [Ha1 Ha2]. fold la in Ha1, Ha2.
  destruct (Z.log2_spec (Z.pos b) eq_refl) as [Hb1 Hb2]. fold lb in Hb1, Hb2.
  assert (Qa1 : pow2 la <= inject_Z a) by (rewrite pow2_Z, <- Zle_Qle; lia).
  assert (Qa2 : inject_Z a < 2 * pow2 la).
  { rewrite <- pow2_succ, pow2_Z, <- Zlt_Qlt by lia.
    now rewrite <- Z.add_1_r in Ha2. }
  assert (Qb1 : pow2 lb <= inject_Z (Z.pos b)) by (rewrite pow2_Z, <- Zle_Qle; lia).
  assert (Qb2 : inject_Z (Z.pos b) < 2 * pow2 lb).
  { rewrite <- pow2_succ, pow2_Z, <- Zlt_Qlt by lia.
    now rewrite <- Z.add_1_r in Hb2. }
  pose proof (pow2_pos la) as Pa. pose proof (pow2_pos lb) as Pb.
  assert (Ex : a # b == inject_Z a / inject_Z (Z.pos b)) by apply Qmake_Qdiv.
  assert (Ed : pow2 (la - lb) == pow2 la / pow2 lb).
  { unfold pow2. apply Qpower_minus. discriminate. }
  assert (Hup : a # b < 2 * pow2 (la - lb)).
  { rewrite Ex, Ed.
    assert (E : 2 * (pow2 la / pow2 lb) == (2 * pow2 la) / pow2 lb)
      by (field; lra).
    rewrite E. apply div_lt_cross; try lra. nra. }
  assert (Hlo : pow2 (la - lb) <= 2 * (a # b)).
  { rewrite Ex, Ed.
    assert (E : 2 * (inject_Z a / inject_Z (Z.pos b))
                == (2 * inject_Z a) / inject_Z (Z.pos b))
      by (field; lra).
    rewrite E. apply div_le_cross; try lra. nra. }
  destruct (Qle_bool (pow2 (la - lb)) (a # b)) eqn:Hc.
  - apply Qle_bool_iff in Hc. split; [assumption|]. now rewrite pow2_succ.
  - assert (Hn : a # b < pow2 (la - lb)).
    { apply Qnot_le_lt. intros H. apply Qle_bool_iff in H. congruence. }
    replace (la - lb - 1 + 1)%Z with (la - lb)%Z by lia.
    split; [|assumption].
    assert (E : pow2 (la - lb) == 2 * pow2 (la - lb - 1)).
    { rewrite <- pow2_succ. now replace (la - lb - 1 + 1)%Z with (la - lb)%Z by lia. }
    lra.
Qed.

Lemma ilog2_mono (x y : Q) : 0 < x -> x <= y -> (ilog2 x <= ilog2 y)%Z.
Proof.
  intros Hx Hxy.
  destruct (ilog2_spec Hx) as [Hx1 _].
  destruct (@ilog2_spec y) as [_ Hy2]; [lra|].
  destruct (Z.le_gt_cases (ilog2 x) (ilog2 y)) as [H|H]; [assumption|].
  exfalso. assert (Hp : pow2 (ilog2 y + 1) <= pow2 (ilog2 x))
    by (apply pow2_le; lia).
  lra.
Qed.

Lemma roundHalfEven_bounds (y : Q) :
  (Qfloor y <= roundHalfEven y <= Qfloor y + 1)%Z.
Proof.
  unfold roundHalfEven.
  destruct (Qcompare (y - inject_Z (Qfloor y)) (1 # 2));
    [destruct (Z.even (Qfloor y))| |]; lia.
Qed.

Lemma roundHalfEven_mono (x y : Q) :
  x <= y -> (roundHalfEven x <= roundHalfEven y)%Z.
Proof.
  intros Hxy. pose proof (Qfloor_resp_le x y Hxy) as Hf.
  pose proof (roundHalfEven_bounds x) as Bx.
  pose proof (roundHalfEven_bounds y) as By.
  destruct (Z.eq_dec (Qfloor x) (Qfloor y)) as [E|N]; [|lia].
  unfold roundHalfEven in *. rewrite <- E in *.
  destruct (Qcompare_spec (x - inject_Z (Qfloor x)) (1 # 2)) as [Hx|Hx|Hx];
    destruct (Qcompare_spec (y - inject_Z (Qfloor x)) (1 # 2)) as [Hy|Hy|Hy];
    try destruct (Z.even (Qfloor x)); try lia; exfalso; lra.
Qed.

Lemma roundPositive_mono (x y : Q) :
  0 < x -> x <= y -> roundPositive x <= roundPositive y.
Proof.
  intros Hx Hxy. assert (Hy : 0 < y) by lra.
  unfold roundPositive.
  pose proof (ilog2_mono Hx Hxy) as Hl.
  set (ex := ulpExponent x). set (ey := ulpExponent y).
  assert (He : (ex <= ey)%Z) by (unfold ex, ey, ulpExponent; lia).
  pose proof (pow2_pos ex) as Px. pose proof (pow2_pos ey) as Py.
  destruct (Z.eq_dec ex ey) as [E|N].
  - rewrite <- E. apply Qmult_le_compat_r; [|lra].
    rewrite <- Zle_Qle. apply roundHalfEven_mono.
    apply div_le_cross; try assumption. nra.
  - (* the binade of [x] lies below that of [y] *)
    assert (Hux : inject_Z (roundHalfEven (x / pow2 ex)) <= pow2 53).
    { destruct (ilog2_spec Hx) as [_ Hx2].
      assert (Hb : pow2 (ilog2 x + 1) <= pow2 (ex + 53))
        by (apply pow2_le; unfold ex, ulpExponent; lia).
      rewrite (pow2_add ex 53) in Hb.
      assert (Hq : x / pow2 ex < pow2 53).
      { apply Qlt_shift_div_r; [assumption|].
        rewrite (Qmult_comm (pow2 53)). lra. }
      pose proof (roundHalfEven_bounds (x / pow2 ex)) as B.
      assert (Hfl : (Qfloor (x / pow2 ex) < 2 ^ 53)%Z).
      { rewrite Zlt_Qlt. apply Qle_lt_trans with (x / pow2 ex);
          [apply Qfloor_le|]. now rewrite <- (@pow2_Z 53) by lia. }
      rewrite (@pow2_Z 53) by lia. rewrite <- Zle_Qle. lia. }
    assert (Hly : pow2 52 <= inject_Z (roundHalfEven (y / pow2 ey))).
    { destruct (ilog2_spec Hy) as [Hy1 _].
      assert (Eey : ey = (ilog2 y - 52)%Z)
        by (unfold ex, ey, ulpExponent in *; lia).
      assert (Hb : pow2 (ey + 52) <= y).
      { replace (ey + 52)%Z with (ilog2 y) by lia. assumption. }
      rewrite (pow2_add ey 52) in Hb.
      assert (Hq : pow2 52 <= y / pow2 ey).
      { apply Qle_shift_div_l; [assumption|].
        rewrite (Qmult_comm (pow2 52)). lra. }
      pose proof (roundHalfEven_bounds (y / pow2 ey)) as B.
      assert (Hfl : (2 ^ 52 <= Qfloor (y / pow2 ey))%Z).
      { change (2 ^ 52)%Z with (Qfloor (inject_Z (2 ^ 52))).
        apply Qfloor_resp_le. now rewrite <- (@pow2_Z 52) by lia. }
      rewrite (@pow2_Z 52) by lia. rewrite <- Zle_Qle. lia. }
    assert (Hp : pow2 53 * pow2 ex <= pow2 52 * pow2 ey).
    { rewrite <- !pow2_add. apply pow2_le. lia. }
    nra.
Qed.

Lemma round_nonneg (x : Q) : 0 <= x -> 0 <= round x.
Proof.
  intros Hx. unfold round.
  destruct (Qcompare_spec x 0) as [H|H|H]; [lra | exfalso; lra |].
  unfold roundPositive. pose proof (pow2_pos (ulpExponent x)) as P.
  apply Qmult_le_0_compat; [|lra].
  change 0 with (inject_Z 0). rewrite <- Zle_Qle.
  pose proof (roundHalfEven_bounds (x / pow2 (ulpExponent x))) as B.
  assert (0 <= Qfloor (x / pow2 (ulpExponent x)))%Z; [|lia].
  change 0%Z with (Qfloor (inject_Z 0)). apply Qfloor_resp_le.
  change (inject_Z 0) with 0. apply Qle_shift_div_l; [assumption|]. lra.
Qed.

(** Rounding keeps the order of the non-negative numbers. *)
Lemma round_mono (x y : Q) : 0 <= x -> x <= y -> round x <= round y.
Proof.
  intros Hx Hxy. unfold round at 1.
  destruct (Qcompare_spec x 0) as [H|H|H].
  - apply round_nonneg. lra.
  - exfalso; lra.
  - unfold round. destruct (Qcompare_spec y 0) as [H'|H'|H'];
      try (exfalso; lra). now apply roundPositive_mono.
Qed.

End DoubleFacts.

(* ------------------------------------------------------------------------ *)
(** ** The arithmetic challenge *)

Section Challenge.

Import ParentalGate.

Local Open Scope Z_scope.

(** A draw of [Math.random()]: a double that is at least 0 and below 1,
    that is a multiple of 2^e with a significand below 2^53, for an exponent
    from -1074 to -53. *)
Definition isDraw (r : Q) : Prop :=
  exists m e : Z,
    0 <= m < 2 ^ 53 /\ -1074 <= e <= -53
    /\ (r == inject_Z m * Double.pow2 e)%Q.

Lemma isDraw_intro (r : Q) (m e : Z) :
  (0 <=? m) && (m <? 2 ^ 53) && (-1074 <=? e) && (e <=? -53)
  && Qeq_bool r (inject_Z m * Double.pow2 e) = true ->
  isDraw r.
Proof.
  intros H. repeat (apply andb_true_iff in H as [H ?]).
  exists m, e. repeat split; try lia. now apply Qeq_bool_eq.
Qed.

(** The largest draw, 1 - 2^-53. *)
Definition largestDraw : Q := (2 ^ 53 - 1) # (2 ^ 53).

Lemma isDraw_bounds (r : Q) : isDraw r -> (0 <= r <= largestDraw)%Q.
Proof.
  intros (m & e & Hm & He & Hr).
  pose proof (pow2_pos e) as Pe.
  assert (Hp : (Double.pow2 e <= Double.pow2 (-53))%Q) by (apply pow2_le; lia).
  assert (H0 : (inject_Z 0 <= inject_Z m)%Q) by (rewrite <- Zle_Qle; lia).
  assert (H1 : (inject_Z m <= inject_Z (2 ^ 53 - 1))%Q)
    by (rewrite <- Zle_Qle; lia).
  change (inject_Z 0) with 0%Q in H0.
  assert (El : (largestDraw == inject_Z (2 ^ 53 - 1) * Double.pow2 (-53))%Q)
    by reflexivity.
  assert (P53 : (0 < Double.pow2 (-53))%Q) by apply pow2_pos.
  rewrite Hr, El. split; nra.
Qed.

(** Every draw is a double: rounding leaves it as it is. *)
Lemma draw_is_a_double (r : Q) : isDraw r -> (Double.round r == r)%Q.
Proof.
  intros (m & e & Hm & He & Hr). unfold Double.round.
  pose proof (pow2_pos e) as Pe.
  destruct (Qcompare_spec r 0) as [H|H|H]; [now symmetry | |].
  - exfalso. assert (inject_Z 0 <= inject_Z m)%Q by (rewrite <- Zle_Qle; lia).
    change (inject_Z 0) with 0%Q in *. nra.
  - unfold Double.roundPositive. set (u := Double.ulpExponent r).
    destruct (ilog2_spec H) as [Hl _].
    assert (Hu : u <= e).
    { assert (Hlt : (Double.pow2 (Double.ilog2 r) < Double.pow2 (53 + e))%Q).
      { rewrite pow2_add, (@pow2_Z 53) by lia.
        assert (inject_Z m < inject_Z (2 ^ 53))%Q by (rewrite <- Zlt_Qlt; lia).
        nra. }
      assert (Double.ilog2 r < 53 + e).
      { destruct (Z.lt_ge_cases (Double.ilog2 r) (53 + e)) as [L|G];
          [assumption|].
        apply pow2_le in G. exfalso. lra. }
      unfold u, Double.ulpExponent. lia. }
    pose proof (pow2_pos u) as Pu.
    assert (Ey : (r / Double.pow2 u == inject_Z (m * 2 ^ (e - u)))%Q).
    { rewrite inject_Z_mult, <- (@pow2_Z (e - u)) by lia.
      rewrite Hr. replace e with (e - u + u) at 1 by lia.
      rewrite (pow2_add (e - u) u). field. lra. }
    assert (Er : Double.roundHalfEven (r / Double.pow2 u) = m * 2 ^ (e - u)).
    { assert (Ef : Qfloor (r / Double.pow2 u) = m * 2 ^ (e - u))
        by (rewrite Ey; apply Qfloor_Z).
      unfold Double.roundHalfEven. rewrite Ef.
      destruct (Qcompare_spec
                  (r / Double.pow2 u - inject_Z (m * 2 ^ (e - u)))
                  (1 # 2)) as [C|C|C]; [exfalso; lra | reflexivity |].
      exfalso. lra. }
    rewrite Er, inject_Z_mult, <- (@pow2_Z (e - u)) by lia.
    rewrite Hr, <- Qmult_assoc, <- pow2_add.
    now replace (e - u + u) with e by lia.
Qed.

(** The bounds the code multiplies a draw by. *)
Definition bounds : list Z := [3; 8; 15; 20; 30].

(** The product of the largest draw and a bound of the code, rounded, is
    still below the bound: the floor of it is the bound less one. *)
Lemma largest_draw_stays_below :
  Forall (fun n => randomBelow largestDraw n = n - 1) bounds.
Proof. repeat constructor. Qed.

(** [Math.floor(Math.random() * n)] is one of 0, ..., n - 1, for the bounds
    of the code: rounding keeps the order, so the rounded product of a draw
    is at most that of the largest draw. *)
Lemma randomBelow_range (r : Q) (n : Z) :
  isDraw r -> existsb (Z.eqb n) bounds = true -> 0 <= randomBelow r n < n.
Proof.
  intros Hr Hn. apply isDraw_bounds in Hr as [H0 H1].
  assert (Hin : In n bounds).
  { apply existsb_exists in Hn as (k & Hk & E). apply Z.eqb_eq in E.
    now subst k. }
  assert (Hpos : (0 < inject_Z n)%Q).
  { change 0%Q with (inject_Z 0). rewrite <- Zlt_Qlt.
    unfold bounds in Hin. simpl in Hin. lia. }
  assert (Hlast : randomBelow largestDraw n = n - 1).
  { pose proof largest_draw_stays_below as F.
    rewrite Forall_forall in F. now apply F. }
  unfold randomBelow, Double.mul in *. split.
  - change 0 with (Qfloor (inject_Z 0)). apply Qfloor_resp_le.
    change (inject_Z 0) with 0%Q. apply round_nonneg. nra.
  - assert (Qfloor (Double.round (r * inject_Z n))
            <= Qfloor (Double.round (largestDraw * inject_Z n))); [|lia].
    apply Qfloor_resp_le, round_mono; nra.
Qed.

Lemma pick_draw (r0 : Q) :
  isDraw r0 ->
  pick (randomBelow r0 (Z.of_nat (List.length operations))) = Some Plus
  \/ pick (randomBelow r0 (Z.of_nat (List.length operations))) = Some Minus
  \/ pick (randomBelow r0 (Z.of_nat (List.length operations))) = Some Times.
Proof.
  intros H. change (Z.of_nat (List.length operations)) with 3.
  pose proof (@randomBelow_range _ 3 H eq_refl) as Hr.
  assert (Hc : randomBelow r0 3 = 0 \/ randomBelow r0 3 = 1 \/ randomBelow r0 3 = 2)
    by lia.
  destruct Hc as [-> | [-> | ->]]; cbv; auto.
Qed.

(** The table of the spec, row by row. *)
Definition satisfiesTable (p : MathProblem) : Prop :=
  match operation p with
  | Some Plus =>
      10 <= num1 p <= 29 /\ 10 <= num2 p <= 29 /\ answer p = num1 p + num2 p
  | Some Minus =>
      20 <= num1 p <= 49 /\ 5 <= num2 p <= 19
      /\ answer p = num1 p - num2 p /\ 0 < answer p
  | Some Times =>
      3 <= num1 p <= 10 /\ 3 <= num2 p <= 10 /\ answer p = num1 p * num2 p
  | None => False
  end.

Lemma mathProblem_table (r0 r1 r2 : Q) :
  isDraw r0 -> isDraw r1 -> isDraw r2 -> satisfiesTable (mathProblem r0 r1 r2).
Proof.
  intros H0 H1 H2. unfold satisfiesTable, mathProblem.
  destruct (pick_draw H0) as [-> | [-> | ->]]; cbn [operation num1 num2 answer].
  - pose proof (@randomBelow_range _ 20 H1 eq_refl).
    pose proof (@randomBelow_range _ 20 H2 eq_refl). lia.
  - pose proof (@randomBelow_range _ 30 H1 eq_refl).
    pose proof (@randomBelow_range _ 15 H2 eq_refl). lia.
  - pose proof (@randomBelow_range _ 8 H1 eq_refl).
    pose proof (@randomBelow_range _ 8 H2 eq_refl). lia.
Qed.

Lemma satisfiesTable_answer (p : MathProblem) :
  satisfiesTable p -> 1 <= answer p <= 100.
Proof.
  unfold satisfiesTable. destruct (operation p) as [[| |]|]; intros H;
    try contradiction; try nia.
Qed.

Lemma draw_zero : isDraw 0.
Proof. apply (@isDraw_intro 0 0 (-53)). vm_compute. reflexivity. Qed.

Lemma draw_half : isDraw (1 # 2).
Proof. apply (@isDraw_intro (1 # 2) (2 ^ 52) (-53)). vm_compute. reflexivity. Qed.

Lemma draw_3_8 : isDraw (3 # 8).
Proof.
  apply (@isDraw_intro (3 # 8) (3 * 2 ^ 50) (-53)). vm_compute. reflexivity.
Qed.

Lemma draw_27_32 : isDraw (27 # 32).
Proof.
  apply (@isDraw_intro (27 # 32) (27 * 2 ^ 48) (-53)). vm_compute. reflexivity.
Qed.

(** A draw whose product is rounded up to the next integer: the double
    0.6666666666666666 is below 2/3, and three times it is rounded to 2, so
    the third operator is picked. *)
Example rounded_product_reaches_the_integer :
  let r := (6004799503160661 # 2 ^ 53)%Q in
  isDraw r
  /\ (r * 3 < 2)%Q
  /\ randomBelow r 3 = 2
  /\ mathProblem r (1 # 2) (1 # 2) = mkProblem 7 7 (Some Times) 49.
Proof.
  cbv zeta. split; [|repeat split; vm_compute; reflexivity].
  apply (@isDraw_intro _ 6004799503160661 (-53)). vm_compute. reflexivity.
Qed.

(** The draws written 1/3 and 17/20 on the page are the doubles nearest to
    these fractions; they are draws, and give the challenge 45 - 5. *)
Remark page_draws :
  isDraw (Double.round (1 # 3)) /\ isDraw (Double.round (17 # 20)) /\ isDraw 0
  /\ mathProblem (Double.round (1 # 3)) (Double.round (17 # 20)) 0
     = mathProblem (1 # 3) (17 # 20) 0
  /\ mathProblem (1 # 3) (17 # 20) 0 = mkProblem 45 5 (Some Minus) 40.
Proof.
  split; [apply (@isDraw_intro _ 6004799503160661 (-54)); vm_compute;
          reflexivity|].
  split; [apply (@isDraw_intro _ 7656119366529843 (-53)); vm_compute;
          reflexivity|].
  split; [exact draw_zero|].
  split; vm_compute; reflexivity.
Qed.

End Challenge.

(* ------------------------------------------------------------------------ *)
(** ** Decimal text of a number, and [parseInt] of it *)

Section Decimal.

Local Open Scope Z_scope.

Lemma isDigit_range (c : code_unit) :
  isDigit c = true <-> (48 <= c <= 57)%N.
Proof.
  unfold isDigit, in_range. rewrite andb_true_iff, !N.leb_le. tauto.
Qed.

Lemma isDigit_cases (c : code_unit) :
  isDigit c = true ->
  In c [48; 49; 50; 51; 52; 53; 54; 55; 56; 57]%N.
Proof.
  intros H. apply isDigit_range in H. simpl.
  assert (Hc : (c = 48 \/ c = 49 \/ c = 50 \/ c = 51 \/ c = 52 \/ c = 53
                \/ c = 54 \/ c = 55 \/ c = 56 \/ c = 57)%N) by lia.
  intuition auto.
Qed.

(** A digit is no white space, no sign, and is kept by the answer field. *)
Lemma isDigit_plain (c : code_unit) :
  isDigit c = true ->
  isWhiteSpace c = false /\ unit_eqb c 45%N = false
  /\ unit_eqb c 43%N = false /\ ParentalGate.isAnswerChar c = true.
Proof.
  intros H. apply isDigit_cases in H. simpl in H.
  repeat (destruct H as [<- | H]; [now vm_compute|]). contradiction.
Qed.

Lemma takeDigits_all (d : jsstring) :
  forallb isDigit d = true -> takeDigits d = d.
Proof.
  induction d as [|c d IH]; simpl; [reflexivity|].
  intros H. apply andb_true_iff in H as [Hc Hd]. now rewrite Hc, IH.
Qed.

Definition shiftDigit (acc : Z) (c : code_unit) : Z := 10 * acc + digitValue c.

Lemma digit_unit (m : Z) :
  0 <= m < 10 ->
  isDigit (Z.to_N (48 + m)) = true /\ digitValue (Z.to_N (48 + m)) = m.
Proof.
  intros Hm. pose proof (Z2N.id (48 + m) ltac:(lia)) as Hid.
  split; [apply isDigit_range | unfold digitValue]; lia.
Qed.

Lemma digitsOfPos_fuel_S (fuel : nat) (n : Z) (acc : jsstring) :
  digitsOfPos_fuel (S fuel) n acc
  = if n <? 10 then Z.to_N (48 + n mod 10) :: acc
    else digitsOfPos_fuel fuel (n / 10) (Z.to_N (48 + n mod 10) :: acc).
Proof. reflexivity. Qed.

Lemma digitsOfPos_fuel_spec (fuel : nat) :
  forall n acc, 0 <= n < 10 ^ Z.of_nat (S fuel) ->
    exists d,
      digitsOfPos_fuel (S fuel) n acc = d ++ acc
      /\ d <> []
      /\ forallb isDigit d = true
      /\ forall a, fold_left shiftDigit d a
                   = a * 10 ^ Z.of_nat (List.length d) + n.
Proof.
  induction fuel as [|fuel IH]; intros n acc Hn.
  - exists [Z.to_N (48 + n mod 10)].
    change (10 ^ Z.of_nat 1) with 10 in Hn.
    rewrite digitsOfPos_fuel_S. destruct (Z.ltb_spec n 10) as [_|Hge]; [|lia].
    rewrite Z.mod_small by lia.
    repeat split; try discriminate.
    + cbn [forallb]. rewrite andb_true_r. now apply digit_unit.
    + intros a. cbn [fold_left List.length]. unfold shiftDigit.
      rewrite (proj2 (digit_unit Hn)). change (10 ^ Z.of_nat 1) with 10. lia.
  - rewrite digitsOfPos_fuel_S.
    set (c := Z.to_N (48 + n mod 10)).
    pose proof (Z.mod_pos_bound n 10 eq_refl) as Hmod.
    destruct (digit_unit Hmod) as [Hc Hv]. fold c in Hc, Hv.
    destruct (Z.ltb_spec n 10) as [Hlt|Hge].
    + exists [c]. rewrite Z.mod_small in Hv by lia.
      repeat split; try discriminate.
      * cbn [forallb]. now rewrite Hc.
      * intros a. cbn [fold_left List.length]. unfold shiftDigit. rewrite Hv.
        change (10 ^ Z.of_nat 1) with 10. lia.
    + assert (Hdiv : 0 <= n / 10 < 10 ^ Z.of_nat (S fuel)).
      { split; [apply Z.div_pos; lia|].
        apply Z.div_lt_upper_bound; [lia|].
        replace (Z.of_nat (S (S fuel))) with (Z.succ (Z.of_nat (S fuel))) in Hn by lia.
        rewrite Z.pow_succ_r in Hn by lia. lia. }
      destruct (IH (n / 10) (c :: acc) Hdiv) as (d & Hd & Hne & Hall & Hval).
      exists (d ++ [c]). rewrite Hd, <- app_assoc. repeat split.
      * intros Habs. now apply app_eq_nil in Habs as [_ Habs].
      * rewrite forallb_app, Hall. cbn. now rewrite Hc.
      * intros a. rewrite fold_left_app, length_app, Hval. cbn [fold_left List.length].
        unfold shiftDigit at 1. rewrite Hv.
        replace (Z.of_nat (List.length d + 1)) with (Z.succ (Z.of_nat (List.length d))) by lia.
        rewrite Z.pow_succ_r by lia.
        pose proof (Z.div_mod n 10). lia.
Qed.

Lemma enough_digits (n : Z) :
  0 <= n -> n < 10 ^ Z.of_nat (S (Z.to_nat (Z.log2 n))).
Proof.
  intros Hn.
  pose proof (Z.log2_nonneg n) as Hl.
  replace (Z.of_nat (S (Z.to_nat (Z.log2 n)))) with (Z.succ (Z.log2 n)) by lia.
  destruct (Z.eq_dec n 0) as [->|Hz]; [now vm_compute|].
  apply Z.lt_le_trans with (2 ^ Z.succ (Z.log2 n)).
  - apply Z.log2_spec. lia.
  - apply Z.pow_le_mono_l. lia.
Qed.

(** The text of a number that is not negative: digits only, at least one,
    and they spell the number. *)
Lemma toString_digits (n : Z) :
  0 <= n ->
  toString n <> [] /\ forallb isDigit (toString n) = true
  /\ digitsValue (toString n) = n.
Proof.
  intros Hn. unfold toString.
  destruct (Z.ltb_spec n 0) as [Hneg|_]; [lia|].
  destruct (digitsOfPos_fuel_spec (Z.to_nat (Z.log2 n)) (n := n) []
              (conj Hn (enough_digits Hn))) as (d & Hd & Hne & Hall & Hval).
  rewrite Hd, app_nil_r. repeat split; auto.
  unfold digitsValue. change (fun acc c => 10 * acc + digitValue c) with shiftDigit.
  rewrite Hval. lia.
Qed.

Lemma parseInt_digits (d : jsstring) :
  d <> [] -> forallb isDigit d = true -> parseInt d = Some (digitsValue d).
Proof.
  intros Hne Hall. destruct d as [|c d]; [congruence|].
  pose proof Hall as Hall'. cbn [forallb] in Hall'.
  apply andb_true_iff in Hall' as [Hc _].
  destruct (isDigit_plain c Hc) as (Hws & Hm & Hp & _).
  unfold parseInt, trimStart. cbn [dropWhile]. rewrite Hws, Hm, Hp.
  rewrite (takeDigits_all _ Hall).
  f_equal. destruct (digitsValue (c :: d)); reflexivity.
Qed.

(** [parseInt(String(n), 10)] is [n]. *)
Lemma parseInt_toString (n : Z) :
  0 <= n -> parseInt (toString n) = Some n.
Proof.
  intros Hn. destruct (toString_digits Hn) as (Hne & Hall & Hval).
  now rewrite (parseInt_digits Hne Hall), Hval.
Qed.

Lemma keepOnly_digits (d : jsstring) :
  forallb isDigit d = true -> keepOnly ParentalGate.isAnswerChar d = d.
Proof.
  unfold keepOnly. induction d as [|c d IH]; simpl; [reflexivity|].
  intros H. apply andb_true_iff in H as [Hc Hd].
  destruct (isDigit_plain c Hc) as (_ & _ & _ & ->). now rewrite IH.
Qed.

End Decimal.

(* ------------------------------------------------------------------------ *)
(** ** The answer field and its submission *)

Section AnswerField.

Import ParentalGate.

Lemma handleSubmit_correct (st : State) :
  parseInt (userAnswer st) = Some (answer (problem st)) ->
  handleSubmit st = (st, [CallOnSuccess]).
Proof.
  intros H. unfold handleSubmit. rewrite H. cbn [strictEq].
  now rewrite Z.eqb_refl.
Qed.

Lemma handleSubmit_wrong (st : State) :
  strictEq (parseInt (userAnswer st)) (answer (problem st)) = false ->
  handleSubmit st
  = (mkState (problem st) [] (S (attempts st)) true,
     if Nat.leb 2 (attempts st) then [SetTimeoutOnCancel 1500] else []).
Proof. intros H. unfold handleSubmit. now rewrite H. Qed.

(** C1. Every challenge built from three draws of the random source obeys
    the table of its operator (operand ranges, the answer being the operator
    applied to the operands, and a positive difference for the subtraction),
    and typing the decimal text of the answer and submitting it calls
    [onSuccess], whatever the gate's attempts so far. *)
Theorem challenge_obeys_table_and_answer_succeeds (r0 r1 r2 : Q) :
  isDraw r0 -> isDraw r1 -> isDraw r2 ->
  let p := mathProblem r0 r1 r2 in
  match operation p with
  | Some Plus =>
      (10 <= num1 p <= 29 /\ 10 <= num2 p <= 29
       /\ answer p = num1 p + num2 p)%Z
  | Some Minus =>
      (20 <= num1 p <= 49 /\ 5 <= num2 p <= 19
       /\ answer p = num1 p - num2 p /\ 0 < answer p)%Z
  | Some Times =>
      (3 <= num1 p <= 10 /\ 3 <= num2 p <= 10
       /\ answer p = num1 p * num2 p)%Z
  | None => False
  end
  /\ forall typed failed shown,
       let st := handleInputChange (toString (answer p))
                                   (mkState p typed failed shown) in
       userAnswer st = toString (answer p)
       /\ handleSubmit st = (st, [CallOnSuccess]).
Proof.
  intros H0 H1 H2 p.
  pose proof (mathProblem_table H0 H1 H2) as Ht. fold p in Ht.
  split; [exact Ht|].
  intros typed failed shown st.
  pose proof (@satisfiesTable_answer p Ht) as Hans.
  assert (Hnn : (0 <= answer p)%Z) by lia.
  destruct (toString_digits Hnn) as (Hne & Hall & Hval).
  assert (Hu : userAnswer st = toString (answer p)).
  { subst st. cbn [handleInputChange userAnswer]. now apply keepOnly_digits. }
  split; [exact Hu|].
  apply handleSubmit_correct. rewrite Hu.
  subst st. cbn [handleInputChange problem]. now apply parseInt_toString.
Qed.

(** The draws 0.6666666666666666, 0.5 and 0.5 give 7 x 7, the first product
    being rounded up to 2; typing 49 succeeds. *)
Lemma challenge_obeys_table_and_answer_succeeds_witness :
  let r0 := (6004799503160661 # 2 ^ 53)%Q in
  mathProblem r0 (1 # 2) (1 # 2) = mkProblem 7 7 (Some Times) 49
  /\ handleSubmit (handleInputChange (js "49")
                     (mkState (mathProblem r0 (1 # 2) (1 # 2)) (js "48") 2 true))
     = (mkState (mathProblem r0 (1 # 2) (1 # 2)) (js "49") 2 false,
        [CallOnSuccess]).
Proof.
  cbv zeta.
  assert (E : mathProblem (6004799503160661 # 2 ^ 53) (1 # 2) (1 # 2)
              = mkProblem 7 7 (Some Times) 49) by (vm_compute; reflexivity).
  split; [exact E|].
  pose proof (proj1 rounded_product_reaches_the_integer) as D0.
  pose proof (@challenge_obeys_table_and_answer_succeeds
                (6004799503160661 # 2 ^ 53) (1 # 2) (1 # 2)
                D0 draw_half draw_half) as H.
  cbv zeta in H. rewrite E in H. destruct H as [_ H].
  specialize (H (js "48") 2%nat true). cbv zeta in H.
  rewrite E. exact (proj2 H).
Defined.

(** What the user does to the form: type into the field, or submit. *)
Inductive GateAction :=
| TypeAnswer (value : jsstring)
| PressVerify.

Definition act (st : State) (a : GateAction) : State * list Effect :=
  match a with
  | TypeAnswer value => (handleInputChange value st, [])
  | PressVerify => handleSubmit st
  end.

(** The outcome of every submission of a run, in order. *)
Fixpoint submissions (st : State) (tr : list GateAction)
  : list (State * list Effect) :=
  match tr with
  | [] => []
  | TypeAnswer value :: tr' => submissions (handleInputChange value st) tr'
  | PressVerify :: tr' =>
      handleSubmit st :: submissions (fst (handleSubmit st)) tr'
  end.

(** A submission that did not call [onSuccess]. *)
Definition isWrong (r : State * list Effect) : Prop :=
  ~ In CallOnSuccess (snd r).

Lemma submissions_wrong (tr : list GateAction) :
  forall st,
    Forall isWrong (submissions st tr) ->
    forall k r, nth_error (submissions st tr) k = Some r ->
      attempts (fst r) = S (attempts st + k)
      /\ userAnswer (fst r) = []
      /\ showError (fst r) = true
      /\ snd r = if Nat.ltb (attempts st + k) 2 then []
                 else [SetTimeoutOnCancel 1500].
Proof.
  induction tr as [|[value|] tr IH]; intros st Hw k r Hk; cbn [submissions] in *.
  - destruct k; discriminate.
  - apply (IH _ Hw k r Hk).
  - inversion Hw as [|r0 rs Hr0 Hrs]; subst.
    destruct (strictEq (parseInt (userAnswer st)) (answer (problem st))) eqn:He.
    + exfalso. apply Hr0. unfold handleSubmit. rewrite He. now left.
    + rewrite (handleSubmit_wrong st He) in *.
      destruct k as [|k]; cbn [nth_error] in Hk.
      * inversion Hk; subst. cbn [fst snd attempts userAnswer showError].
        rewrite Nat.add_0_r. repeat split.
        destruct (attempts st) as [|[|n]]; reflexivity.
      * cbn [fst] in Hk, Hrs.
        destruct (IH _ Hrs k r Hk) as (Ha & Hu & Hs & He').
        cbn [attempts] in Ha, He'.
        replace (attempts st + S k)%nat with (S (attempts st) + k)%nat by lia.
        now repeat split.
Qed.

(** C2. In a gate where no submission succeeds, every submission raises the
    attempt counter by one, empties the field and shows the error; the first
    and the second arm nothing, and the third arms [onCancel] with a delay
    of 1500 ms. On the page, that timer is due 1500 ms after the submission,
    and when it fires it calls the cancel handler, which closes the gate. *)
Theorem wrong_submissions_count_and_third_cancels :
  (forall p tr,
      Forall isWrong (submissions (init p) tr) ->
      forall k r, nth_error (submissions (init p) tr) k = Some r ->
        attempts (fst r) = S k
        /\ userAnswer (fst r) = []
        /\ showError (fst r) = true
        /\ snd r = match k with
                   | 0%nat | 1%nat => []
                   | _ => [SetTimeoutOnCancel 1500]
                   end)
  /\ (forall w delay,
        App.timers (App.perform w (SetTimeoutOnCancel delay))
        = App.timers w
            ++ [App.mkTimer (App.nextTimerId w) (App.now w + delay)
                            App.CancelTimeout])
  /\ (forall w n due,
        let fired := App.fire w (App.mkTimer n due App.CancelTimeout) in
        App.log fired = App.log w ++ [(App.now w, App.Cancel)]
        /\ App.gate fired = None
        /\ App.currentView fired = App.currentView w).
Proof.
  split; [|split].
  - intros p tr Hw k r Hk.
    destruct (submissions_wrong tr (init p) Hw k Hk) as (Ha & Hu & Hs & He).
    cbn [init attempts Nat.add] in Ha, He. repeat split; auto.
    rewrite He. destruct k as [|[|k]]; reflexivity.
  - reflexivity.
  - intros w n due fired. subst fired.
    unfold App.fire, App.handleParentalGateCancel, App.closeGate. cbn.
    destruct (App.gate w) as [[m st]|] eqn:Hg; cbn; [|now rewrite Hg].
    destruct (HoldButton.cleanup _); cbn; now repeat split.
Qed.

End AnswerField.

(** Three wrong answers to 45 - 5, typed and submitted in turn. *)
Definition threeWrongAnswers : list GateAction :=
  [ TypeAnswer (js "1"); PressVerify;
    TypeAnswer (js "2"); PressVerify;
    TypeAnswer (js "3"); PressVerify ].

Definition sampleProblem : ParentalGate.MathProblem :=
  ParentalGate.mkProblem 45 5 (Some ParentalGate.Minus) 40.

Lemma threeWrongAnswers_wrong :
  Forall isWrong (submissions (ParentalGate.init sampleProblem) threeWrongAnswers).
Proof.
  assert (E : submissions (ParentalGate.init sampleProblem) threeWrongAnswers
              = [ (ParentalGate.mkState sampleProblem [] 1 true, []);
                  (ParentalGate.mkState sampleProblem [] 2 true, []);
                  (ParentalGate.mkState sampleProblem [] 3 true,
                   [ParentalGate.SetTimeoutOnCancel 1500]) ])
    by reflexivity.
  rewrite E. unfold isWrong.
  repeat constructor; cbn; intuition discriminate.
Defined.

Lemma wrong_submissions_count_and_third_cancels_witness :
  nth_error (submissions (ParentalGate.init sampleProblem) threeWrongAnswers) 2
  = Some (ParentalGate.mkState sampleProblem [] 3 true,
          [ParentalGate.SetTimeoutOnCancel 1500])
  /\ ParentalGate.attempts (ParentalGate.mkState sampleProblem [] 3 true) = 3%nat
  /\ ParentalGate.userAnswer (ParentalGate.mkState sampleProblem [] 3 true) = []
  /\ ParentalGate.showError (ParentalGate.mkState sampleProblem [] 3 true) = true
  /\ [ParentalGate.SetTimeoutOnCancel 1500] = [ParentalGate.SetTimeoutOnCancel 1500].
Proof.
  split; [reflexivity|].
  exact (proj1 wrong_submissions_count_and_third_cancels sampleProblem
           threeWrongAnswers threeWrongAnswers_wrong 2%nat
           (ParentalGate.mkState sampleProblem [] 3 true,
            [ParentalGate.SetTimeoutOnCancel 1500]) eq_refl).
Defined.

(** On the page: the gate opens at 0 s on 45 - 5, three wrong answers are
    submitted at 1 s, 2 s and 3 s, and nothing else is done; the cancel
    handler runs once, at 4.5 s, and the grid is still the view. *)
Example three_wrong_answers_on_the_page :
  let w := App.run App.initialWorld
             [ (0, App.SettingsClick (1 # 3) (17 # 20) 0);
               (1000, App.InputChange (js "1")); (1000, App.Submit);
               (2000, App.InputChange (js "2")); (2000, App.Submit);
               (3000, App.InputChange (js "3")); (3000, App.Submit);
               (6000, App.Wait) ]%Z in
  App.log w = [(4500%Z, App.Cancel)]
  /\ App.gate w = None /\ App.currentView w = App.Grid /\ App.timers w = [].
Proof. vm_compute. repeat split. Qed.

(** On the page: after two wrong answers to 45 - 5, the right one calls the
    success handler at once; the gate closes and the settings open. *)
Example right_answer_on_the_page :
  let w := App.run App.initialWorld
             [ (0, App.SettingsClick (1 # 3) (17 # 20) 0);
               (1000, App.InputChange (js "50")); (1000, App.Submit);
               (2000, App.InputChange (js "4o")); (2000, App.Submit);
               (3000, App.InputChange (js " 40 ")); (3000, App.Submit);
               (9000, App.Wait) ]%Z in
  App.log w = [(3000%Z, App.Success)]
  /\ App.gate w = None /\ App.currentView w = App.Settings
  /\ App.timers w = [].
Proof. vm_compute. repeat split. Qed.

(* ------------------------------------------------------------------------ *)
(** ** What the answer field keeps *)

Section FieldFilter.

Import ParentalGate.

(** C8, as the code has it. On every change of the field, the characters
    that are neither a digit nor a hyphen are discarded and the rest is
    stored in order; the value a submission compares with the answer is
    [parseInt] of that stored text, hyphens included. *)
Theorem input_keeps_digits_and_hyphens (value : jsstring) (st : State) :
  let st' := handleInputChange value st in
  userAnswer st' = filter (fun c => isDigit c || unit_eqb c 45%N) value
  /\ forallb (fun c => isDigit c || unit_eqb c 45%N) (userAnswer st') = true
  /\ showError st' = false
  /\ attempts st' = attempts st
  /\ snd (handleSubmit st')
     = if strictEq (parseInt (filter (fun c => isDigit c || unit_eqb c 45%N) value))
                   (answer (problem st))
       then [CallOnSuccess]
       else if Nat.leb 2 (attempts st) then [SetTimeoutOnCancel 1500] else [].
Proof.
  intros st'. subst st'. cbn [handleInputChange userAnswer showError attempts].
  unfold keepOnly, isAnswerChar. repeat split.
  - apply forallb_forall. intros c Hc. now apply filter_In in Hc.
  - unfold handleSubmit. cbn [userAnswer problem attempts].
    destruct (strictEq _ _); reflexivity.
Qed.

End FieldFilter.

(** C8 as stated fails: a hyphen is no digit, and the field keeps it. Typed
    into a gate that asks 45 - 5, the text -40 is stored whole and parsed as
    minus forty, which is not the answer, where its digits alone are. *)
Lemma input_keeps_the_hyphen :
  ~ (forall value st,
       ParentalGate.userAnswer (ParentalGate.handleInputChange value st)
       = keepOnly isDigit value).
Proof.
  intros H.
  specialize (H (js "-40")
                (ParentalGate.init
                   (ParentalGate.mkProblem 45 5 (Some ParentalGate.Minus) 40))).
  vm_compute in H. discriminate H.
Qed.

Example hyphen_changes_the_parsed_value :
  let st := ParentalGate.init
              (ParentalGate.mkProblem 45 5 (Some ParentalGate.Minus) 40) in
  parseInt (ParentalGate.userAnswer
              (ParentalGate.handleInputChange (js "-40") st)) = Some (-40)%Z
  /\ parseInt (keepOnly isDigit (js "-40")) = Some 40%Z
  /\ snd (ParentalGate.handleSubmit
            (ParentalGate.handleInputChange (js "-40") st)) = []
  /\ snd (ParentalGate.handleSubmit
            (ParentalGate.handleInputChange (js "40") st))
     = [ParentalGate.CallOnSuccess].
Proof. vm_compute. repeat split. Qed.

(* ------------------------------------------------------------------------ *)
(** ** The playback fallback *)

Section Fallback.

Import VideoPlayer.

Lemma step_local_stays (st : State) (sig : Signal) :
  useLocalVideo st = true -> useLocalVideo (step st sig) = true.
Proof.
  intros H. unfold step, dispatch. rewrite H.
  destruct sig; cbn; try assumption; reflexivity.
Qed.

Lemma run_local_stays (sigs : list Signal) :
  forall st, useLocalVideo st = true -> useLocalVideo (run st sigs) = true.
Proof.
  induction sigs as [|sig sigs IH]; intros st H; cbn; [assumption|].
  apply IH. now apply step_local_stays.
Qed.

Lemma step_errored_stays (st : State) (sig : Signal) :
  useLocalVideo st = true -> hasError st = true ->
  hasError (step st sig) = true.
Proof.
  intros Hl He. unfold step, dispatch. rewrite Hl.
  destruct sig as [| | |[|]| |]; cbn; try assumption; reflexivity.
Qed.

Lemma run_errored_stays (sigs : list Signal) :
  forall st, useLocalVideo st = true -> hasError st = true ->
    hasError (run st sigs) = true.
Proof.
  induction sigs as [|sig sigs IH]; intros st Hl He; cbn; [assumption|].
  apply IH; [now apply step_local_stays | now apply step_errored_stays].
Qed.

Lemma step_remote_error (st : State) (d : Z) :
  useLocalVideo (step st (RemoteError d)) = true.
Proof.
  unfold step, dispatch. destruct (useLocalVideo st) eqn:H; cbn; auto.
Qed.

Lemma run_app (a b : list Signal) (st : State) :
  run st (a ++ b) = run (run st a) b.
Proof. unfold run. apply fold_left_app. Qed.

Lemma never_back_to_remote (sigs : list Signal) :
  forall st, countSteps switchesToRemote st sigs = 0%nat.
Proof.
  induction sigs as [|sig sigs IH]; intros st; cbn [countSteps]; [reflexivity|].
  rewrite IH. unfold switchesToRemote.
  destruct (useLocalVideo st) eqn:H; [|reflexivity].
  now rewrite (step_local_stays st sig H).
Qed.

Lemma no_switch_when_local (sigs : list Signal) :
  forall st, useLocalVideo st = true ->
    countSteps switchesToLocal st sigs = 0%nat.
Proof.
  induction sigs as [|sig sigs IH]; intros st H; cbn [countSteps]; [reflexivity|].
  rewrite (IH _ (step_local_stays st sig H)).
  unfold switchesToLocal. now rewrite H.
Qed.

Lemma at_most_one_switch (sigs : list Signal) :
  forall st, (countSteps switchesToLocal st sigs <= 1)%nat.
Proof.
  induction sigs as [|sig sigs IH]; intros st; cbn [countSteps]; [lia|].
  unfold switchesToLocal at 1.
  destruct (useLocalVideo st) eqn:Hs; cbn [negb andb].
  - specialize (IH (step st sig)). lia.
  - destruct (useLocalVideo (step st sig)) eqn:Hn.
    + rewrite (no_switch_when_local sigs _ Hn). lia.
    + specialize (IH (step st sig)). lia.
Qed.

Lemma one_switch_after_remote_error (pre : list Signal) :
  forall st d rest,
    useLocalVideo st = false ->
    countSteps switchesToLocal st (pre ++ RemoteError d :: rest) = 1%nat.
Proof.
  induction pre as [|sig pre IH]; intros st d rest Hs; cbn [app countSteps].
  - rewrite (no_switch_when_local rest _ (step_remote_error st d)).
    unfold switchesToLocal. now rewrite Hs, step_remote_error.
  - unfold switchesToLocal at 1. rewrite Hs. cbn [negb andb].
    destruct (useLocalVideo (step st sig)) eqn:Hn.
    + now rewrite (no_switch_when_local _ _ Hn).
    + now rewrite (IH _ d rest Hn).
Qed.

(** C6. A remote error in remote mode puts the session in local mode, sets
    loading and clears errored. Whatever signals a session receives, it
    switches from remote to local at most once and never back; in a session
    that receives a remote error and later a local error, there is exactly
    one switch, and from the local error on the session is errored and
    local for good. *)
Theorem fallback_happens_once_and_local_error_is_terminal :
  (forall loading errored ready d,
      step (mkState loading errored false ready) (RemoteError d)
      = mkState true false true ready)
  /\ (forall loading ready,
        step (mkState loading false true ready) LocalError
        = mkState false true true ready)
  /\ (forall sigs,
        (countSteps switchesToLocal init sigs <= 1)%nat
        /\ countSteps switchesToRemote init sigs = 0%nat)
  /\ (forall pre d mid post,
        let session := pre ++ RemoteError d :: mid ++ LocalError :: post in
        countSteps switchesToLocal init session = 1%nat
        /\ sourceMode (run init (pre ++ RemoteError d :: mid)) = Local
        /\ sourceMode (run init session) = Local
        /\ hasError (run init session) = true
        /\ countSteps switchesToLocal
             (run init (pre ++ RemoteError d :: mid ++ [LocalError])) post
           = 0%nat).
Proof.
  split; [reflexivity|]. split; [reflexivity|]. split.
  - intros sigs. split; [apply at_most_one_switch | apply never_back_to_remote].
  - intros pre d mid post session.
    assert (Hmid : useLocalVideo (run init (pre ++ RemoteError d :: mid)) = true).
    { rewrite run_app. cbn [run fold_left].
      apply (run_local_stays mid). apply step_remote_error. }
    assert (Herr : useLocalVideo (run init (pre ++ RemoteError d :: mid ++ [LocalError])) = true
                   /\ hasError (run init (pre ++ RemoteError d :: mid ++ [LocalError])) = true).
    { change (pre ++ RemoteError d :: mid ++ [LocalError])
        with (pre ++ (RemoteError d :: mid) ++ [LocalError]).
      rewrite app_assoc, run_app. cbn [run fold_left].
      split; [now apply step_local_stays|].
      unfold step, dispatch. rewrite Hmid. reflexivity. }
    assert (Hsplit : session
                     = (pre ++ RemoteError d :: mid ++ [LocalError]) ++ post).
    { subst session. rewrite <- app_assoc. cbn [app].
      now rewrite <- app_assoc. }
    destruct Herr as [Hl He].
    repeat split.
    + apply one_switch_after_remote_error. reflexivity.
    + unfold sourceMode. now rewrite Hmid.
    + unfold sourceMode. rewrite Hsplit, run_app.
      now rewrite (run_local_stays post _ Hl).
    + rewrite Hsplit, run_app. now apply run_errored_stays.
    + now apply no_switch_when_local.
Qed.

End Fallback.

(* ------------------------------------------------------------------------ *)
(** ** The hold button *)

Section Hold.

Local Open Scope Z_scope.

(** The closure variable [elapsed] after [k] runs of the interval's
    callback, counted from [startHold]. *)
Fixpoint elapsedAfter (k : nat) : Z :=
  match k with
  | O => 0
  | S k' => fst (fst (HoldButton.tick (elapsedAfter k')))
  end.

Lemma elapsedAfter_value (k : nat) : elapsedAfter k = 50 * Z.of_nat k.
Proof.
  induction k as [|k IH]; [reflexivity|].
  cbn [elapsedAfter]. rewrite IH.
  unfold HoldButton.tick, HoldButton.UPDATE_INTERVAL. cbn [fst]. lia.
Qed.

(** The callback completes on its 60th run and on every later one, and on
    none before: an interval that is cleared before 3000 ms never calls
    [onComplete]. *)
Lemma tick_completes_from_the_60th (k : nat) :
  snd (HoldButton.tick (elapsedAfter k)) = true <-> (59 <= k)%nat.
Proof.
  rewrite elapsedAfter_value.
  unfold HoldButton.tick, HoldButton.UPDATE_INTERVAL, HoldButton.HOLD_DURATION.
  cbn [snd]. rewrite Z.leb_le. lia.
Qed.

(** One press on the page, released 1 ms before 3000 ms have passed:
    nothing is signalled, the progress is back at zero and no timer is
    left. A second press held for 3000 ms signals success as its 60th tick
    fires, with two failed answers on the form. *)
Example single_presses_on_the_page :
  let released := App.run App.initialWorld
                    [ (0, App.SettingsClick (1 # 3) (17 # 20) 0);
                      (500, App.InputChange (js "1")); (500, App.Submit);
                      (600, App.InputChange (js "2")); (600, App.Submit);
                      (1000, App.HoldStart); (3999, App.HoldStop);
                      (9999, App.Wait) ] in
  let held := App.run released [ (10000, App.HoldStart); (12999, App.Wait) ] in
  let completed := App.run held [ (13000, App.Wait); (20000, App.Wait) ] in
  (App.log released = [] /\ App.timers released = []
   /\ List.map HoldButton.progress (App.holds released) = [0%Q])
  /\ (App.log held = [] /\ App.showParentalGate held = true)
  /\ (App.log completed = [(13000, App.Success)]
      /\ App.currentView completed = App.Settings
      /\ App.showParentalGate completed = false
      /\ App.timers completed = []).
Proof. vm_compute. repeat split. Qed.

(** C3 fails on the code when two presses overlap (a second finger, or a
    second mouse button, goes down before the first is released).
    [startHold] overwrites [intervalRef.current] without clearing the
    interval it held, so [stopHold] clears the second interval only. Here
    the gate opens at 0 s, presses start at 1000 ms and 1010 ms, both are
    released by 1200 ms, and nothing is touched afterwards: the first
    interval keeps running, the released button's progress keeps growing,
    and at 4000 ms the success handler runs and the settings open. *)
Example overlapping_presses_succeed_after_release :
  let presses := [ (0, App.SettingsClick (1 # 3) (17 # 20) 0);
                   (1000, App.HoldStart); (1010, App.HoldStart);
                   (1100, App.HoldStop); (1200, App.HoldStop) ] in
  let before := App.run App.initialWorld (presses ++ [ (3999, App.Wait) ]) in
  let after := App.run App.initialWorld (presses ++ [ (4000, App.Wait) ]) in
  (App.log before = []
   /\ List.map HoldButton.isHolding (App.holds before) = [false]
   /\ List.map HoldButton.progress (App.holds before) = [(295000 # 3000)%Q]
   /\ List.map App.tid (App.timers before) = [1%nat])
  /\ (App.log after = [(4000, App.Success)]
      /\ App.currentView after = App.Settings
      /\ App.showParentalGate after = false).
Proof. vm_compute. repeat split. Qed.

(** The interval left behind is never cleared: after the settings are closed
    again it calls the success handler on its next tick, and the settings
    are back. *)
Example leaked_interval_reopens_the_settings :
  let w := App.run App.initialWorld
             [ (0, App.SettingsClick (1 # 3) (17 # 20) 0);
               (1000, App.HoldStart); (1010, App.HoldStart);
               (1100, App.HoldStop); (1200, App.HoldStop);
               (4010, App.SettingsClose); (4049, App.Wait) ] in
  App.currentView w = App.Grid
  /\ App.currentView (App.run w [ (4050, App.Wait) ]) = App.Settings
  /\ App.log (App.run w [ (4050, App.Wait) ])
     = [(4000, App.Success); (4050, App.Success)].
Proof. vm_compute. repeat split. Qed.

End Hold.

(* ------------------------------------------------------------------------ *)
(** ** The cancel delay *)

Section CancelDelay.

Local Open Scope Z_scope.

(** C9 fails on the code: [handleSubmit] arms the delay on every wrong
    submission from the third on, and nothing ever clears it. Here the
    third and a fourth wrong answer (at 3000 ms and 3500 ms) arm two
    delays for one gate; the gate is cancelled by hand at 3600 ms and a new
    one is opened at 4000 ms; the first delay fires at 4500 ms and closes
    the new gate, which has seen no answer at all; the second fires at
    5000 ms with no gate shown. *)
Example cancel_delay_outlives_its_gate :
  let first := [ (0, App.SettingsClick (1 # 3) (17 # 20) 0);
                 (1000, App.InputChange (js "1")); (1000, App.Submit);
                 (2000, App.InputChange (js "2")); (2000, App.Submit);
                 (3000, App.InputChange (js "3")); (3000, App.Submit);
                 (3500, App.InputChange (js "4")); (3500, App.Submit);
                 (3600, App.CancelClick) ] in
  let closed := App.run App.initialWorld first in
  let reopened := App.run closed
                    [ (4000, App.SettingsClick (1 # 3) (17 # 20) 0);
                      (4499, App.Wait) ] in
  let struck := App.run reopened [ (4500, App.Wait) ] in
  let last := App.run struck [ (5000, App.Wait) ] in
  (App.showParentalGate closed = false
   /\ List.map App.kind (App.timers closed)
      = [App.CancelTimeout; App.CancelTimeout]
   /\ List.map App.due (App.timers closed) = [4500; 5000])
  /\ (App.showParentalGate reopened = true
      /\ option_map (fun g => ParentalGate.attempts (snd g)) (App.gate reopened)
         = Some 0%nat
      /\ App.log reopened = [(3600, App.Cancel)])
  /\ (App.showParentalGate struck = false
      /\ App.log struck = [(3600, App.Cancel); (4500, App.Cancel)])
  /\ App.log last = [(3600, App.Cancel); (4500, App.Cancel); (5000, App.Cancel)].
Proof. vm_compute. repeat split. Qed.

End CancelDelay.

(* ------------------------------------------------------------------------ *)
(** ** JSON text of strings *)

Section JsonStrings.

Import Json.

Local Open Scope N_scope.

Lemma hexValue_hexDigit (d : N) : d < 16 -> hexValue (hexDigit d) = Some d.
Proof.
  intros H.
  assert (Hd : d = 0 \/ d = 1 \/ d = 2 \/ d = 3 \/ d = 4 \/ d = 5 \/ d = 6
               \/ d = 7 \/ d = 8 \/ d = 9 \/ d = 10 \/ d = 11 \/ d = 12
               \/ d = 13 \/ d = 14 \/ d = 15) by lia.
  repeat (destruct Hd as [-> | Hd]; [reflexivity|]). now subst.
Qed.

Lemma hex4_value (c : code_unit) :
  c < 65536 ->
  c / 4096 < 16 /\ (c / 256) mod 16 < 16 /\ (c / 16) mod 16 < 16 /\ c mod 16 < 16
  /\ 4096 * (c / 4096) + 256 * ((c / 256) mod 16) + 16 * ((c / 16) mod 16)
     + c mod 16 = c.
Proof. intros H. zify. Z.to_euclidean_division_equations. lia. Qed.

Lemma parseChars_hex4 (c : code_unit) (t : jsstring) :
  c < 65536 -> parseChars (hex4 c ++ t) = consFst c (parseChars t).
Proof.
  intros H. destruct (hex4_value H) as (H1 & H2 & H3 & H4 & Hv).
  unfold hex4. cbn [app].
  change (parseChars (92 :: 117 :: hexDigit (c / 4096)
                        :: hexDigit ((c / 256) mod 16)
                        :: hexDigit ((c / 16) mod 16)
                        :: hexDigit (c mod 16) :: t))
    with (match hexValue (hexDigit (c / 4096)),
                hexValue (hexDigit ((c / 256) mod 16)),
                hexValue (hexDigit ((c / 16) mod 16)),
                hexValue (hexDigit (c mod 16)) with
          | Some a, Some b, Some c', Some d =>
              consFst (4096 * a + 256 * b + 16 * c' + d) (parseChars t)
          | _, _, _, _ => None
          end).
  rewrite !hexValue_hexDigit by assumption. now rewrite Hv.
Qed.

(** A unit that stands for itself inside a JSON string. *)
Lemma parseChars_plain (c : code_unit) (t : jsstring) :
  32 <= c -> c <> 34 -> c <> 92 ->
  parseChars (c :: t) = consFst c (parseChars t).
Proof.
  intros Hge H34 H92. cbn [parseChars]. unfold unit_eqb.
  destruct (N.eqb_spec c 34); [contradiction|].
  destruct (N.eqb_spec c 92); [contradiction|].
  destruct (N.ltb_spec c 32); [lia|reflexivity].
Qed.

Lemma parseChars_escapeUnit (c : code_unit) (t : jsstring) :
  parseChars (escapeUnit c ++ t) = consFst c (parseChars t).
Proof.
  unfold escapeUnit, unit_eqb.
  destruct (N.eqb_spec c 8) as [->|H8]; [reflexivity|].
  destruct (N.eqb_spec c 9) as [->|H9]; [reflexivity|].
  destruct (N.eqb_spec c 10) as [->|H10]; [reflexivity|].
  destruct (N.eqb_spec c 12) as [->|H12]; [reflexivity|].
  destruct (N.eqb_spec c 13) as [->|H13]; [reflexivity|].
  destruct (N.eqb_spec c 34) as [->|H34]; [reflexivity|].
  destruct (N.eqb_spec c 92) as [->|H92]; [reflexivity|].
  destruct (N.ltb_spec c 32) as [Hlt|Hge].
  - apply parseChars_hex4. lia.
  - cbn [app]. now apply parseChars_plain.
Qed.

Lemma surrogate_range (c : code_unit) :
  isHighSurrogate c = true \/ isLowSurrogate c = true ->
  55296 <= c <= 57343.
Proof.
  unfold isHighSurrogate, isLowSurrogate, in_range.
  rewrite !andb_true_iff, !N.leb_le. lia.
Qed.

Lemma quoteBody_cons (c : code_unit) (s' : jsstring) :
  quoteBody (c :: s')
  = if isHighSurrogate c then
      match s' with
      | d :: s'' =>
          if isLowSurrogate d then c :: d :: quoteBody s''
          else hex4 c ++ quoteBody s'
      | [] => hex4 c ++ quoteBody s'
      end
    else if isLowSurrogate c then hex4 c ++ quoteBody s'
    else escapeUnit c ++ quoteBody s'.
Proof. reflexivity. Qed.

Lemma parseChars_quoteBody_bounded (n : nat) :
  forall s rest, (List.length s <= n)%nat ->
    parseChars (quoteBody s ++ 34 :: rest) = Some (s, rest).
Proof.
  induction n as [|n IH]; intros s rest Hlen.
  - destruct s; [reflexivity | simpl in Hlen; lia].
  - destruct s as [|c s']; [reflexivity|].
    simpl in Hlen. rewrite quoteBody_cons.
    assert (IH' : parseChars (quoteBody s' ++ 34 :: rest) = Some (s', rest))
      by (apply IH; lia).
    destruct (isHighSurrogate c) eqn:Hh.
    + pose proof (surrogate_range c (or_introl Hh)) as Hc.
      destruct s' as [|d s''].
      * rewrite <- app_assoc, parseChars_hex4 by lia. now rewrite IH'.
      * destruct (isLowSurrogate d) eqn:Hl.
        -- pose proof (surrogate_range d (or_intror Hl)) as Hd.
           cbn [app]. rewrite !parseChars_plain by lia.
           rewrite IH by (simpl in Hlen; lia). reflexivity.
        -- rewrite <- app_assoc, parseChars_hex4 by lia. now rewrite IH'.
    + destruct (isLowSurrogate c) eqn:Hl.
      * pose proof (surrogate_range c (or_intror Hl)) as Hc.
        rewrite <- app_assoc, parseChars_hex4 by lia. now rewrite IH'.
      * rewrite <- app_assoc, parseChars_escapeUnit. now rewrite IH'.
Qed.

(** Reading back a quoted string gives the string, unit for unit. *)
Lemma parseChars_quoteBody (s rest : jsstring) :
  parseChars (quoteBody s ++ 34 :: rest) = Some (s, rest).
Proof. now apply (@parseChars_quoteBody_bounded (List.length s)). Qed.

End JsonStrings.

(* ------------------------------------------------------------------------ *)
(** ** The budget of the parser *)

Section JsonUnfold.

Import Json.

Local Open Scope N_scope.

(** The three functions, one step unfolded. *)
Lemma parseValue_S (fuel' : nat) (s : jsstring) :
  parseValue (S fuel') s
  = match skipWs s with
    | [] => None
    | c :: r =>
        if unit_eqb c 34 then
          match parseChars r with
          | Some (str, rest) => Some (JString str, rest)
          | None => None
          end
        else if unit_eqb c 91 then
          match skipWs r with
          | d :: r' =>
              if unit_eqb d 93 then Some (JArray [], r')
              else
                match parseElements fuel' r with
                | Some (items, rest) => Some (JArray items, rest)
                | None => None
                end
          | [] => None
          end
        else if unit_eqb c 123 then
          match skipWs r with
          | d :: r' =>
              if unit_eqb d 125 then Some (JObject [], r')
              else
                match parseMembers fuel' r with
                | Some (members, rest) => Some (mkObject members, rest)
                | None => None
                end
          | [] => None
          end
        else if unit_eqb c 110 then literal (js "null") JNull (c :: r)
        else if unit_eqb c 116 then literal (js "true") (JBool true) (c :: r)
        else if unit_eqb c 102 then literal (js "false") (JBool false) (c :: r)
        else
          match lexNumber (c :: r) with
          | Some (lexeme, rest) => Some (JNumber lexeme, rest)
          | None => None
          end
    end.
Proof. reflexivity. Qed.

Lemma parseElements_S (fuel' : nat) (s : jsstring) :
  parseElements (S fuel') s
  = match parseValue fuel' s with
    | None => None
    | Some (v, rest) =>
        match skipWs rest with
        | c :: r =>
            if unit_eqb c 93 then Some ([v], r)
            else if unit_eqb c 44 then
              match parseElements fuel' r with
              | Some (vs, rest') => Some (v :: vs, rest')
              | None => None
              end
            else None
        | [] => None
        end
    end.
Proof. reflexivity. Qed.

Lemma parseMembers_S (fuel' : nat) (s : jsstring) :
  parseMembers (S fuel') s
  = match skipWs s with
    | q :: r0 =>
        if unit_eqb q 34 then
          match parseChars r0 with
          | None => None
          | Some (k, r1) =>
              match skipWs r1 with
              | colon :: r2 =>
                  if unit_eqb colon 58 then
                    match parseValue fuel' r2 with
                    | None => None
                    | Some (v, rest) =>
                        match skipWs rest with
                        | c :: r =>
                            if unit_eqb c 125 then Some ([(k, v)], r)
                            else if unit_eqb c 44 then
                              match parseMembers fuel' r with
                              | Some (ms, rest') => Some ((k, v) :: ms, rest')
                              | None => None
                              end
                            else None
                        | [] => None
                        end
                    end
                  else None
              | [] => None
              end
          end
        else None
    | [] => None
    end.
Proof. reflexivity. Qed.

End JsonUnfold.

Section JsonBudget.

Import Json.

Local Open Scope nat_scope.

Lemma dropWhile_length (p : code_unit -> bool) (s : jsstring) :
  List.length (dropWhile p s) <= List.length s.
Proof.
  induction s as [|c s IH]; simpl; [lia|].
  destruct (p c); simpl; lia.
Qed.

Lemma skipWs_cons (s r : jsstring) (c : code_unit) :
  skipWs s = c :: r -> S (List.length r) <= List.length s.
Proof.
  intros H. pose proof (dropWhile_length isJsonWs s) as Hl.
  unfold skipWs in H. rewrite H in Hl. exact Hl.
Qed.

Lemma consFst_some (c : code_unit) (x : option (jsstring * jsstring))
      (k r : jsstring) :
  consFst c x = Some (k, r) -> exists k', x = Some (k', r).
Proof.
  destruct x as [[k' r']|]; simpl; [|discriminate].
  intros H. inversion H; subst. now exists k'.
Qed.

Lemma parseChars_shorter_bounded (n : nat) :
  forall s k r, List.length s <= n -> parseChars s = Some (k, r) ->
    List.length r < List.length s.
Proof.
  induction n as [|n IH]; intros s k r Hn H.
  - destruct s; [discriminate H | simpl in Hn; lia].
  - destruct s as [|c s]; [discriminate H|]. simpl in Hn.
    cbn [parseChars] in H.
    destruct (unit_eqb c 34%N); [inversion H; subst; simpl; lia|].
    destruct (unit_eqb c 92%N).
    + destruct s as [|e s]; [discriminate H|].
      destruct (unit_eqb e 117%N).
      * destruct s as [|h1 [|h2 [|h3 [|h4 s]]]]; try discriminate H.
        destruct (hexValue h1), (hexValue h2), (hexValue h3), (hexValue h4);
          try discriminate H.
        apply consFst_some in H as (k' & H).
        apply IH in H; simpl in *; lia.
      * destruct (unescape e); [|discriminate H].
        apply consFst_some in H as (k' & H).
        apply IH in H; simpl in *; lia.
    + destruct (N.ltb c 32%N); [discriminate H|].
      apply consFst_some in H as (k' & H).
      apply IH in H; simpl in *; lia.
Qed.

Lemma parseChars_shorter (s k r : jsstring) :
  parseChars s = Some (k, r) -> List.length r < List.length s.
Proof. now apply (@parseChars_shorter_bounded (List.length s)). Qed.

Lemma spanDigits_length (s : jsstring) :
  List.length (snd (spanDigits s)) <= List.length s.
Proof.
  induction s as [|c s IH]; simpl; [lia|].
  destruct (isDigit c); [|simpl; lia].
  destruct (spanDigits s) as [ds rest]. simpl in *. lia.
Qed.

Lemma lexSign_length (s : jsstring) :
  List.length (snd (lexSign s)) <= List.length s.
Proof.
  destruct s as [|c r]; simpl; [lia|]. destruct (unit_eqb c 45%N); simpl; lia.
Qed.

Lemma lexInt_shorter (s i r : jsstring) :
  lexInt s = Some (i, r) -> List.length r < List.length s.
Proof.
  destruct s as [|c s]; simpl; [discriminate|].
  destruct (unit_eqb c 48%N); [intros H; inversion H; subst; lia|].
  destruct (in_range 49%N 57%N c); [|discriminate].
  pose proof (spanDigits_length s) as Hl.
  destruct (spanDigits s) as [ds rest]. intros H. inversion H; subst.
  simpl in Hl. lia.
Qed.

Lemma lexFrac_length (s f r : jsstring) :
  lexFrac s = Some (f, r) -> List.length r <= List.length s.
Proof.
  destruct s as [|c s]; simpl; [intros H; inversion H; subst; simpl; lia|].
  destruct (unit_eqb c 46%N); [|intros H; inversion H; subst; simpl; lia].
  pose proof (spanDigits_length s) as Hl.
  destruct (spanDigits s) as [[|d ds] rest]; [discriminate|].
  intros H. inversion H; subst. simpl in Hl. lia.
Qed.

Lemma lexExp_length (s e r : jsstring) :
  lexExp s = Some (e, r) -> List.length r <= List.length s.
Proof.
  destruct s as [|c s]; simpl; [intros H; inversion H; subst; simpl; lia|].
  destruct (unit_eqb c 101%N || unit_eqb c 69%N);
    [|intros H; inversion H; subst; simpl; lia].
  assert (Hs : forall esign r',
             (esign, r') = match s with
                           | d :: r0 =>
                               if unit_eqb d 43%N || unit_eqb d 45%N
                               then ([d], r0) else ([], s)
                           | [] => ([], s)
                           end ->
             List.length r' <= List.length s).
  { intros esign r'. destruct s as [|d r0]; [intros H; inversion H; simpl; lia|].
    destruct (unit_eqb d 43%N || unit_eqb d 45%N); intros H; inversion H; simpl; lia. }
  destruct (match s with
            | d :: r0 =>
                if unit_eqb d 43%N || unit_eqb d 45%N then ([d], r0) else ([], s)
            | [] => ([], s)
            end) as [esign r'] eqn:Hr.
  specialize (Hs esign r' eq_refl).
  pose proof (spanDigits_length r') as Hl.
  destruct (spanDigits r') as [[|d ds] rest]; [discriminate|].
  intros H. inversion H; subst. simpl in Hl. lia.
Qed.

Lemma lexNumber_shorter (s l r : jsstring) :
  lexNumber s = Some (l, r) -> List.length r < List.length s.
Proof.
  unfold lexNumber. pose proof (lexSign_length s) as Hs.
  destruct (lexSign s) as [sign s1]. simpl in Hs.
  destruct (lexInt s1) as [[ipart s2]|] eqn:Hi; [|discriminate].
  destruct (lexFrac s2) as [[fpart s3]|] eqn:Hf; [|discriminate].
  destruct (lexExp s3) as [[epart s4]|] eqn:He; [|discriminate].
  intros H. inversion H; subst.
  apply lexInt_shorter in Hi. apply lexFrac_length in Hf.
  apply lexExp_length in He. lia.
Qed.

Lemma literal_shorter (name : jsstring) (v w : value) (s r : jsstring) :
  name <> [] -> literal name v s = Some (w, r) ->
  List.length r < List.length s.
Proof.
  intros Hne. unfold literal.
  destruct (stripPrefix name s) as [rest|] eqn:Hp; [|discriminate].
  intros H. inversion H; subst. apply stripPrefix_length in Hp.
  destruct name; [congruence | simpl in Hp; lia].
Qed.

(** Takes the outermost case distinction of [H : match ... end = _]. *)
Ltac split_match H :=
  lazymatch type of H with
  | match ?x with _ => _ end = _ =>
      let E := fresh "E" in destruct x eqn:E; try discriminate H
  end.

(** Turns what is known of the pieces read so far into facts on lengths. *)
Ltac length_facts :=
  repeat match goal with
         | E : skipWs _ = _ :: _ |- _ => apply skipWs_cons in E
         | E : parseChars _ = Some (_, _) |- _ => apply parseChars_shorter in E
         | E : lexNumber _ = Some (_, _) |- _ => apply lexNumber_shorter in E
         | E : literal _ _ _ = Some (_, _) |- _ =>
             apply literal_shorter in E; [|discriminate]
         end.

(** Every successful call consumes input. *)
Lemma parse_consumes (fuel : nat) :
  (forall s v r, parseValue fuel s = Some (v, r) ->
     List.length r < List.length s)
  /\ (forall s vs r, parseElements fuel s = Some (vs, r) ->
        List.length r < List.length s)
  /\ (forall s ms r, parseMembers fuel s = Some (ms, r) ->
        List.length r < List.length s).
Proof.
  induction fuel as [|fuel (IHV & IHE & IHM)];
    [repeat split; intros; discriminate|].
  repeat split; intros s x r H.
  - rewrite parseValue_S in H. repeat split_match H;
      repeat match goal with
             | E : parseElements fuel _ = Some _ |- _ => apply IHE in E
             | E : parseMembers fuel _ = Some _ |- _ => apply IHM in E
             end;
      try (inversion H; subst); length_facts; simpl in *; lia.
  - rewrite parseElements_S in H. repeat split_match H;
      repeat match goal with
             | E : parseValue fuel _ = Some _ |- _ => apply IHV in E
             | E : parseElements fuel _ = Some _ |- _ => apply IHE in E
             end;
      try (inversion H; subst); length_facts; simpl in *; lia.
  - rewrite parseMembers_S in H. repeat split_match H;
      repeat match goal with
             | E : parseValue fuel _ = Some _ |- _ => apply IHV in E
             | E : parseMembers fuel _ = Some _ |- _ => apply IHM in E
             end;
      try (inversion H; subst); length_facts; simpl in *; lia.
Qed.

(** With a budget of twice the length of the input and two more, a larger
    budget changes nothing: a call that finds no value finds none for want
    of a well-formed input, never for want of budget. *)
Lemma parse_budget_stable (n : nat) :
  (forall s f1 f2, List.length s < n -> 2 * n <= f1 -> 2 * n <= f2 ->
     parseValue f1 s = parseValue f2 s)
  /\ (forall s f1 f2, List.length s < n -> 2 * n + 1 <= f1 -> 2 * n + 1 <= f2 ->
        parseElements f1 s = parseElements f2 s)
  /\ (forall s f1 f2, List.length s < n -> 2 * n + 1 <= f1 -> 2 * n + 1 <= f2 ->
        parseMembers f1 s = parseMembers f2 s).
Proof.
  induction n as [|n (IHV & IHE & IHM)]; [repeat split; intros; lia|].
  assert (HV : forall s f1 f2,
             List.length s < S n -> 2 * S n <= f1 -> 2 * S n <= f2 ->
             parseValue f1 s = parseValue f2 s).
  { intros s f1 f2 Hs H1 H2.
    destruct f1 as [|f1]; [lia|]. destruct f2 as [|f2]; [lia|].
    rewrite !parseValue_S.
    destruct (skipWs s) as [|c r] eqn:E; [reflexivity|]. apply skipWs_cons in E.
    destruct (unit_eqb c 34%N); [reflexivity|].
    destruct (unit_eqb c 91%N).
    { destruct (skipWs r) as [|d r']; [reflexivity|].
      destruct (unit_eqb d 93%N); [reflexivity|].
      now rewrite (IHE r f1 f2) by lia. }
    destruct (unit_eqb c 123%N); [|reflexivity].
    destruct (skipWs r) as [|d r']; [reflexivity|].
    destruct (unit_eqb d 125%N); [reflexivity|].
    now rewrite (IHM r f1 f2) by lia. }
  split; [exact HV|]. split.
  - intros s f1 f2 Hs H1 H2.
    destruct f1 as [|f1]; [lia|]. destruct f2 as [|f2]; [lia|].
    rewrite !parseElements_S. rewrite (HV s f1 f2) by lia.
    destruct (parseValue f2 s) as [[v rest]|] eqn:Ev; [|reflexivity].
    apply (proj1 (parse_consumes f2)) in Ev.
    destruct (skipWs rest) as [|c r] eqn:E; [reflexivity|]. apply skipWs_cons in E.
    destruct (unit_eqb c 93%N); [reflexivity|].
    destruct (unit_eqb c 44%N); [|reflexivity].
    now rewrite (IHE r f1 f2) by lia.
  - intros s f1 f2 Hs H1 H2.
    destruct f1 as [|f1]; [lia|]. destruct f2 as [|f2]; [lia|].
    rewrite !parseMembers_S.
    destruct (skipWs s) as [|q r0] eqn:E0; [reflexivity|]. apply skipWs_cons in E0.
    destruct (unit_eqb q 34%N); [|reflexivity].
    destruct (parseChars r0) as [[k r1]|] eqn:Ek; [|reflexivity].
    apply parseChars_shorter in Ek.
    destruct (skipWs r1) as [|colon r2] eqn:E1; [reflexivity|].
    apply skipWs_cons in E1.
    destruct (unit_eqb colon 58%N); [|reflexivity].
    rewrite (IHV r2 f1 f2) by lia.
    destruct (parseValue f2 r2) as [[v rest]|] eqn:Ev; [|reflexivity].
    apply (proj1 (parse_consumes f2)) in Ev.
    destruct (skipWs rest) as [|c r] eqn:E; [reflexivity|]. apply skipWs_cons in E.
    destruct (unit_eqb c 125%N); [reflexivity|].
    destruct (unit_eqb c 44%N); [|reflexivity].
    now rewrite (IHM r f1 f2) by lia.
Qed.

(** [parse] gives [JSON.parse] all the budget it can use. *)
Lemma parse_budget_is_enough (text : jsstring) (fuel : nat) :
  2 * List.length text + 2 <= fuel ->
  parseValue fuel text = parseValue (2 * List.length text + 2) text.
Proof.
  intros H.
  apply (proj1 (parse_budget_stable (S (List.length text)))); lia.
Qed.

End JsonBudget.

(* ------------------------------------------------------------------------ *)
(** ** The persisted library *)

Section Persisted.

Import Json.

Local Open Scope N_scope.

(** A member whose value is a string, and its text. *)
Definition stringMember (kv : jsstring * jsstring) : jsstring * value :=
  (fst kv, JString (snd kv)).

Definition memberText (kv : jsstring * jsstring) : jsstring :=
  quote (fst kv) ++ 58 :: quote (snd kv).

Lemma memberText_app (kv : jsstring * jsstring) (t : jsstring) :
  memberText kv ++ t
  = 34 :: quoteBody (fst kv) ++ 34 :: 58 :: 34 :: quoteBody (snd kv) ++ 34 :: t.
Proof.
  unfold memberText, quote. cbn [app].
  now rewrite <- !app_assoc; cbn [app]; rewrite <- !app_assoc.
Qed.

Lemma stringify_string_object (ms : list (jsstring * jsstring)) :
  stringify (JObject (List.map stringMember ms))
  = 123 :: joinComma (List.map memberText ms) ++ [125].
Proof.
  cbn [stringify]. now rewrite map_map.
Qed.

Lemma skipWs_token (c : code_unit) (t : jsstring) :
  isJsonWs c = false -> skipWs (c :: t) = c :: t.
Proof. intros H. unfold skipWs. cbn [dropWhile]. now rewrite H. Qed.

(** A string value, read back. *)
Lemma parseValue_string (fuel : nat) (s rest : jsstring) :
  parseValue (S fuel) (34 :: quoteBody s ++ 34 :: rest)
  = Some (JString s, rest).
Proof.
  cbn [parseValue]. rewrite skipWs_token by reflexivity.
  change (unit_eqb 34 34) with true. cbv iota.
  now rewrite parseChars_quoteBody.
Qed.

(** One member whose value is a string, read back: what follows it decides
    whether the object ends or another member is read. *)
Lemma parseMembers_member (fuel : nat) (kv : jsstring * jsstring) (t : jsstring) :
  parseMembers (S (S fuel)) (memberText kv ++ t)
  = match skipWs t with
    | c :: r =>
        if unit_eqb c 125 then Some ([stringMember kv], r)
        else if unit_eqb c 44 then
          match parseMembers (S fuel) r with
          | Some (ms, rest') => Some (stringMember kv :: ms, rest')
          | None => None
          end
        else None
    | [] => None
    end.
Proof.
  rewrite memberText_app.
  change (parseMembers (S (S fuel)) ?x)
    with (match skipWs x with
          | q :: r0 =>
              if unit_eqb q 34 then
                match parseChars r0 with
                | None => None
                | Some (k, r1) =>
                    match skipWs r1 with
                    | colon :: r2 =>
                        if unit_eqb colon 58 then
                          match parseValue (S fuel) r2 with
                          | None => None
                          | Some (v, rest) =>
                              match skipWs rest with
                              | c :: r =>
                                  if unit_eqb c 125 then Some ([(k, v)], r)
                                  else if unit_eqb c 44 then
                                    match parseMembers (S fuel) r with
                                    | Some (ms, rest') => Some ((k, v) :: ms, rest')
                                    | None => None
                                    end
                                  else None
                              | [] => None
                              end
                          end
                        else None
                    | [] => None
                    end
                end
              else None
          | [] => None
          end).
  rewrite skipWs_token by reflexivity.
  change (unit_eqb 34 34) with true. cbv iota.
  rewrite parseChars_quoteBody.
  rewrite skipWs_token by reflexivity.
  change (unit_eqb 58 58) with true. cbv iota.
  rewrite parseValue_string. reflexivity.
Qed.

Lemma parseMembers_strings (ms : list (jsstring * jsstring)) :
  forall rest fuel,
    ms <> [] -> (List.length ms < fuel)%nat ->
    parseMembers fuel (joinComma (List.map memberText ms) ++ 125 :: rest)
    = Some (List.map stringMember ms, rest).
Proof.
  induction ms as [|kv ms IH]; intros rest fuel Hne Hfuel; [congruence|].
  destruct fuel as [|[|fuel]]; [simpl in Hfuel; lia | simpl in Hfuel; lia |].
  destruct ms as [|kv' ms].
  - cbn [List.map joinComma]. rewrite parseMembers_member.
    rewrite skipWs_token by reflexivity. reflexivity.
  - change (joinComma (List.map memberText (kv :: kv' :: ms)))
      with (memberText kv ++ 44 :: joinComma (List.map memberText (kv' :: ms))).
    rewrite <- app_assoc. cbn [app]. rewrite parseMembers_member.
    rewrite skipWs_token by reflexivity.
    change (unit_eqb 44 125) with false. change (unit_eqb 44 44) with true.
    cbv iota.
    rewrite IH; [reflexivity | discriminate | simpl in *; lia].
Qed.

Definition entryMembers (v : VideoEntry) : list (jsstring * jsstring) :=
  [ (js "id", id v); (js "title", title v);
    (js "emoji", emoji v); (js "color", color v) ].

Lemma entryValue_members (v : VideoEntry) :
  App.entryValue v = JObject (List.map stringMember (entryMembers v)).
Proof. reflexivity. Qed.

(** The text of an entry opens with a brace and a quote. *)
Lemma stringify_entry (v : VideoEntry) :
  exists t,
    stringify (App.entryValue v) = 123 :: 34 :: t
    /\ forall rest,
         (123 :: 34 :: t) ++ rest
         = 123 :: joinComma (List.map memberText (entryMembers v))
                  ++ 125 :: rest.
Proof.
  rewrite entryValue_members, stringify_string_object.
  cbn [entryMembers List.map joinComma]. rewrite memberText_app.
  cbn [app]. eexists. split; [reflexivity|].
  intros rest. cbn [app]. rewrite <- !app_assoc. cbn [app].
  now rewrite <- !app_assoc.
Qed.

Lemma parseValue_entry (v : VideoEntry) (rest : jsstring) (fuel : nat) :
  (5 < fuel)%nat ->
  parseValue fuel (stringify (App.entryValue v) ++ rest)
  = Some (App.entryValue v, rest).
Proof.
  intros Hfuel. destruct fuel as [|fuel]; [lia|].
  destruct (stringify_entry v) as (t & Ht & Happ).
  rewrite Ht, Happ.
  assert (Hq : exists u, joinComma (List.map memberText (entryMembers v))
                          ++ 125 :: rest = 34 :: u).
  { cbn [entryMembers List.map joinComma]. rewrite <- app_assoc.
    rewrite memberText_app. eexists. reflexivity. }
  destruct Hq as (u & Hu).
  assert (Hm := @parseMembers_strings (entryMembers v) rest fuel
                  ltac:(discriminate) ltac:(simpl; lia)).
  rewrite Hu in Hm |- *.
  change (parseValue (S fuel) (123 :: 34 :: u))
    with (match parseMembers fuel (34 :: u) with
          | Some (members, rest') => Some (mkObject members, rest')
          | None => None
          end).
  now rewrite Hm.
Qed.

Definition entryText (v : VideoEntry) : jsstring := stringify (App.entryValue v).

Lemma parseElements_entries (lib : Library) :
  forall rest fuel,
    lib <> [] -> (List.length lib + 5 < fuel)%nat ->
    parseElements fuel (joinComma (List.map entryText lib) ++ 93 :: rest)
    = Some (List.map App.entryValue lib, rest).
Proof.
  induction lib as [|v lib IH]; intros rest fuel Hne Hfuel; [congruence|].
  destruct fuel as [|fuel]; [lia|]. simpl in Hfuel.
  destruct lib as [|v' lib].
  - cbn [List.map joinComma parseElements]. unfold entryText.
    rewrite parseValue_entry by lia.
    rewrite skipWs_token by reflexivity. reflexivity.
  - change (joinComma (List.map entryText (v :: v' :: lib)))
      with (entryText v ++ 44 :: joinComma (List.map entryText (v' :: lib))).
    rewrite <- app_assoc. cbn [app parseElements]. unfold entryText at 1.
    rewrite parseValue_entry by lia.
    rewrite skipWs_token by reflexivity.
    change (unit_eqb 44 93) with false. change (unit_eqb 44 44) with true.
    cbv iota.
    rewrite IH; [reflexivity | discriminate | simpl in *; lia].
Qed.

Lemma joinComma_length (m : nat) (parts : list jsstring) :
  Forall (fun p => (m <= List.length p)%nat) parts ->
  (m * List.length parts <= List.length (joinComma parts))%nat.
Proof.
  induction 1 as [|p parts Hp Hparts IH]; [simpl; lia|].
  destruct parts as [|p' parts]; [simpl; lia|].
  change (joinComma (p :: p' :: parts)) with (p ++ 44 :: joinComma (p' :: parts)).
  rewrite length_app. simpl in *. lia.
Qed.

Lemma entryText_length (v : VideoEntry) : (10 <= List.length (entryText v))%nat.
Proof.
  unfold entryText. rewrite entryValue_members, stringify_string_object.
  cbn [entryMembers List.map joinComma]. unfold memberText, quote.
  repeat (rewrite length_app || cbn [List.length fst snd]). lia.
Qed.

(** [JSON.parse(JSON.stringify(library))] is the library. *)
Lemma parse_stringify_library (lib : Library) :
  parse (stringify (App.libraryValue lib)) = Some (App.libraryValue lib).
Proof.
  destruct lib as [|v lib]; [reflexivity|].
  unfold App.libraryValue. set (l := v :: lib).
  assert (Htext : stringify (JArray (List.map App.entryValue l))
                  = 91 :: joinComma (List.map entryText l) ++ [93]).
  { cbn [stringify]. now rewrite map_map. }
  assert (Hq : exists u, joinComma (List.map entryText l) ++ [93] = 123 :: u).
  { subst l. destruct (stringify_entry v) as (t & Ht & _).
    destruct lib as [|v' lib]; cbn [List.map joinComma]; unfold entryText at 1;
      rewrite Ht; eexists; reflexivity. }
  destruct Hq as (u & Hu).
  assert (Hlen : (10 * List.length l
                  <= List.length (joinComma (List.map entryText l)))%nat).
  { rewrite <- (length_map entryText l). apply joinComma_length.
    apply Forall_forall. intros p Hin.
    apply in_map_iff in Hin as (e & <- & _). apply entryText_length. }
  unfold parse. rewrite Htext.
  match goal with
  | |- context [parseValue ?n _] =>
      assert (Hfuel : exists f, n = S f /\ (List.length l + 5 < f)%nat)
  end.
  { match goal with
    | |- exists f, ?n = S f /\ _ => exists (Nat.pred n)
    end.
    cbn [List.length]. rewrite length_app. cbn [List.length].
    assert (1 <= List.length l)%nat by (subst l; simpl; lia). lia. }
  destruct Hfuel as (f & -> & Hf).
  assert (He := @parseElements_entries l [] f ltac:(subst l; discriminate) Hf).
  rewrite Hu in He |- *.
  change (parseValue (S f) (91 :: 123 :: u))
    with (match parseElements f (123 :: u) with
          | Some (items, rest) => Some (JArray items, rest)
          | None => None
          end).
  now rewrite He.
Qed.

End Persisted.

(* ------------------------------------------------------------------------ *)
(** ** Saving and reloading the library *)

Section Reload.

Lemma entryValue_inj (v v' : VideoEntry) :
  App.entryValue v = App.entryValue v' -> v = v'.
Proof.
  destruct v, v'. unfold App.entryValue. cbn [id title emoji color].
  intros H. now inversion H.
Qed.

Lemma libraryValue_inj (lib : Library) :
  forall lib', App.libraryValue lib = App.libraryValue lib' -> lib = lib'.
Proof.
  unfold App.libraryValue.
  induction lib as [|v lib IH]; intros [|v' lib'] H; cbn [List.map] in H;
    try reflexivity; try discriminate H.
  injection H as Hid Htitle Hemoji Hcolor Hrest. f_equal.
  - destruct v, v'. cbn in *. congruence.
  - apply IH. now rewrite Hrest.
Qed.

Lemma saved_text_not_empty (lib : Library) :
  Json.stringify (App.libraryValue lib) <> [].
Proof. unfold App.libraryValue. cbn [Json.stringify]. discriminate. Qed.

(** C5. Whatever the default library, a library that is saved and then
    loaded at startup is loaded as itself: the loaded value is the value of
    a sequence of entries exactly when that sequence is the saved one, entry
    for entry and in the same order. *)
Theorem saved_library_reloads_as_itself (videos lib lib' : Library) :
  App.initialVideoLibrary videos (App.saveLibrary (App.libraryValue lib))
  = App.libraryValue lib'
  <-> lib' = lib.
Proof.
  assert (Hload : App.initialVideoLibrary videos
                    (App.saveLibrary (App.libraryValue lib))
                  = App.libraryValue lib).
  { unfold App.initialVideoLibrary, App.saveLibrary.
    rewrite parse_stringify_library.
    destruct (Json.stringify (App.libraryValue lib)) eqn:Ht; [|reflexivity].
    now apply saved_text_not_empty in Ht. }
  rewrite Hload. split.
  - intros H. symmetry. now apply libraryValue_inj.
  - now intros ->.
Qed.



End Reload.



(* ======================================================================== *)
(** * Further properties of the code *)

(* ------------------------------------------------------------------------ *)
(** ** More on [extractVideoId] *)

Section ExtractMore.

Lemma stripPrefix_some (lit : jsstring) :
  forall s rest, stripPrefix lit s = Some rest -> s = lit ++ rest.
Proof.
  induction lit as [|a lit IH]; intros s rest H; simpl in H.
  - now inversion H.
  - destruct s as [|b s]; [discriminate|].
    unfold unit_eqb in H. destruct (N.eqb_spec a b) as [->|]; [|discriminate].
    simpl. f_equal. now apply IH.
Qed.

Lemma takeIdChars_split (n : nat) (s r : jsstring) :
  takeIdChars n s = Some r -> exists post, s = r ++ post.
Proof.
  intros H. destruct (takeIdChars_some _ _ H) as (_ & _ & ->).
  exists (skipn n s). symmetry. apply firstn_skipn.
Qed.

Lemma matchHere_split (lit s g : jsstring) :
  matchHere lit s = Some g -> exists post, s = lit ++ g ++ post.
Proof.
  unfold matchHere. destruct (stripPrefix lit s) as [rest|] eqn:Hp; [|discriminate].
  intros H. apply stripPrefix_some in Hp. apply takeIdChars_split in H as (post & ->).
  now exists post.
Qed.

Lemma matchGroup1_split (lit : jsstring) :
  forall s g, matchGroup1 lit s = Some g ->
    exists pre post, s = pre ++ lit ++ g ++ post.
Proof.
  induction s as [|c s IH]; intros g H; simpl in H.
  - destruct (matchHere lit []) eqn:Hm; [|discriminate]. inversion H; subst.
    apply matchHere_split in Hm as (post & Hm). now exists [], post.
  - destruct (matchHere lit (c :: s)) eqn:Hm.
    + inversion H; subst. apply matchHere_split in Hm as (post & Hm).
      now exists [], post.
    + destruct (IH _ H) as (pre & post & ->). now exists (c :: pre), post.
Qed.

Lemma firstMatch_split (ps : list jsstring) :
  forall input g, SettingsPanel.firstMatch ps input = Some g ->
    exists p pre post, In p ps /\ input = pre ++ p ++ g ++ post.
Proof.
  induction ps as [|p ps IH]; intros input g H; simpl in H; [discriminate|].
  destruct (matchGroup1 p input) eqn:Hm.
  - inversion H; subst. apply matchGroup1_split in Hm as (pre & post & Hm).
    exists p, pre, post. split; [now left | assumption].
  - destruct (IH _ _ H) as (q & pre & post & Hq & Hi).
    exists q, pre, post. split; [now right | assumption].
Qed.

(** X1. Whatever [extractVideoId] returns is read off the input: the result
    is the whole input, or it stands in the input right after one of the
    four URL patterns; so an input of fewer than 11 characters gives null. *)
Theorem extractVideoId_is_part_of_the_input :
  (forall input g,
      SettingsPanel.extractVideoId input = Some g ->
      input = g
      \/ exists p pre post,
           In p SettingsPanel.patterns /\ input = pre ++ p ++ g ++ post)
  /\ (forall input,
        (List.length input < 11)%nat ->
        SettingsPanel.extractVideoId input = None).
Proof.
  assert (Hpart : forall input g,
             SettingsPanel.extractVideoId input = Some g ->
             input = g
             \/ exists p pre post,
                  In p SettingsPanel.patterns /\ input = pre ++ p ++ g ++ post).
  { intros input g. unfold SettingsPanel.extractVideoId.
    destruct (isBareId input); intros H.
    - left. now inversion H.
    - right. now apply firstMatch_split. }
  split; [exact Hpart|].
  intros input Hlen.
  destruct (SettingsPanel.extractVideoId input) as [g|] eqn:He; [|reflexivity].
  destruct (extractVideoId_some _ He) as [Hg _].
  destruct (Hpart _ _ He) as [-> | (p & pre & post & _ & ->)].
  - lia.
  - rewrite !length_app in Hlen. lia.
Qed.

Lemma extractVideoId_is_part_of_the_input_witness :
  (js "https://youtu.be/dQw4w9WgXcQ?t=42" = js "dQw4w9WgXcQ"
   \/ exists p pre post,
        In p SettingsPanel.patterns
        /\ js "https://youtu.be/dQw4w9WgXcQ?t=42"
           = pre ++ p ++ js "dQw4w9WgXcQ" ++ post)
  /\ SettingsPanel.extractVideoId (js "dQw4w9WgXc") = None.
Proof.
  split.
  - apply (proj1 extractVideoId_is_part_of_the_input). vm_compute. reflexivity.
  - apply (proj2 extractVideoId_is_part_of_the_input). vm_compute. lia.
Defined.

(** A text of identifier characters only holds none of the patterns: each
    has a dot or a slash. *)
Lemma stripPrefix_idChars (lit : jsstring) :
  forall s, forallb isIdChar s = true ->
    existsb (fun c => negb (isIdChar c)) lit = true ->
    stripPrefix lit s = None.
Proof.
  induction lit as [|a lit IH]; intros s Hs Hlit; simpl in *; [discriminate|].
  destruct s as [|b s]; [reflexivity|].
  simpl in Hs. apply andb_true_iff in Hs as [Hb Hs].
  unfold unit_eqb. destruct (N.eqb_spec a b) as [->|]; [|reflexivity].
  rewrite Hb in Hlit. simpl in Hlit. now apply IH.
Qed.

Lemma matchGroup1_idChars (lit : jsstring) :
  existsb (fun c => negb (isIdChar c)) lit = true ->
  forall s, forallb isIdChar s = true -> matchGroup1 lit s = None.
Proof.
  intros Hlit. induction s as [|c s IH]; intros Hs; simpl matchGroup1;
    unfold matchHere; rewrite (stripPrefix_idChars lit _ Hs Hlit);
    [reflexivity|].
  apply IH. simpl in Hs. now apply andb_true_iff in Hs.
Qed.

(** X2. A text made of identifier characters only is taken as an
    identifier exactly when it has 11 of them: shorter and longer ones, the
    empty text among them, give null. *)
Theorem bare_text_needs_11_characters (s : jsstring) :
  forallb isIdChar s = true ->
  SettingsPanel.extractVideoId s
  = if Nat.eqb (List.length s) 11 then Some s else None.
Proof.
  intros Hs. unfold SettingsPanel.extractVideoId.
  destruct (Nat.eqb (List.length s) 11) eqn:Hlen.
  - apply Nat.eqb_eq in Hlen.
    now rewrite (proj2 (isBareId_wellFormed s) (conj Hlen Hs)).
  - apply Nat.eqb_neq in Hlen. rewrite (isBareId_long s Hlen).
    unfold SettingsPanel.patterns, SettingsPanel.firstMatch.
    now rewrite !matchGroup1_idChars by (assumption || reflexivity).
Qed.

Lemma bare_text_needs_11_characters_witness :
  SettingsPanel.extractVideoId (js "dQw4w9WgXcQ0") = None
  /\ SettingsPanel.extractVideoId (js "dQw4w9WgXcQ") = Some (js "dQw4w9WgXcQ").
Proof.
  split.
  - apply (bare_text_needs_11_characters (js "dQw4w9WgXcQ0")).
    vm_compute. reflexivity.
  - apply (bare_text_needs_11_characters (js "dQw4w9WgXcQ")).
    vm_compute. reflexivity.
Defined.

Lemma matchHere_app_more (lit i suffix : jsstring) :
  wellFormedId i -> matchHere lit (lit ++ i ++ suffix) = Some i.
Proof.
  intros [Hlen Hall]. unfold matchHere. rewrite stripPrefix_app.
  rewrite <- Hlen. now apply takeIdChars_all.
Qed.

(** X3. In a watch URL, whatever follows the identifier (further
    parameters, a fragment, anything) is ignored. *)
Theorem watch_url_ignores_what_follows (i suffix : jsstring) :
  List.length i = 11%nat -> forallb isIdChar i = true ->
  SettingsPanel.extractVideoId
    (js "https://www.youtube.com/watch?v=" ++ i ++ suffix) = Some i.
Proof.
  intros Hlen Hall. assert (Hi : wellFormedId i) by now split.
  unfold SettingsPanel.extractVideoId.
  rewrite isBareId_long
    by (rewrite !length_app, Hlen; vm_compute; lia).
  unfold SettingsPanel.patterns, SettingsPanel.firstMatch.
  change (js "https://www.youtube.com/watch?v=")
    with (js "https://www." ++ js "youtube.com/watch?v=").
  rewrite <- app_assoc.
  assert (Hm : matchGroup1 (js "youtube.com/watch?v=")
                 (js "https://www." ++ js "youtube.com/watch?v=" ++ i ++ suffix)
               = Some i).
  { change (js "https://www.") with [104; 116; 116; 112; 115; 58; 47; 47; 119; 119; 119; 46]%N.
    cbn [app]. repeat (rewrite matchGroup1_skip by reflexivity).
    apply matchGroup1_here, matchHere_app_more, Hi. }
  now rewrite Hm.
Qed.

Lemma watch_url_ignores_what_follows_witness :
  SettingsPanel.extractVideoId
    (js "https://www.youtube.com/watch?v=" ++ js "dQw4w9WgXcQ" ++ js "&list=PL1&t=3s")
  = Some (js "dQw4w9WgXcQ").
Proof.
  apply (watch_url_ignores_what_follows (js "dQw4w9WgXcQ") (js "&list=PL1&t=3s"));
    vm_compute; reflexivity.
Defined.

(** X4. The fourth pattern: the /v/ form of an identifier extracts it too. *)
Theorem v_url_extracts_the_identifier (i : jsstring) :
  List.length i = 11%nat -> forallb isIdChar i = true ->
  SettingsPanel.extractVideoId (js "https://www.youtube.com/v/" ++ i) = Some i.
Proof.
  intros Hi Hall. assert (Hw : wellFormedId i) by now split.
  unfold SettingsPanel.extractVideoId.
  rewrite isBareId_long by (rewrite length_app, Hi; vm_compute; discriminate).
  unfold SettingsPanel.patterns, SettingsPanel.firstMatch.
  change (js "https://www.youtube.com/v/")
    with (js "https://www." ++ js "youtube.com/v/").
  rewrite <- app_assoc.
  assert (H1 : matchGroup1 (js "youtube.com/watch?v=")
                 (js "https://www." ++ js "youtube.com/v/" ++ i) = None).
  { eval_js. cbn [app]. repeat (rewrite matchGroup1_skip by reflexivity).
    apply matchGroup1_short. rewrite Hi. simpl. lia. }
  assert (H2 : matchGroup1 (js "youtu.be/")
                 (js "https://www." ++ js "youtube.com/v/" ++ i) = None).
  { eval_js. cbn [app]. repeat (rewrite matchGroup1_skip by reflexivity).
    apply matchGroup1_short. rewrite Hi. simpl. lia. }
  assert (H3 : matchGroup1 (js "youtube.com/embed/")
                 (js "https://www." ++ js "youtube.com/v/" ++ i) = None).
  { eval_js. cbn [app]. repeat (rewrite matchGroup1_skip by reflexivity).
    apply matchGroup1_short. rewrite Hi. simpl. lia. }
  assert (H4 : matchGroup1 (js "youtube.com/v/")
                 (js "https://www." ++ js "youtube.com/v/" ++ i) = Some i).
  { change (js "https://www.") with [104; 116; 116; 112; 115; 58; 47; 47; 119; 119; 119; 46]%N.
    cbn [app]. repeat (rewrite matchGroup1_skip by reflexivity).
    apply matchGroup1_here, matchHere_app, Hw. }
  now rewrite H1, H2, H3, H4.
Qed.

Lemma v_url_extracts_the_identifier_witness :
  SettingsPanel.extractVideoId (js "https://www.youtube.com/v/" ++ js "XqZsoesa55w")
  = Some (js "XqZsoesa55w").
Proof.
  apply (v_url_extracts_the_identifier (js "XqZsoesa55w")); vm_compute; reflexivity.
Defined.

End ExtractMore.

(* ------------------------------------------------------------------------ *)
(** ** The library under the settings panel *)

Section LibraryMore.

(** X5. What a submission of the add form does to the form itself. A
    rejected one keeps what was typed and chosen and leaves the form open,
    and shows one message: invalid id before missing title before duplicate.
    An accepted one hands over the extracted id, the trimmed title and the
    chosen emoji and colour, empties both fields and closes the form. *)
Theorem add_form_outcomes (lib : Library) (st : SettingsPanel.FormState) :
  match SettingsPanel.handleAddVideo lib st with
  | (st', Some v) =>
      st' = SettingsPanel.mkForm false [] [] (SettingsPanel.newVideoEmoji st)
                                 (SettingsPanel.selectedColor st) []
      /\ SettingsPanel.extractVideoId (trim (SettingsPanel.newVideoId st))
         = Some (id v)
      /\ v = mkVideo (id v) (trim (SettingsPanel.newVideoTitle st))
                     (SettingsPanel.newVideoEmoji st)
                     (SettingsPanel.selectedColor st)
      /\ title v <> []
      /\ SettingsPanel.hasId lib (id v) = false
  | (st', None) =>
      st' = SettingsPanel.setError (SettingsPanel.error st') st
      /\ SettingsPanel.error st'
         = match SettingsPanel.extractVideoId
                   (trim (SettingsPanel.newVideoId st)) with
           | None => SettingsPanel.errInvalid
           | Some vid =>
               match trim (SettingsPanel.newVideoTitle st) with
               | [] => SettingsPanel.errNoTitle
               | _ :: _ =>
                   if SettingsPanel.hasId lib vid
                   then SettingsPanel.errDuplicate else []
               end
           end
      /\ SettingsPanel.error st' <> []
  end.
Proof.
  destruct (SettingsPanel.handleAddVideo lib st) as [st' [v|]] eqn:Hh.
  - destruct (handleAddVideo_accepts _ _ Hh) as (He & Ht & Hne & Hfresh).
    revert Hh. unfold SettingsPanel.handleAddVideo.
    cbn [SettingsPanel.setError SettingsPanel.newVideoId
         SettingsPanel.newVideoTitle SettingsPanel.newVideoEmoji
         SettingsPanel.selectedColor SettingsPanel.error].
    rewrite He. destruct (id v) as [|c vid] eqn:Hid.
    { apply extractVideoId_some in He as [Hl _]. discriminate Hl. }
    destruct (trim (SettingsPanel.newVideoTitle st)) as [|t0 ts] eqn:Htr;
      [congruence|].
    rewrite <- Hid in Hfresh |- *. rewrite Hfresh.
    intros H. inversion H; subst st'. repeat split; auto.
    destruct v; cbn in *. congruence.
  - revert Hh. unfold SettingsPanel.handleAddVideo.
    cbn [SettingsPanel.setError SettingsPanel.newVideoId
         SettingsPanel.newVideoTitle SettingsPanel.newVideoEmoji
         SettingsPanel.selectedColor SettingsPanel.error].
    destruct (SettingsPanel.extractVideoId (trim (SettingsPanel.newVideoId st)))
      as [[|c vid]|] eqn:He.
    + apply extractVideoId_some in He as [Hl _]. discriminate Hl.
    + destruct (trim (SettingsPanel.newVideoTitle st)) as [|t0 ts].
      * intros H. inversion H; subst st'. cbn. repeat split. discriminate.
      * destruct (SettingsPanel.hasId lib (c :: vid)); [|discriminate].
        intros H. inversion H; subst st'. cbn. repeat split. discriminate.
    + intros H. inversion H; subst st'. cbn. repeat split. discriminate.
Qed.

Lemma remove_In (lib : Library) (i : jsstring) (v : VideoEntry) :
  In v (App.handleRemoveVideo lib i) <-> In v lib /\ id v <> i.
Proof.
  unfold App.handleRemoveVideo. rewrite filter_In, negb_true_iff.
  split; intros [Hin H]; split; auto.
  - intros Heq. apply jseqb_eq in Heq. congruence.
  - apply not_true_iff_false. intros Heq. now apply jseqb_eq in Heq.
Qed.

Lemma remove_absent (lib : Library) (i : jsstring) :
  SettingsPanel.hasId lib i = false -> App.handleRemoveVideo lib i = lib.
Proof.
  unfold SettingsPanel.hasId, App.handleRemoveVideo.
  induction lib as [|v lib IH]; simpl; [reflexivity|].
  intros H. apply orb_false_iff in H as [Hv Hl]. rewrite Hv. simpl.
  now rewrite IH.
Qed.

Lemma remove_gone (lib : Library) (i : jsstring) :
  SettingsPanel.hasId (App.handleRemoveVideo lib i) i = false.
Proof.
  apply not_true_iff_false. intros H. apply hasId_In in H.
  apply in_map_iff in H as (v & Hid & Hin). apply remove_In in Hin as [_ Hne].
  contradiction.
Qed.

(** X6. [handleRemoveVideo] drops every entry that carries the identifier
    and no other: afterwards the identifier is not in the library, the
    entries with other identifiers are all still there, and removing an
    identifier the library does not hold changes nothing. *)
Theorem remove_drops_exactly_that_identifier (lib : Library) (i : jsstring) :
  SettingsPanel.hasId (App.handleRemoveVideo lib i) i = false
  /\ (forall v, In v (App.handleRemoveVideo lib i) <-> In v lib /\ id v <> i)
  /\ List.map id (App.handleRemoveVideo lib i)
     = filter (fun x => negb (jseqb x i)) (List.map id lib)
  /\ (App.handleRemoveVideo lib i = lib <-> SettingsPanel.hasId lib i = false).
Proof.
  split; [apply remove_gone|]. split; [intros v; apply remove_In|]. split.
  - unfold App.handleRemoveVideo. induction lib as [|v lib IH]; simpl;
      [reflexivity|].
    destruct (jseqb (id v) i); simpl; now rewrite IH.
  - split; [|apply remove_absent].
    intros H. rewrite <- H. apply remove_gone.
Qed.

(** X7. Adding and removing undo each other: an entry whose identifier is
    new, appended and then removed by that identifier, leaves the library as
    it was; so does removing the identifier of an entry the add form has
    just accepted. *)
Theorem add_then_remove_restores_the_library :
  (forall lib v,
      SettingsPanel.hasId lib (id v) = false ->
      App.handleRemoveVideo (App.handleAddVideo lib v) (id v) = lib)
  /\ (forall lib st st' v,
        SettingsPanel.handleAddVideo lib st = (st', Some v) ->
        App.handleRemoveVideo (snd (App.submitAddForm lib st)) (id v) = lib).
Proof.
  assert (H1 : forall lib v,
             SettingsPanel.hasId lib (id v) = false ->
             App.handleRemoveVideo (App.handleAddVideo lib v) (id v) = lib).
  { intros lib v Hfresh. unfold App.handleAddVideo.
    pose proof (remove_absent lib (id v) Hfresh) as Hr.
    unfold App.handleRemoveVideo in *. rewrite filter_app, Hr. cbn [filter].
    rewrite (proj2 (jseqb_eq (id v) (id v)) eq_refl). cbn.
    apply app_nil_r. }
  split; [exact H1|].
  intros lib st st' v Hh. unfold App.submitAddForm. rewrite Hh. cbn [snd].
  apply H1. now destruct (handleAddVideo_accepts _ _ Hh) as (_ & _ & _ & Hf).
Qed.

Lemma add_then_remove_restores_the_library_witness :
  App.handleRemoveVideo (App.handleAddVideo [] sampleEntry) (id sampleEntry) = []
  /\ App.handleRemoveVideo (snd (App.submitAddForm [] sampleForm))
       (id sampleEntry) = [].
Proof.
  split.
  - apply (proj1 add_then_remove_restores_the_library [] sampleEntry).
    reflexivity.
  - apply (proj2 add_then_remove_restores_the_library [] sampleForm
             (SettingsPanel.mkForm false [] [] (js "*") (js "#FF6B6B") [])
             sampleEntry).
    vm_compute. reflexivity.
Defined.

(** A library as the data model wants it: distinct identifiers, each of 11
    URL-safe characters, and no empty title. *)
Definition wellFormedLibrary (lib : Library) : Prop :=
  NoDup (List.map id lib)
  /\ Forall (fun v => wellFormedId (id v) /\ title v <> []) lib.

Lemma NoDup_ids_filter (f : VideoEntry -> bool) (lib : Library) :
  NoDup (List.map id lib) -> NoDup (List.map id (filter f lib)).
Proof.
  induction lib as [|v lib IH]; simpl; [auto|].
  intros H. inversion H as [|x xs Hnin Hnd]; subst.
  destruct (f v); simpl; [|now apply IH].
  constructor; [|now apply IH].
  intros Hin. apply Hnin. apply in_map_iff in Hin as (u & Hu & Hin).
  apply filter_In in Hin as [Hin _]. apply in_map_iff. now exists u.
Qed.

Lemma apply_wellFormed (videos lib : Library) (a : Panel.Action) :
  wellFormedLibrary videos -> wellFormedLibrary lib ->
  wellFormedLibrary (Panel.apply videos lib a).
Proof.
  intros Hv [Hnd Hall]. destruct a as [st | videoId |]; cbn [Panel.apply].
  - split; [now apply submitAddForm_ids|].
    unfold App.submitAddForm.
    destruct (SettingsPanel.handleAddVideo lib st) as [st' [v|]] eqn:Hh;
      cbn [snd]; [|assumption].
    destruct (handleAddVideo_accepts _ _ Hh) as (He & _ & Hne & _).
    unfold App.handleAddVideo. apply Forall_app. split; [assumption|].
    constructor; [|constructor]. split; [|assumption].
    exact (extractVideoId_some _ He).
  - split.
    + now apply NoDup_ids_filter.
    + unfold App.handleRemoveVideo. apply Forall_forall. intros v Hin.
      apply filter_In in Hin as [Hin _].
      rewrite Forall_forall in Hall. now apply Hall.
  - exact Hv.
Qed.

(** X8. Whatever a parent does in the settings panel (submitting the add
    form with any content, removing, resetting), in any order and number, a
    library with distinct, well-formed identifiers and non-empty titles
    stays one, provided the default library is one. *)
Theorem panel_keeps_the_library_well_formed
        (videos lib : Library) (actions : list Panel.Action) :
  wellFormedLibrary videos -> wellFormedLibrary lib ->
  wellFormedLibrary (Panel.applyAll videos lib actions).
Proof.
  intros Hv. revert lib. unfold Panel.applyAll.
  induction actions as [|a actions IH]; intros lib Hl; cbn [fold_left];
    [assumption|].
  apply IH. now apply apply_wellFormed.
Qed.

End LibraryMore.

Lemma sampleEntry_library : wellFormedLibrary [sampleEntry].
Proof.
  split.
  - constructor; [intros []|constructor].
  - constructor; [|constructor]. split; [split; reflexivity | discriminate].
Defined.

Lemma panel_keeps_the_library_well_formed_witness :
  wellFormedLibrary
    (Panel.applyAll [sampleEntry] [sampleEntry]
       [ Panel.Remove (js "dQw4w9WgXcQ"); Panel.SubmitForm sampleForm;
         Panel.SubmitForm sampleForm; Panel.Reset ]).
Proof.
  exact (panel_keeps_the_library_well_formed
           [ Panel.Remove (js "dQw4w9WgXcQ"); Panel.SubmitForm sampleForm;
             Panel.SubmitForm sampleForm; Panel.Reset ]
           sampleEntry_library sampleEntry_library).
Defined.

(* ------------------------------------------------------------------------ *)
(** ** More on the answer form *)

Section GateMore.

Import ParentalGate.

(** X9. The message under the field. In a gate where no submission
    succeeds, the first and the second submission show 'Incorrect, try
    again' and every later one 'Too many attempts!'; typing into the field
    takes the message away. *)
Theorem error_message_follows_the_attempts :
  (forall p tr,
      Forall isWrong (submissions (init p) tr) ->
      forall k r, nth_error (submissions (init p) tr) k = Some r ->
        errorMessage (fst r)
        = Some (match k with
                | 0%nat | 1%nat => js "Incorrect, try again"
                | _ => js "Too many attempts!"
                end))
  /\ (forall value st, errorMessage (handleInputChange value st) = None).
Proof.
  split; [|reflexivity].
  intros p tr Hw k r Hk.
  destruct (submissions_wrong tr (init p) Hw k Hk) as (Ha & _ & Hs & _).
  unfold errorMessage. rewrite Hs, Ha. cbn [init attempts Nat.add].
  destruct k as [|[|k]]; reflexivity.
Qed.

Lemma error_message_follows_the_attempts_witness :
  errorMessage (mkState sampleProblem [] 3 true) = Some (js "Too many attempts!").
Proof.
  exact (proj1 error_message_follows_the_attempts sampleProblem
           threeWrongAnswers threeWrongAnswers_wrong 2%nat
           (mkState sampleProblem [] 3 true, [SetTimeoutOnCancel 1500])
           eq_refl).
Defined.

Lemma takeDigits_digits (s : jsstring) :
  forallb isDigit (takeDigits s) = true.
Proof.
  induction s as [|c s IH]; simpl; [reflexivity|].
  destruct (isDigit c) eqn:Hc; [|reflexivity]. simpl. now rewrite Hc.
Qed.

Lemma shiftDigit_nonneg (ds : jsstring) :
  forallb isDigit ds = true ->
  forall acc, (0 <= acc)%Z -> (0 <= fold_left shiftDigit ds acc)%Z.
Proof.
  induction ds as [|c ds IH]; simpl; intros Hall acc Hacc; [assumption|].
  apply andb_true_iff in Hall as [Hc Hds]. apply IH; [assumption|].
  apply isDigit_range in Hc. unfold shiftDigit, digitValue. lia.
Qed.

Lemma digitsValue_nonneg (ds : jsstring) :
  forallb isDigit ds = true -> (0 <= digitsValue ds)%Z.
Proof.
  intros H. unfold digitsValue.
  change (fun acc c => (10 * acc + digitValue c)%Z) with shiftDigit.
  now apply shiftDigit_nonneg.
Qed.

(** [parseInt] of a text that starts with a hyphen is NaN or not positive;
    of the empty text it is NaN. *)
Lemma parseInt_hyphen (r : jsstring) :
  match parseInt (45%N :: r) with
  | Some n => (n <= 0)%Z
  | None => True
  end.
Proof.
  unfold parseInt, trimStart. cbn [dropWhile].
  change (isWhiteSpace 45%N) with false. cbv iota.
  change (unit_eqb 45%N 45%N) with true. cbv iota.
  pose proof (takeDigits_digits r) as Hd.
  destruct (takeDigits r) as [|d ds]; [exact I|].
  pose proof (digitsValue_nonneg _ Hd). lia.
Qed.

(** X10. The hyphen the field lets through never helps: for a challenge
    built from any three draws, a stored answer that is empty or starts with
    a hyphen is a wrong answer. *)
Theorem empty_or_negative_answer_is_wrong (r0 r1 r2 : Q) (st : State) :
  isDraw r0 -> isDraw r1 -> isDraw r2 ->
  problem st = mathProblem r0 r1 r2 ->
  userAnswer st = [] \/ (exists r, userAnswer st = 45%N :: r) ->
  handleSubmit st
  = (mkState (problem st) [] (S (attempts st)) true,
     if Nat.leb 2 (attempts st) then [SetTimeoutOnCancel 1500] else []).
Proof.
  intros H0 H1 H2 Hp Hu. apply handleSubmit_wrong.
  pose proof (@satisfiesTable_answer _ (mathProblem_table H0 H1 H2)) as Ha.
  rewrite <- Hp in Ha.
  destruct Hu as [-> | (r & ->)]; [reflexivity|].
  pose proof (parseInt_hyphen r) as Hn.
  destruct (parseInt (45%N :: r)) as [n|]; [|reflexivity].
  cbn [strictEq]. apply Z.eqb_neq. lia.
Qed.

End GateMore.

Lemma empty_or_negative_answer_is_wrong_witness :
  ParentalGate.handleSubmit
    (ParentalGate.handleInputChange (js "-40")
       (ParentalGate.init (ParentalGate.mathProblem (3 # 8) (27 # 32) 0)))
  = (ParentalGate.mkState (ParentalGate.mathProblem (3 # 8) (27 # 32) 0) [] 1 true,
     []).
Proof.
  apply (@empty_or_negative_answer_is_wrong (3 # 8) (27 # 32) 0
           (ParentalGate.handleInputChange (js "-40")
              (ParentalGate.init (ParentalGate.mathProblem (3 # 8) (27 # 32) 0)))
           draw_3_8 draw_27_32 draw_zero eq_refl).
  right. exists (js "40"). reflexivity.
Defined.

(* ------------------------------------------------------------------------ *)
(** ** More on the player *)

Section PlayerMore.

Import VideoPlayer.

(** What every state of a session satisfies. *)
Definition calm (st : State) : Prop :=
  (useLocalVideo st = false -> hasError st = false)
  /\ (isLoading st = true -> hasError st = false).

Lemma step_calm (st : State) (sig : Signal) : calm st -> calm (step st sig).
Proof.
  unfold calm, step, dispatch. destruct st as [l e u p]. cbn.
  intros [Hr Hl].
  destruct sig as [| d | | [|] | |], u; cbn; split; intros;
    auto; try discriminate.
Qed.

Lemma run_calm (sigs : list Signal) :
  forall st, calm st -> calm (run st sigs).
Proof.
  induction sigs as [|sig sigs IH]; intros st H; cbn; [assumption|].
  apply IH. now apply step_calm.
Qed.

(** X11. Whatever signals a session receives, the 'video unavailable'
    screen is never shown while the remote source is in use (it takes a
    failure of the local file), and never together with the loading
    spinner. *)
Theorem error_screen_needs_a_local_failure (sigs : list Signal) :
  (sourceMode (run init sigs) = Remote -> hasError (run init sigs) = false)
  /\ isLoading (run init sigs) && hasError (run init sigs) = false.
Proof.
  assert (Hc : calm (run init sigs)).
  { apply run_calm. split; reflexivity. }
  destruct Hc as [Hr Hl]. split.
  - unfold sourceMode. destruct (useLocalVideo (run init sigs)); [discriminate|].
    intros _. now apply Hr.
  - destruct (isLoading (run init sigs)); [|reflexivity].
    now rewrite Hl.
Qed.

Lemma error_screen_needs_a_local_failure_witness :
  hasError (run init [RemoteReady; RemoteEnd; LocalError]) = false.
Proof.
  apply (proj1 (error_screen_needs_a_local_failure
                  [RemoteReady; RemoteEnd; LocalError])).
  reflexivity.
Defined.

Lemma step_ready_stays (st : State) (sig : Signal) :
  playerRef st = true -> playerRef (step st sig) = true.
Proof.
  intros H. unfold step, dispatch.
  destruct sig as [| d | | [|] | |], (useLocalVideo st); cbn; auto.
Qed.

Lemma run_ready_stays (sigs : list Signal) :
  forall st, playerRef st = true -> playerRef (run st sigs) = true.
Proof.
  induction sigs as [|sig sigs IH]; intros st H; cbn; [assumption|].
  apply IH. now apply step_ready_stays.
Qed.

Lemma run_remote_before (sigs : list Signal) (st : State) :
  useLocalVideo (run st sigs) = false -> useLocalVideo st = false.
Proof.
  intros H. destruct (useLocalVideo st) eqn:Hu; [|reflexivity].
  now rewrite (run_local_stays sigs st Hu) in H.
Qed.

(** X12. The end of the media never changes the session, on either source:
    it only restarts the video. On the remote source, once the player has
    signalled ready, every end seeks to the start and plays; on the local
    source every end rewinds and plays. *)
Theorem end_of_media_restarts_the_same_source :
  (forall st, step st RemoteEnd = st /\ step st LocalEnded = st)
  /\ (forall pre mid,
        let st := run init (pre ++ RemoteReady :: mid) in
        sourceMode st = Remote ->
        snd (dispatch st RemoteEnd) = [SeekTo0; PlayVideo])
  /\ (forall sigs,
        let st := run init sigs in
        sourceMode st = Local ->
        snd (dispatch st LocalEnded) = [LocalRewind; LocalPlay]).
Proof.
  split; [|split].
  - intros st. unfold step, dispatch.
    destruct (useLocalVideo st); cbn; split; reflexivity.
  - intros pre mid st Hm.
    assert (Hu : useLocalVideo st = false).
    { unfold sourceMode in Hm. destruct (useLocalVideo st);
        [discriminate | reflexivity]. }
    assert (Hready : playerRef st = true).
    { subst st. rewrite run_app in Hu |- *. cbn [run fold_left] in Hu |- *.
      apply run_ready_stays.
      apply run_remote_before in Hu.
      assert (Hb : useLocalVideo (run init pre) = false).
      { destruct (useLocalVideo (run init pre)) eqn:Hp; [|reflexivity].
        now rewrite (step_local_stays _ RemoteReady Hp) in Hu. }
      unfold step, dispatch. fold (run init pre). now rewrite Hb. }
    unfold dispatch. rewrite Hu. cbn. now rewrite Hready.
  - intros sigs st Hm. unfold dispatch, sourceMode in *.
    destruct (useLocalVideo st); [reflexivity | discriminate].
Qed.

Lemma end_of_media_restarts_the_same_source_witness :
  snd (dispatch (run init ([] ++ RemoteReady :: [RemoteEnd; RemoteEnd])) RemoteEnd)
  = [SeekTo0; PlayVideo]
  /\ snd (dispatch (run init [RemoteError 150; LocalLoadedData false]) LocalEnded)
     = [LocalRewind; LocalPlay].
Proof.
  split.
  - apply (proj1 (proj2 end_of_media_restarts_the_same_source) []
             [RemoteEnd; RemoteEnd]).
    reflexivity.
  - apply (proj2 (proj2 end_of_media_restarts_the_same_source)
             [RemoteError 150; LocalLoadedData false]).
    reflexivity.
Defined.

End PlayerMore.

(* ------------------------------------------------------------------------ *)
(** ** File names made from titles *)

Section FileNames.

Import TitleText.

Local Open Scope N_scope.

Lemma removeAll_clean (class : code_unit -> bool) (s : jsstring) :
  forallb (fun c => negb (class c)) (removeAll class s) = true.
Proof.
  apply forallb_forall. intros c Hc. now apply filter_In in Hc.
Qed.

Lemma removeAll_fixed (class : code_unit -> bool) (s : jsstring) :
  forallb (fun c => negb (class c)) s = true -> removeAll class s = s.
Proof.
  unfold removeAll. induction s as [|c s IH]; simpl; [reflexivity|].
  intros H. apply andb_true_iff in H as [Hc Hs]. now rewrite Hc, IH.
Qed.

Lemma collapseFrom_In (s : jsstring) :
  forall b c, In c (collapseFrom b s) -> c = 32 \/ In c s.
Proof.
  induction s as [|d s IH]; intros b c; simpl; [tauto|].
  destruct (isWhiteSpace d), b; simpl; intros H;
    repeat match goal with
           | H : _ \/ _ |- _ => destruct H as [H|H]
           end;
    try (apply IH in H; tauto); auto.
Qed.

Lemma dropWhile_In (p : code_unit -> bool) (s : jsstring) (c : code_unit) :
  In c (dropWhile p s) -> In c s.
Proof.
  induction s as [|d s IH]; simpl; [tauto|].
  destruct (p d); simpl; tauto.
Qed.

Lemma trim_In (s : jsstring) (c : code_unit) : In c (trim s) -> In c s.
Proof.
  unfold trim, trimEnd, trimStart. intros H.
  apply in_rev, dropWhile_In, in_rev in H. now apply dropWhile_In in H.
Qed.

(** X13. The file name made from a title holds none of the characters
    < > : double quote / \ | ? * whatever the title: in particular no
    slash of either kind, so the path the player asks for never leaves the
    videos directory. *)
Theorem safe_title_has_no_illegal_character (t : jsstring) :
  forallb (fun c => negb (LocalVideo.isIllegal c)) (LocalVideo.safeTitle t) = true
  /\ existsb (fun c => unit_eqb c 47 || unit_eqb c 92) (LocalVideo.safeTitle t)
     = false.
Proof.
  assert (H : forall c, In c (LocalVideo.safeTitle t) ->
                        LocalVideo.isIllegal c = false).
  { intros c Hc. unfold LocalVideo.safeTitle, collapseSpaces in Hc.
    apply trim_In, collapseFrom_In in Hc as [-> | Hc]; [reflexivity|].
    pose proof (removeAll_clean LocalVideo.isIllegal t) as Hall.
    rewrite forallb_forall in Hall. apply Hall in Hc.
    now apply negb_true_iff in Hc. }
  split.
  - apply forallb_forall. intros c Hc. apply negb_true_iff. now apply H.
  - apply not_true_iff_false. intros He.
    apply existsb_exists in He as (c & Hc & Hs). apply H in Hc.
    unfold LocalVideo.isIllegal in Hc.
    repeat (apply orb_false_iff in Hc as [Hc ?]).
    apply orb_true_iff in Hs as [Hs|Hs]; congruence.
Qed.

(** Every white space is a space that no white space precedes; [prevWs]
    says that the unit before was white space. *)
Fixpoint collapsedFrom (prevWs : bool) (s : jsstring) : bool :=
  match s with
  | [] => true
  | c :: s' =>
      if isWhiteSpace c
      then negb prevWs && unit_eqb c 32 && collapsedFrom true s'
      else collapsedFrom false s'
  end.

Lemma collapseFrom_collapsed (s : jsstring) :
  forall b, collapsedFrom b (collapseFrom b s) = true.
Proof.
  induction s as [|c s IH]; intros b; simpl; [reflexivity|].
  destruct (isWhiteSpace c) eqn:Hc.
  - destruct b; [apply IH|]. simpl. change (isWhiteSpace 32) with true.
    cbv iota. simpl. apply IH.
  - simpl. rewrite Hc. apply IH.
Qed.

Lemma collapsed_fixed (s : jsstring) :
  forall b, collapsedFrom b s = true -> collapseFrom b s = s.
Proof.
  induction s as [|c s IH]; intros b; simpl; [reflexivity|].
  destruct (isWhiteSpace c).
  - intros H. apply andb_true_iff in H as [H Hs].
    apply andb_true_iff in H as [Hb Hc].
    apply negb_true_iff in Hb. subst b. apply N.eqb_eq in Hc. subst c.
    now rewrite IH.
  - intros H. now rewrite IH.
Qed.

Lemma collapsed_weaken (s : jsstring) :
  collapsedFrom true s = true -> collapsedFrom false s = true.
Proof.
  destruct s as [|c s]; simpl; [reflexivity|].
  destruct (isWhiteSpace c); [discriminate|auto].
Qed.

Lemma collapsed_any (s : jsstring) (b : bool) :
  collapsedFrom b s = true -> collapsedFrom false s = true.
Proof. destruct b; [apply collapsed_weaken | auto]. Qed.

Lemma collapsed_dropWhile (p : code_unit -> bool) (s : jsstring) :
  forall b, collapsedFrom b s = true ->
    collapsedFrom false (dropWhile p s) = true.
Proof.
  induction s as [|c s IH]; intros b H; simpl; [reflexivity|].
  destruct (p c).
  - simpl in H. destruct (isWhiteSpace c).
    + apply andb_true_iff in H as [_ H]. now apply (IH true).
    + now apply (IH false).
  - now apply (collapsed_any _ b).
Qed.

Lemma collapsed_prefix (x y : jsstring) :
  forall b, collapsedFrom b (x ++ y) = true -> collapsedFrom b x = true.
Proof.
  induction x as [|c x IH]; intros b; simpl; [reflexivity|].
  destruct (isWhiteSpace c).
  - intros H. apply andb_true_iff in H as [H Hs]. rewrite H. now apply IH.
  - apply IH.
Qed.

Lemma dropWhile_suffix (p : code_unit -> bool) (s : jsstring) :
  exists a, s = a ++ dropWhile p s.
Proof.
  induction s as [|c s (a & IH)]; simpl; [now exists []|].
  destruct (p c); [|now exists []].
  exists (c :: a). simpl. now f_equal.
Qed.

Lemma trimEnd_prefix (s : jsstring) : exists y, s = trimEnd s ++ y.
Proof.
  unfold trimEnd. destruct (dropWhile_suffix isWhiteSpace (rev s)) as (a & Ha).
  exists (rev a). rewrite <- rev_app_distr, <- Ha. now rewrite rev_involutive.
Qed.

Lemma trim_collapsed (s : jsstring) (b : bool) :
  collapsedFrom b s = true -> collapsedFrom false (trim s) = true.
Proof.
  intros H. unfold trim.
  pose proof (collapsed_dropWhile isWhiteSpace s b H) as Hs.
  fold (trimStart s) in Hs.
  destruct (trimEnd_prefix (trimStart s)) as (y & Hy).
  rewrite Hy in Hs. now apply collapsed_prefix in Hs.
Qed.

Lemma dropWhile_head (p : code_unit -> bool) (s : jsstring) (c : code_unit) :
  hd_error (dropWhile p s) = Some c -> p c = false.
Proof.
  induction s as [|d s IH]; simpl; [discriminate|].
  destruct (p d) eqn:Hd; [assumption|]. simpl. intros H.
  inversion H; subst d. exact Hd.
Qed.

(** The ends of a trimmed text are no white space. *)
Lemma trim_ends (s : jsstring) :
  (forall c, hd_error (trim s) = Some c -> isWhiteSpace c = false)
  /\ (forall c, hd_error (rev (trim s)) = Some c -> isWhiteSpace c = false).
Proof.
  unfold trim. split; intros c H.
  - destruct (trimEnd_prefix (trimStart s)) as (y & Hy).
    destruct (trimEnd (trimStart s)) as [|d r] eqn:He; [discriminate H|].
    simpl in H. inversion H; subst d.
    apply (dropWhile_head isWhiteSpace s). fold (trimStart s).
    now rewrite Hy.
  - unfold trimEnd in H. rewrite rev_involutive in H.
    now apply dropWhile_head in H.
Qed.

Lemma trim_trim (s : jsstring) : trim (trim s) = trim s.
Proof.
  destruct (trim_ends s) as [Hh Hl].
  destruct (trim s) as [|c r] eqn:Ht; [reflexivity|].
  destruct (rev (c :: r)) as [|z r'] eqn:Hr.
  { apply (f_equal (@List.length _)) in Hr. rewrite length_rev in Hr.
    discriminate Hr. }
  apply (@trim_stable (c :: r) c z); auto.
  - now rewrite Hr.
Qed.

(** X14. Making a file name from a file name changes nothing: the result is
    already free of illegal characters, its white space already collapsed
    and its ends already trimmed. *)
Theorem safe_title_is_idempotent (t : jsstring) :
  LocalVideo.safeTitle (LocalVideo.safeTitle t) = LocalVideo.safeTitle t.
Proof.
  pose proof (proj1 (safe_title_has_no_illegal_character t)) as Hclean.
  unfold LocalVideo.safeTitle at 1.
  rewrite (removeAll_fixed LocalVideo.isIllegal _ Hclean).
  assert (Hc : collapsedFrom false (LocalVideo.safeTitle t) = true).
  { unfold LocalVideo.safeTitle, collapseSpaces.
    apply (@trim_collapsed _ false), collapseFrom_collapsed. }
  unfold collapseSpaces. rewrite (collapsed_fixed _ false Hc).
  unfold LocalVideo.safeTitle. apply trim_trim.
Qed.

Lemma collapsed_adjacent (pre : jsstring) :
  forall b a d post,
    collapsedFrom b (pre ++ a :: d :: post) = true ->
    isWhiteSpace a = true -> a = 32 /\ isWhiteSpace d = false.
Proof.
  induction pre as [|c pre IH]; intros b a d post H Ha.
  - cbn [app collapsedFrom] in H. rewrite Ha in H.
    apply andb_true_iff in H as [H Hs]. apply andb_true_iff in H as [_ Hc].
    apply N.eqb_eq in Hc. split; [assumption|].
    destruct (isWhiteSpace d); [discriminate Hs | reflexivity].
  - cbn [app collapsedFrom] in H. destruct (isWhiteSpace c).
    + apply andb_true_iff in H as [_ H]. now apply (IH true a d post).
    + now apply (IH false a d post).
Qed.

(** X15. The shape of a file name made from a title: it neither starts nor
    ends with white space, and any white space in it is a single space
    with another character after it. *)
Theorem safe_title_white_space (t : jsstring) :
  (forall c, hd_error (LocalVideo.safeTitle t) = Some c ->
             isWhiteSpace c = false)
  /\ (forall c, hd_error (rev (LocalVideo.safeTitle t)) = Some c ->
                isWhiteSpace c = false)
  /\ (forall pre a post,
        LocalVideo.safeTitle t = pre ++ a :: post ->
        isWhiteSpace a = true ->
        a = 32 /\ exists d rest, post = d :: rest /\ isWhiteSpace d = false).
Proof.
  destruct (trim_ends (collapseSpaces (removeAll LocalVideo.isIllegal t)))
    as [Hh Hl].
  split; [exact Hh|]. split; [exact Hl|].
  intros pre a post Hs Ha.
  assert (Hc : collapsedFrom false (LocalVideo.safeTitle t) = true).
  { unfold LocalVideo.safeTitle, collapseSpaces.
    apply (@trim_collapsed _ false), collapseFrom_collapsed. }
  destruct post as [|d rest].
  - exfalso. fold (LocalVideo.safeTitle t) in Hl. rewrite Hs in Hl.
    rewrite rev_app_distr in Hl. cbn in Hl.
    specialize (Hl a eq_refl). congruence.
  - rewrite Hs in Hc. destruct (collapsed_adjacent _ _ _ _ _ Hc Ha) as [H32 Hd].
    split; [assumption|]. now exists d, rest.
Qed.

Lemma safe_title_white_space_witness :
  isWhiteSpace 66 = false.
Proof.
  apply (proj1 (safe_title_white_space (js " <Baby>  Shark: 2 "))).
  vm_compute. reflexivity.
Defined.

End FileNames.

(* ------------------------------------------------------------------------ *)
(** ** The download script *)

Section DownloadMore.

Import DownloadVideos.

Lemma downloadAll_videos (endings : nat -> ProcessEnd) (vs : Library) :
  forall i, List.map video (downloadAll endings i vs) = vs.
Proof.
  induction vs as [|v vs IH]; intros i; simpl; [reflexivity|].
  rewrite IH. f_equal. unfold downloadVideo.
  destruct (endings i) as [code|m]; [destruct (isZero code)|]; reflexivity.
Qed.

Lemma downloadAll_nth (endings : nat -> ProcessEnd) (vs : Library) :
  forall i k v, nth_error vs k = Some v ->
    nth_error (downloadAll endings i vs) k
    = Some (downloadVideo (endings (i + k)%nat) v).
Proof.
  induction vs as [|u vs IH]; intros i k v H.
  - destruct k; discriminate H.
  - destruct k as [|k]; simpl in *.
    + inversion H; subst. now rewrite Nat.add_0_r.
    + rewrite (IH (S i) k v H). now rewrite Nat.add_succ_r.
Qed.

Lemma filter_split_length {A} (f : A -> bool) (l : list A) :
  (List.length (filter f l) + List.length (filter (fun x => negb (f x)) l)
   = List.length l)%nat.
Proof.
  induction l as [|x l IH]; simpl; [reflexivity|].
  destruct (f x); simpl; lia.
Qed.

Lemma downloadVideo_success (e : ProcessEnd) (v : VideoEntry) :
  success (downloadVideo e v) = true <-> e = Close (Some 0%Z).
Proof.
  unfold downloadVideo. destruct e as [[n|]|m]; simpl.
  - destruct (Z.eqb_spec n 0) as [->|Hn]; simpl.
    + tauto.
    + split; [discriminate|]. intros H. inversion H. contradiction.
  - split; discriminate.
  - split; discriminate.
Qed.

Lemma downloadVideo_error (e : ProcessEnd) (v : VideoEntry) :
  if success (downloadVideo e v)
  then error (downloadVideo e v) = None
  else exists m, error (downloadVideo e v) = Some m.
Proof.
  unfold downloadVideo. destruct e as [code|m].
  - destruct (isZero code); simpl; eauto.
  - simpl. eauto.
Qed.

Lemma downloadAll_error (endings : nat -> ProcessEnd) (vs : Library) :
  forall i r, In r (downloadAll endings i vs) ->
    if success r then error r = None else exists m, error r = Some m.
Proof.
  induction vs as [|v vs IH]; intros i r; simpl; [tauto|].
  intros [<- | H]; [apply downloadVideo_error | now apply (IH (S i))].
Qed.

(** X17. A run of the download script with the downloader installed tries
    the first six entries of the library (all of them when there are fewer)
    once each and in order, whatever happens to the earlier ones; every try
    is counted either as successful or as failed; a try is successful
    exactly when its process closes with exit code 0, and every failed one
    carries an error text. Without the downloader nothing is tried. *)
Theorem download_summary (allVideos : Library) (endings : nat -> ProcessEnd) :
  main false allVideos endings = None
  /\ exists s,
       main true allVideos endings = Some s
       /\ List.map video (results s) = firstn 6 allVideos
       /\ (List.length (results s)
           = Nat.min 6 (List.length allVideos))%nat
       /\ (List.length (successful s) + List.length (failed s)
           = List.length (results s))%nat
       /\ (forall k v, nth_error allVideos k = Some v -> (k < 6)%nat ->
             let r := downloadVideo (endings k) v in
             nth_error (results s) k = Some r
             /\ (In r (successful s) <-> endings k = Close (Some 0%Z))
             /\ (In r (failed s) <-> endings k <> Close (Some 0%Z)))
       /\ (forall r, In r (failed s) -> exists m, error r = Some m).
Proof.
  split; [reflexivity|].
  eexists. split; [reflexivity|]. cbn [results successful failed].
  assert (Hmap := downloadAll_videos endings (videos allVideos) 0).
  split; [exact Hmap|].
  split.
  { rewrite <- (length_map video), Hmap. unfold videos. apply length_firstn. }
  split; [apply filter_split_length|].
  split.
  - intros k v Hk Hlt. cbv zeta.
    set (r := downloadVideo (endings k) v).
    assert (Hnth : nth_error (downloadAll endings 0 (videos allVideos)) k
                   = Some r).
    { apply (@downloadAll_nth endings (videos allVideos) 0 k v).
      unfold videos. now rewrite nth_error_firstn, (proj2 (Nat.ltb_lt k 6) Hlt). }
    split; [exact Hnth|].
    apply nth_error_In in Hnth.
    pose proof (downloadVideo_success (endings k) v) as Hs. fold r in Hs.
    split.
    + rewrite filter_In. rewrite <- Hs. tauto.
    + rewrite filter_In, negb_true_iff. rewrite <- Hs.
      destruct (success r); intuition congruence.
  - intros r Hr. apply filter_In in Hr as [Hin Hs].
    apply negb_true_iff in Hs.
    pose proof (downloadAll_error endings (videos allVideos) 0 r Hin) as He.
    now rewrite Hs in He.
Qed.

End DownloadMore.

(* ------------------------------------------------------------------------ *)
(** ** Navigation on the page *)

Section NavigationMore.

Import App.

Local Open Scope Z_scope.

(** What the render of [App] relies on. *)
Definition navOk (w : World) : Prop :=
  (currentView w = Player -> selectedVideo w <> None)
  /\ (currentView w = Settings ->
      gate w = None /\ exists t, In (t, Success) (log w)).

(** [w'] differs from [w] in its clock, timers and hold buttons only. *)
Definition sameNav (w w' : World) : Prop :=
  currentView w' = currentView w /\ selectedVideo w' = selectedVideo w
  /\ gate w' = gate w /\ log w' = log w.

Lemma sameNav_ok (w w' : World) : sameNav w w' -> navOk w -> navOk w'.
Proof. unfold sameNav, navOk. intros (-> & -> & -> & ->). auto. Qed.

Lemma sameNav_trans (w1 w2 w3 : World) :
  sameNav w1 w2 -> sameNav w2 w3 -> sameNav w1 w3.
Proof.
  unfold sameNav. intros (<- & <- & <- & <-) (-> & -> & -> & ->). auto.
Qed.

Lemma sameNav_clearTimer (i : option nat) (w : World) :
  sameNav w (clearTimer i w).
Proof. destruct i; repeat split. Qed.

Lemma sameNav_setHold (i : nat) (h : HoldButton.State) (w : World) :
  sameNav w (setHold i h w).
Proof. repeat split. Qed.

Lemma sameNav_setTimers (ts : list Timer) (w : World) :
  sameNav w (setTimers ts w).
Proof. repeat split. Qed.

Lemma sameNav_setNow (t : Z) (w : World) : sameNav w (setNow t w).
Proof. repeat split. Qed.

Lemma sameNav_addTimer (d : Z) (k : TimerKind) (w : World) :
  sameNav w (addTimer d k w).
Proof. repeat split. Qed.

Lemma closeGate_fields (w : World) :
  currentView (closeGate w) = currentView w
  /\ selectedVideo (closeGate w) = selectedVideo w
  /\ gate (closeGate w) = None
  /\ log (closeGate w) = log w.
Proof.
  unfold closeGate. destruct (gate w) as [[n st]|] eqn:Hg; [|auto].
  destruct (HoldButton.cleanup (holdOf n w)); repeat split.
Qed.

Lemma handleParentalGateSuccess_fields (w : World) :
  currentView (handleParentalGateSuccess w) = Settings
  /\ gate (handleParentalGateSuccess w) = None
  /\ log (handleParentalGateSuccess w) = log w ++ [(now w, Success)].
Proof.
  unfold handleParentalGateSuccess.
  destruct (closeGate_fields (addLog Success w)) as (_ & _ & Hg & Hl).
  cbn. now rewrite Hg, Hl.
Qed.

Lemma handleParentalGateSuccess_ok (w : World) :
  navOk (handleParentalGateSuccess w).
Proof.
  destruct (handleParentalGateSuccess_fields w) as (Hv & Hg & Hl).
  split; intros H; [congruence|]. split; [assumption|].
  exists (now w). rewrite Hl. apply in_or_app. right. now left.
Qed.

Lemma handleParentalGateCancel_ok (w : World) :
  navOk w -> navOk (handleParentalGateCancel w).
Proof.
  unfold handleParentalGateCancel, navOk.
  destruct (closeGate_fields (addLog Cancel w)) as (-> & -> & -> & ->).
  cbn. intros [H1 H2]. split; [assumption|]. intros Hs.
  destruct (H2 Hs) as [_ [t Ht]]. split; [reflexivity|].
  exists t. apply in_or_app. now left.
Qed.

Lemma fire_ok (w : World) (t : Timer) : navOk w -> navOk (fire w t).
Proof.
  intros H. unfold fire. destruct (kind t) as [|owner elapsed].
  - apply handleParentalGateCancel_ok.
    exact (sameNav_ok (sameNav_clearTimer _ w) H).
  - unfold HoldButton.tick. cbv zeta.
    match goal with
    | |- context [setTimers ?ts w] => set (w1 := setTimers ts w)
    end.
    assert (H1 : navOk w1) by exact (sameNav_ok (sameNav_setTimers _ w) H).
    destruct (HoldButton.HOLD_DURATION <=? elapsed + HoldButton.UPDATE_INTERVAL);
      [apply handleParentalGateSuccess_ok|].
    destruct (isMounted owner w1); [|assumption].
    exact (sameNav_ok (sameNav_setHold _ _ w1) H1).
Qed.

Lemma runTimers_ok (rounds : nat) (t : Z) :
  forall w, navOk w -> navOk (runTimers rounds w t).
Proof.
  induction rounds as [|rounds IH]; intros w H; simpl; [assumption|].
  destruct (nextDue w t) as [u|]; [|assumption].
  apply IH, fire_ok. exact (sameNav_ok (sameNav_setNow _ w) H).
Qed.

Lemma advanceTo_ok (t : Z) (w : World) : navOk w -> navOk (advanceTo t w).
Proof.
  intros H. unfold advanceTo.
  apply (sameNav_ok (sameNav_setNow _ _)). now apply runTimers_ok.
Qed.

Lemma perform_ok (w : World) (e : ParentalGate.Effect) :
  navOk w -> navOk (perform w e).
Proof.
  intros H. destruct e as [|delay]; simpl.
  - apply handleParentalGateSuccess_ok.
  - exact (sameNav_ok (sameNav_addTimer _ _ w) H).
Qed.

Lemma performAll_ok (effects : list ParentalGate.Effect) :
  forall w, navOk w -> navOk (fold_left perform effects w).
Proof.
  induction effects as [|e es IH]; intros w H; simpl; [assumption|].
  now apply IH, perform_ok.
Qed.

(** While the gate is mounted the view is not the settings, so the gate's
    own state can change freely. *)
Lemma setGate_ok (w : World) (g g' : nat * ParentalGate.State) :
  gate w = Some g -> navOk w -> navOk (setGate (Some g') w).
Proof.
  unfold navOk. intros Hg [H1 H2]. cbn. split; [assumption|].
  intros Hs. destruct (H2 Hs) as [Hn _]. congruence.
Qed.

Lemma handle_ok (w : World) (e : Event) : navOk w -> navOk (handle w e).
Proof.
  intros H. destruct e as [r0 r1 r2|v| | |value| | | | |]; simpl.
  - destruct (currentView w) eqn:Hv; try assumption.
    unfold openGate. destruct (gate w); [assumption|].
    split; cbn; rewrite Hv; discriminate.
  - destruct (currentView w) eqn:Hv; try assumption.
    split; cbn; [discriminate|discriminate].
  - destruct (currentView w) eqn:Hv; try assumption.
    destruct (selectedVideo w); [|assumption].
    split; cbn; discriminate.
  - destruct (currentView w) eqn:Hv; try assumption.
    split; cbn; discriminate.
  - destruct (gate w) as [[n st]|] eqn:Hg; [|assumption].
    exact (setGate_ok _ Hg H).
  - destruct (gate w) as [[n st]|] eqn:Hg; [|assumption].
    destruct (ParentalGate.handleSubmit st) as [st' effects].
    apply performAll_ok. exact (setGate_ok _ Hg H).
  - destruct (gate w); [|assumption]. now apply handleParentalGateCancel_ok.
  - destruct (gate w) as [[n st]|]; [|assumption].
    apply (sameNav_ok (sameNav_setHold _ _ _)).
    exact (sameNav_ok (sameNav_addTimer _ _ w) H).
  - destruct (gate w) as [[n st]|]; [|assumption].
    unfold HoldButton.stopHold.
    apply (sameNav_ok (sameNav_clearTimer _ _)).
    exact (sameNav_ok (sameNav_setHold _ _ w) H).
  - assumption.
Qed.

Lemma run_ok (trace : list (Z * Event)) :
  forall w, navOk w -> navOk (run w trace).
Proof.
  unfold run. induction trace as [|te trace IH]; intros w H; simpl;
    [assumption|].
  apply IH. unfold deliver. now apply handle_ok, advanceTo_ok.
Qed.

(** X18. Whatever is clicked, typed or held on the page and however time
    passes: when the view is the player there is a selected video to play;
    when the view is the settings the parental gate is not shown and the
    gate has reported a success before. *)
Theorem page_navigation_invariant (trace : list (Z * Event)) :
  let w := run initialWorld trace in
  (currentView w = Player -> exists v, selectedVideo w = Some v)
  /\ (currentView w = Settings ->
      showParentalGate w = false /\ exists t, In (t, Success) (log w)).
Proof.
  assert (H : navOk (run initialWorld trace)).
  { apply run_ok. split; cbn; discriminate. }
  destruct H as [H1 H2]. cbv zeta. split.
  - intros Hv. destruct (selectedVideo (run initialWorld trace)) as [v|] eqn:Hs.
    + now exists v.
    + now destruct (H1 Hv).
  - intros Hv. destruct (H2 Hv) as [Hg Hl]. split; [|assumption].
    unfold showParentalGate. now rewrite Hg.
Qed.

(** An event that neither types into the answer field nor presses the hold
    button. *)
Definition neitherTypesNorHolds (e : Event) : bool :=
  match e with
  | InputChange _ | HoldStart => false
  | _ => true
  end.

(** The page while nothing has been typed or held. *)
Definition untouched (w : World) : Prop :=
  Forall (fun t => kind t = CancelTimeout) (timers w)
  /\ (forall n st, gate w = Some (n, st) -> ParentalGate.userAnswer st = [])
  /\ (forall t, ~ In (t, Success) (log w))
  /\ currentView w <> Settings.

Lemma Forall_filter {A} (P : A -> Prop) (f : A -> bool) (l : list A) :
  Forall P l -> Forall P (filter f l).
Proof.
  intros H. apply Forall_forall. intros x Hx. apply filter_In in Hx as [Hx _].
  rewrite Forall_forall in H. now apply H.
Qed.

Lemma clearTimer_timers (P : Timer -> Prop) (i : option nat) (w : World) :
  Forall P (timers w) -> Forall P (timers (clearTimer i w)).
Proof. destruct i; [apply Forall_filter | auto]. Qed.

Lemma closeGate_timers (P : Timer -> Prop) (w : World) :
  Forall P (timers w) -> Forall P (timers (closeGate w)).
Proof.
  unfold closeGate. destruct (gate w) as [[n st]|]; [|auto].
  intros H. cbn. now apply clearTimer_timers.
Qed.

Lemma handleParentalGateCancel_untouched (w : World) :
  untouched w -> untouched (handleParentalGateCancel w).
Proof.
  unfold untouched, handleParentalGateCancel.
  intros (Ht & Hg & Hl & Hv).
  destruct (closeGate_fields (addLog Cancel w)) as (-> & _ & -> & ->).
  split; [now apply closeGate_timers|].
  split; [discriminate|]. split; [|assumption].
  cbn. intros t Hin. apply in_app_or in Hin as [Hin | [Hin | []]].
  - now apply (Hl t).
  - discriminate Hin.
Qed.

Lemma earliest_In (ts : list Timer) (u : Timer) :
  earliest ts = Some u -> In u ts.
Proof.
  revert u. induction ts as [|v ts IH]; intros u; simpl; [discriminate|].
  destruct (earliest ts) as [x|].
  - destruct (due x <? due v); intros H; inversion H; subst; auto.
  - intros H; inversion H; auto.
Qed.

Lemma nextDue_In (w : World) (t : Z) (u : Timer) :
  nextDue w t = Some u -> In u (timers w).
Proof.
  unfold nextDue. destruct (earliest (timers w)) as [x|] eqn:He;
    [|discriminate].
  destruct (due x <=? t); [|discriminate].
  intros H; inversion H; subst. now apply earliest_In.
Qed.

Lemma runTimers_untouched (rounds : nat) (t : Z) :
  forall w, untouched w -> untouched (runTimers rounds w t).
Proof.
  induction rounds as [|rounds IH]; intros w H; simpl; [assumption|].
  destruct (nextDue w t) as [u|] eqn:Hn; [|assumption].
  apply IH. apply nextDue_In in Hn.
  destruct H as (Ht & Hg & Hl & Hv).
  assert (Hk : kind u = CancelTimeout).
  { rewrite Forall_forall in Ht. now apply Ht. }
  unfold fire. rewrite Hk. apply handleParentalGateCancel_untouched.
  repeat split; try assumption. cbn. now apply Forall_filter.
Qed.

Lemma handle_untouched (w : World) (e : Event) :
  neitherTypesNorHolds e = true -> untouched w -> untouched (handle w e).
Proof.
  intros He Hw. pose proof Hw as (Ht & Hg & Hl & Hv).
  destruct e as [r0 r1 r2|v| | |value| | | | |]; try discriminate He; simpl.
  - destruct (currentView w) eqn:Hc; try exact Hw.
    unfold openGate. destruct (gate w) eqn:Hgw; [exact Hw|].
    repeat split; cbn; try assumption; try (rewrite Hc; discriminate).
    intros n st H. now inversion H.
  - destruct (currentView w) eqn:Hc; try exact Hw.
    repeat split; cbn; try assumption; try discriminate.
  - destruct (currentView w) eqn:Hc; try exact Hw.
    destruct (selectedVideo w); [|exact Hw].
    repeat split; cbn; try assumption; discriminate.
  - destruct (currentView w) eqn:Hc; try exact Hw.
    repeat split; cbn; try assumption; discriminate.
  - destruct (gate w) as [[n st]|] eqn:Hgw; [|exact Hw].
    unfold ParentalGate.handleSubmit. rewrite (Hg n st eq_refl).
    change (ParentalGate.strictEq (parseInt [])
              (ParentalGate.answer (ParentalGate.problem st))) with false.
    cbv iota.
    destruct (Nat.leb 2 (ParentalGate.attempts st)); cbn.
    + repeat split; cbn; try assumption.
      * apply Forall_app. split; [assumption|]. now repeat constructor.
      * intros n' st' H. now inversion H.
    + repeat split; cbn; try assumption.
      intros n' st' H. now inversion H.
  - destruct (gate w); [|exact Hw].
    now apply handleParentalGateCancel_untouched.
  - destruct (gate w) as [[n st]|] eqn:Hgw; [|exact Hw].
    unfold HoldButton.stopHold.
    destruct (HoldButton.intervalRef (holdOf n w)); repeat split; cbn;
      try assumption; try (now apply Forall_filter);
      intros n' st' H; rewrite Hgw in H; now apply (Hg n' st').
  - exact Hw.
Qed.

Lemma run_untouched (trace : list (Z * Event)) :
  forall w,
    forallb (fun te => neitherTypesNorHolds (snd te)) trace = true ->
    untouched w -> untouched (run w trace).
Proof.
  unfold run. induction trace as [|te trace IH]; intros w Hall H; simpl;
    [assumption|].
  simpl in Hall. apply andb_true_iff in Hall as [He Hall].
  apply IH; [assumption|]. unfold deliver.
  apply handle_untouched; [assumption|]. unfold advanceTo.
  destruct (runTimers_untouched
              (List.length (timers w)
               * S (Z.to_nat ((fst te - now w) / 50))) (fst te) H)
    as (Ht & Hg & Hl & Hv).
  repeat split; assumption.
Qed.

(** X19. Without typing into the answer field and without pressing the hold
    button the settings never open: whatever else is done (the gear, the
    form submitted with its empty field any number of times, Cancel, videos,
    Back) and however long one waits, the gate reports no success and the
    view is never the settings. *)
Theorem settings_need_an_answer_or_a_hold (trace : list (Z * Event)) :
  forallb (fun te => neitherTypesNorHolds (snd te)) trace = true ->
  currentView (run initialWorld trace) <> Settings
  /\ forall t, ~ In (t, Success) (log (run initialWorld trace)).
Proof.
  intros Hall.
  destruct (@run_untouched trace initialWorld Hall) as (_ & _ & Hl & Hv).
  - repeat split; cbn; try discriminate; auto.
  - split; assumption.
Qed.

Lemma settings_need_an_answer_or_a_hold_witness :
  let trace :=
    [(0, SettingsClick (1 # 2) (1 # 2) (1 # 2)); (100, Submit); (200, Submit);
     (300, Submit); (2000, SettingsClick 0 0 0); (2500, CancelClick);
     (3000, VideoSelect (mkVideo (js "XqZsoesa55w") (js "Baby Shark")
                                 (js "S") (js "#FF6B6B")));
     (9000, Back); (9500, SettingsClose)]%Z in
  currentView (run initialWorld trace) <> Settings
  /\ forall t, ~ In (t, Success) (log (run initialWorld trace)).
Proof.
  cbv zeta. apply settings_need_an_answer_or_a_hold. vm_compute. reflexivity.
Defined.

End NavigationMore.

(* ------------------------------------------------------------------------ *)
(** ** A single press of the hold button *)

Section HoldMore.

Import App.

Local Open Scope Z_scope.

Lemma replaceNth_nth {A} (l : list A) :
  forall i x d, (i < List.length l)%nat -> nth i (replaceNth i x l) d = x.
Proof.
  induction l as [|y l IH]; intros i x d H; simpl in H; [lia|].
  destruct i as [|i]; simpl; [reflexivity|]. apply IH. lia.
Qed.

Lemma replaceNth_twice {A} (l : list A) :
  forall i x y, replaceNth i x (replaceNth i y l) = replaceNth i x l.
Proof.
  induction l as [|z l IH]; intros i x y; [now destruct i|].
  destruct i as [|i]; simpl; [reflexivity|]. now rewrite IH.
Qed.

Lemma replaceNth_length {A} (l : list A) :
  forall i x, List.length (replaceNth i x l) = List.length l.
Proof.
  induction l as [|z l IH]; intros i x; [now destruct i|].
  destruct i as [|i]; simpl; [reflexivity|]. now rewrite IH.
Qed.

Variable w0 : World.
Variable n : nat.
Variable st : ParentalGate.State.
Variable t0 : Z.

Hypothesis Hgate : gate w0 = Some (n, st).
Hypothesis Hn : (n < List.length (holds w0))%nat.

(** The button [k] runs of the interval after a press at [t0]. *)
Definition holdAt (k : nat) : HoldButton.State :=
  HoldButton.mkState
    (match k with
     | O => 0%Q
     | S _ => HoldButton.progressOf (50 * Z.of_nat k)
     end)
    true (Some (nextTimerId w0)).

(** The page [k] runs of the interval after a press at [t0], with nothing
    else happening. *)
Definition ticking (k : nat) : World :=
  mkWorld (t0 + 50 * Z.of_nat k) (currentView w0) (selectedVideo w0)
          (gate w0) (replaceNth n (holdAt k) (holds w0))
          [mkTimer (nextTimerId w0) (t0 + 50 * Z.of_nat (S k))
                   (HoldInterval n (50 * Z.of_nat k))]
          (S (nextTimerId w0)) (log w0).

(** The page when the interval has completed. *)
Definition completed : World :=
  mkWorld (t0 + 3000) Settings (selectedVideo w0) None
          (replaceNth n (HoldButton.mkState (HoldButton.progressOf 3000) true
                                            (Some (nextTimerId w0)))
                      (holds w0))
          [] (S (nextTimerId w0)) (log w0 ++ [(t0 + 3000, Success)]).

Lemma press_ticking :
  timers w0 = [] -> now w0 <= t0 ->
  deliver w0 (t0, HoldStart) = ticking 0.
Proof.
  intros Ht Hnow. unfold deliver, advanceTo. cbn [fst snd].
  rewrite Ht. cbn [List.length Nat.mul runTimers].
  unfold handle. cbn [gate setNow]. rewrite Hgate.
  unfold ticking, setHold, addTimer, setHolds, HoldButton.startHold, holdAt.
  cbn. rewrite Ht. cbn.
  replace (Z.max t0 (now w0)) with t0 by lia.
  now rewrite Z.add_0_r.
Qed.

Ltac world_fields :=
  cbn [now currentView selectedVideo gate holds timers nextTimerId log
       tid due kind List.map HoldButton.isHolding HoldButton.intervalRef
       HoldButton.progress fst snd].

Lemma fire_ticking (k : nat) :
  (k < 59)%nat ->
  fire (setNow (Z.max (now (ticking k)) (t0 + 50 * Z.of_nat (S k))) (ticking k))
       (mkTimer (nextTimerId w0) (t0 + 50 * Z.of_nat (S k))
                (HoldInterval n (50 * Z.of_nat k)))
  = ticking (S k).
Proof.
  intros Hk. unfold fire. world_fields. unfold HoldButton.tick. cbv zeta.
  unfold HoldButton.HOLD_DURATION, HoldButton.UPDATE_INTERVAL.
  assert (Hc : (3000 <=? 50 * Z.of_nat k + 50) = false) by (apply Z.leb_gt; lia).
  rewrite Hc.
  unfold isMounted, holdOf, setHold, setHolds, setTimers, setNow, ticking.
  world_fields. rewrite Nat.eqb_refl, Hgate, Nat.eqb_refl.
  rewrite (replaceNth_nth _ _ _ Hn). unfold holdAt. world_fields.
  rewrite replaceNth_twice.
  replace (Z.max (t0 + 50 * Z.of_nat k) (t0 + 50 * Z.of_nat (S k)))
    with (t0 + 50 * Z.of_nat (S k)) by lia.
  replace (50 * Z.of_nat k + 50) with (50 * Z.of_nat (S k)) by lia.
  replace (t0 + 50 * Z.of_nat (S k) + 50)
    with (t0 + 50 * Z.of_nat (S (S k))) by lia.
  reflexivity.
Qed.

Lemma fire_completes :
  fire (setNow (Z.max (now (ticking 59)) (t0 + 50 * Z.of_nat 60)) (ticking 59))
       (mkTimer (nextTimerId w0) (t0 + 50 * Z.of_nat 60)
                (HoldInterval n (50 * Z.of_nat 59)))
  = completed.
Proof.
  unfold fire. world_fields. unfold HoldButton.tick. cbv zeta.
  unfold HoldButton.HOLD_DURATION, HoldButton.UPDATE_INTERVAL.
  change (50 * Z.of_nat 59 + 50) with 3000.
  change (50 * Z.of_nat 60) with 3000.
  change (50 * Z.of_nat 59) with 2950.
  change (3000 <=? 3000) with true. cbv iota.
  unfold isMounted, holdOf, setHold, setHolds, setTimers, setNow, ticking.
  world_fields. rewrite Nat.eqb_refl, Hgate, Nat.eqb_refl.
  rewrite (replaceNth_nth _ _ _ Hn). unfold holdAt. world_fields.
  rewrite replaceNth_twice.
  unfold handleParentalGateSuccess, clearTimer, setTimers, addLog, closeGate.
  world_fields. cbn [filter]. world_fields. rewrite Nat.eqb_refl. cbn [negb].
  unfold holdOf, HoldButton.cleanup. world_fields.
  rewrite (replaceNth_nth _ _ _ Hn). world_fields.
  unfold setGate, clearTimer, setTimers, setView. world_fields. cbn [filter].
  change (50 * Z.of_nat 59) with 2950.
  replace (Z.max (t0 + 2950) (t0 + 3000)) with (t0 + 3000) by lia.
  reflexivity.
Qed.

Lemma nextDue_ticking (k : nat) (T : Z) :
  nextDue (ticking k) T
  = if t0 + 50 * Z.of_nat (S k) <=? T
    then Some (mkTimer (nextTimerId w0) (t0 + 50 * Z.of_nat (S k))
                       (HoldInterval n (50 * Z.of_nat k)))
    else None.
Proof. reflexivity. Qed.

(** [j] more runs of the interval, while the time allows and the hold is
    not complete. *)
Lemma ticking_steps (T : Z) (r j : nat) :
  forall k, (k + j <= 59)%nat -> t0 + 50 * Z.of_nat (k + j) <= T ->
    runTimers (j + r) (ticking k) T = runTimers r (ticking (k + j)) T.
Proof.
  induction j as [|j IH]; intros k Hk HT.
  - now rewrite Nat.add_0_r.
  - cbn [Nat.add runTimers]. rewrite nextDue_ticking.
    rewrite (proj2 (Z.leb_le _ _)) by lia. world_fields.
    rewrite fire_ticking by lia.
    rewrite IH by (try lia; now rewrite <- Nat.add_succ_r in * ).
    now rewrite Nat.add_succ_r.
Qed.

Lemma ticking_rests (T : Z) (r k : nat) :
  T < t0 + 50 * Z.of_nat (S k) -> runTimers r (ticking k) T = ticking k.
Proof.
  intros HT. destruct r as [|r]; [reflexivity|].
  cbn [runTimers]. rewrite nextDue_ticking.
  now rewrite (proj2 (Z.leb_gt _ _)) by lia.
Qed.

Lemma ticking_completes (T : Z) (r : nat) :
  t0 + 3000 <= T -> (60 <= r)%nat ->
  runTimers r (ticking 0) T = completed.
Proof.
  intros HT Hr. replace r with (59 + S (r - 60))%nat by lia.
  rewrite ticking_steps by (try lia; cbn; lia).
  cbn [Nat.add runTimers]. rewrite nextDue_ticking.
  rewrite (proj2 (Z.leb_le _ _)) by (cbn; lia). world_fields.
  rewrite fire_completes.
  destruct (r - 60)%nat; reflexivity.
Qed.

End HoldMore.

Section HoldTheorems.

Import App.

Local Open Scope Z_scope.

(** A press at [t] on a page where the gate is shown and no timer is
    pending, and the timers that fire until [t + d]. *)
Lemma press_then_wait (w : World) (n : nat) (st : ParentalGate.State)
      (t d : Z) :
  gate w = Some (n, st) -> (n < List.length (holds w))%nat ->
  timers w = [] -> now w <= t -> 0 <= d ->
  advanceTo (t + d) (deliver w (t, HoldStart))
  = setNow (t + d)
      (if d <? 3000 then ticking w n t (Z.to_nat (d / 50))
       else completed w n t).
Proof.
  intros Hg Hn Ht Hnow Hd. rewrite (@press_ticking w n st t Hg Hn Ht Hnow).
  unfold advanceTo.
  assert (Hr : (List.length (timers (ticking w n t 0))
                * S (Z.to_nat ((t + d - now (ticking w n t 0)) / 50))
                = Z.to_nat (d / 50) + 1)%nat).
  { cbn [ticking timers now List.length Z.of_nat].
    replace (t + d - (t + 50 * 0)) with d by lia. lia. }
  rewrite Hr.
  assert (Hq : 0 <= d / 50) by (apply Z.div_pos; lia).
  assert (Hm : 50 * (d / 50) <= d < 50 * (d / 50) + 50).
  { pose proof (Z.mod_pos_bound d 50 eq_refl).
    pose proof (Z.div_mod d 50). lia. }
  replace (Z.max (t + d) (now (ticking w n t 0))) with (t + d)
    by (cbn [ticking now Z.of_nat]; lia).
  f_equal.
  destruct (Z.ltb_spec d 3000) as [Hlt|Hge].
  - rewrite (@ticking_steps w n st t Hg Hn (t + d) 1%nat (Z.to_nat (d / 50)) 0%nat)
      by (cbn [Nat.add]; lia).
    cbn [Nat.add]. apply (@ticking_rests w n t Hn). lia.
  - apply (@ticking_completes w n st t Hg Hn); lia.
Qed.

(** X20. A single press of the hold button that is released before three
    seconds are over: while it is held the bar shows the time held, rounded
    down to a multiple of 50 ms, as a share of three seconds; at the release
    the bar is back at zero, the interval is cleared, and the gate, the
    view and the record of its signals are as before the press. *)
Theorem short_press_changes_nothing (w : World) (n : nat)
        (st : ParentalGate.State) (t d : Z) :
  gate w = Some (n, st) -> (n < List.length (holds w))%nat ->
  timers w = [] -> now w <= t -> 0 <= d < 3000 ->
  let held := run w [(t, HoldStart); (t + d, Wait)] in
  let released := run w [(t, HoldStart); (t + d, HoldStop)] in
  (HoldButton.isHolding (holdOf n held) = true
   /\ (HoldButton.progress (holdOf n held)
       == HoldButton.progressOf (50 * (d / 50)))%Q
   /\ (HoldButton.progress (holdOf n held) < 100)%Q
   /\ log held = log w /\ currentView held = currentView w /\ gate held = gate w)
  /\ (holdOf n released
      = HoldButton.mkState 0 false (Some (nextTimerId w))
      /\ timers released = [] /\ log released = log w
      /\ currentView released = currentView w /\ gate released = gate w).
Proof.
  intros Hg Hn Ht Hnow Hd. cbv zeta.
  assert (Hq : 0 <= d / 50 <= 59).
  { split; [apply Z.div_pos; lia|].
    assert (d / 50 < 60) by (apply Z.div_lt_upper_bound; lia). lia. }
  set (k := Z.to_nat (d / 50)).
  assert (Hk : Z.of_nat k = d / 50) by (unfold k; apply Z2Nat.id; lia).
  assert (Hadv : advanceTo (t + d) (deliver w (t, HoldStart))
                 = setNow (t + d) (ticking w n t k)).
  { rewrite (@press_then_wait w n st t d Hg Hn Ht Hnow) by lia.
    now rewrite (proj2 (Z.ltb_lt d 3000)) by lia. }
  assert (Hh : holdOf n (setNow (t + d) (ticking w n t k)) = holdAt w k).
  { unfold holdOf, setNow, ticking. cbn [holds]. now apply replaceNth_nth. }
  assert (Hheld : run w [(t, HoldStart); (t + d, Wait)]
                  = setNow (t + d) (ticking w n t k)).
  { unfold run. cbn [fold_left]. unfold deliver at 1. cbn [fst snd].
    now rewrite Hadv. }
  assert (Hrel : run w [(t, HoldStart); (t + d, HoldStop)]
                 = mkWorld (t + d) (currentView w) (selectedVideo w) (gate w)
                     (replaceNth n
                        (HoldButton.mkState 0 false (Some (nextTimerId w)))
                        (holds w))
                     [] (S (nextTimerId w)) (log w)).
  { unfold run. cbn [fold_left]. unfold deliver at 1. cbn [fst snd].
    rewrite Hadv. unfold handle.
    change (gate (setNow (t + d) (ticking w n t k))) with (gate w).
    rewrite Hg, Hh. unfold HoldButton.stopHold, holdAt.
    cbn [HoldButton.intervalRef].
    unfold clearTimer, setHold, setHolds, setTimers, setNow, ticking.
    cbn [now currentView selectedVideo gate holds timers nextTimerId log
         tid filter].
    rewrite Nat.eqb_refl. cbn [negb]. now rewrite replaceNth_twice, Hg. }
  rewrite Hheld, Hrel, Hh. split.
  - unfold holdAt.
    cbn [HoldButton.isHolding HoldButton.progress setNow ticking log
         currentView gate].
    split; [reflexivity|].
    split; [|split; [|now repeat split]].
    + destruct k as [|k']; [now rewrite <- Hk | now rewrite Hk].
    + destruct k as [|k']; [reflexivity|]. rewrite Hk.
      unfold HoldButton.progressOf, HoldButton.HOLD_DURATION.
      assert (He : 50 * (d / 50) <= 2950) by lia.
      revert He. generalize (50 * (d / 50)). intros e He.
      unfold Qlt, Qdiv, Qmult, Qinv, inject_Z. cbn. lia.
  - unfold holdOf. cbn [holds timers log currentView gate].
    rewrite (replaceNth_nth _ _ _ Hn). now repeat split.
Qed.

(** The page with the gate just opened from the grid. *)
Definition gateOpened : World :=
  run initialWorld [(0, SettingsClick (1 # 2) (1 # 2) (1 # 2))].

Lemma short_press_changes_nothing_witness :
  timers (run gateOpened [(1000, HoldStart); (1000 + 2999, HoldStop)]) = []
  /\ log (run gateOpened [(1000, HoldStart); (1000 + 2999, HoldStop)]) = [].
Proof.
  assert (Hg : gate gateOpened
               = Some (0%nat, ParentalGate.init
                                (ParentalGate.mathProblem (1 # 2) (1 # 2) (1 # 2))))
    by reflexivity.
  assert (Hn : (0 < List.length (holds gateOpened))%nat) by (vm_compute; lia).
  assert (Ht : timers gateOpened = []) by reflexivity.
  assert (Hnow : now gateOpened <= 1000) by (vm_compute; discriminate).
  assert (Hd : 0 <= 2999 < 3000) by lia.
  destruct (@short_press_changes_nothing gateOpened 0 _ 1000 2999
              Hg Hn Ht Hnow Hd)
    as (_ & _ & Htimers & Hlog & _).
  split; [exact Htimers | exact Hlog].
Defined.

(** X21. A single press of the hold button that lasts three seconds or
    more: the gate reports its success exactly three seconds after the
    press, once; the settings open, the gate is gone and no timer is left,
    whether the button is released afterwards or not. *)
Theorem full_hold_opens_the_settings (w : World) (n : nat)
        (st : ParentalGate.State) (t d : Z) (e : Event) :
  gate w = Some (n, st) -> (n < List.length (holds w))%nat ->
  timers w = [] -> now w <= t -> 3000 <= d ->
  e = Wait \/ e = HoldStop ->
  let w' := run w [(t, HoldStart); (t + d, e)] in
  log w' = log w ++ [(t + 3000, Success)]
  /\ currentView w' = Settings
  /\ showParentalGate w' = false
  /\ timers w' = [].
Proof.
  intros Hg Hn Ht Hnow Hd He. cbv zeta.
  assert (Hrun : run w [(t, HoldStart); (t + d, e)]
                 = setNow (t + d) (completed w n t)).
  { unfold run. cbn [fold_left]. unfold deliver at 1. cbn [fst snd].
    rewrite (@press_then_wait w n st t d Hg Hn Ht Hnow) by lia.
    rewrite (proj2 (Z.ltb_ge d 3000)) by lia.
    destruct He as [-> | ->]; reflexivity. }
  rewrite Hrun. now repeat split.
Qed.

Lemma full_hold_opens_the_settings_witness :
  log (run gateOpened [(1000, HoldStart); (1000 + 3000, HoldStop)])
  = [(4000, Success)].
Proof.
  assert (Hg : gate gateOpened
               = Some (0%nat, ParentalGate.init
                                (ParentalGate.mathProblem (1 # 2) (1 # 2) (1 # 2))))
    by reflexivity.
  assert (Hn : (0 < List.length (holds gateOpened))%nat) by (vm_compute; lia).
  assert (Ht : timers gateOpened = []) by reflexivity.
  assert (Hnow : now gateOpened <= 1000) by (vm_compute; discriminate).
  assert (Hd : 3000 <= 3000) by lia.
  exact (proj1 (@full_hold_opens_the_settings gateOpened 0 _ 1000 3000 HoldStop
                  Hg Hn Ht Hnow Hd (or_intror eq_refl))).
Defined.

End HoldTheorems.
